(** * The streaming bridge of the AI-SEO analyzer

    A shallow embedding of the gateway route (src/app/api/analyze/route.ts)
    and of the client hook (src/hooks/useAnalysis.ts), with the platform
    operations they call (String.prototype.split and trim, Buffer.toString,
    TextDecoder, TextEncoder, JSON.stringify of a string) written out;
    then of the page and the components that use the hook and draw its
    result, and of the scheduled job that checks for new posts.

    JavaScript strings are sequences of UTF-16 code units and byte buffers
    are sequences of octets; both are lists over [Z]. *)

From Stdlib Require Import ZArith List Lia Bool String Ascii DecimalString Sorted.
From stdpp Require Import gmap.
Import ListNotations.

Local Open Scope Z_scope.

Abbreviation jsstr := (list Z) (only parsing).
Abbreviation bytes := (list Z) (only parsing).

(** A string literal of the source, as code units (ASCII literals only). *)
Definition js (s : string) : jsstr :=
  map (fun a => Z.of_N (N_of_ascii a)) (list_ascii_of_string s).

Definition LF : Z := 10.

(** ** UTF-8 and UTF-16 *)

Module Utf8.

(** The state of the decoder of the Encoding Standard. *)
Record state := {
  code_point : Z;
  bytes_seen : Z;
  bytes_needed : Z;
  lower_boundary : Z;
  upper_boundary : Z
}.

Definition init : state :=
  {| code_point := 0; bytes_seen := 0; bytes_needed := 0;
     lower_boundary := 0x80; upper_boundary := 0xBF |}.

Definition REPLACEMENT : Z := 0xFFFD.

Definition in_range (lo hi b : Z) : bool := (lo <=? b) && (b <=? hi).

(** A byte read while no sequence is open. *)
Definition lead (b : Z) : state * list Z :=
  if in_range 0x00 0x7F b then (init, [b])
  else if in_range 0xC2 0xDF b then
    ({| code_point := Z.land b 0x1F; bytes_seen := 0; bytes_needed := 1;
        lower_boundary := 0x80; upper_boundary := 0xBF |}, [])
  else if in_range 0xE0 0xEF b then
    ({| code_point := Z.land b 0xF; bytes_seen := 0; bytes_needed := 2;
        lower_boundary := if b =? 0xE0 then 0xA0 else 0x80;
        upper_boundary := if b =? 0xED then 0x9F else 0xBF |}, [])
  else if in_range 0xF0 0xF4 b then
    ({| code_point := Z.land b 0x7; bytes_seen := 0; bytes_needed := 3;
        lower_boundary := if b =? 0xF0 then 0x90 else 0x80;
        upper_boundary := if b =? 0xF4 then 0x8F else 0xBF |}, [])
  else (init, [REPLACEMENT]).

(** One byte through the decoder: the new state and the code points
    emitted.  A byte that breaks an open sequence gives U+FFFD and is
    then read again as a lead byte. *)
Definition handler (st : state) (b : Z) : state * list Z :=
  if bytes_needed st =? 0 then lead b
  else if negb (in_range (lower_boundary st) (upper_boundary st) b) then
    let '(st', out) := lead b in (st', REPLACEMENT :: out)
  else
    let cp := Z.lor (Z.shiftl (code_point st) 6) (Z.land b 0x3F) in
    let seen := bytes_seen st + 1 in
    if seen =? bytes_needed st then (init, [cp])
    else ({| code_point := cp; bytes_seen := seen;
             bytes_needed := bytes_needed st;
             lower_boundary := 0x80; upper_boundary := 0xBF |}, []).

Fixpoint run (st : state) (bs : bytes) : state * list Z :=
  match bs with
  | [] => (st, [])
  | b :: bs' =>
      let '(st1, out1) := handler st b in
      let '(st2, out2) := run st1 bs' in
      (st2, out1 ++ out2)
  end.

(** End of input: an open sequence gives one U+FFFD. *)
Definition flush (st : state) : list Z :=
  if bytes_needed st =? 0 then [] else [REPLACEMENT].

(** A code point as UTF-16 code units. *)
Definition utf16 (cp : Z) : jsstr :=
  if cp <? 0x10000 then [cp]
  else let c := cp - 0x10000 in
       [0xD800 + Z.shiftr c 10; 0xDC00 + Z.land c 0x3FF].

Definition utf16s (cps : list Z) : jsstr := concat (map utf16 cps).

Definition is_high (c : Z) : bool := in_range 0xD800 0xDBFF c.
Definition is_low (c : Z) : bool := in_range 0xDC00 0xDFFF c.

(** The scalar values of a string: surrogate pairs are combined and a
    lone surrogate becomes U+FFFD. *)
Fixpoint scalars (s : jsstr) : list Z :=
  match s with
  | [] => []
  | c :: s' =>
      if is_high c then
        match s' with
        | d :: s'' =>
            if is_low d
            then (0x10000 + Z.shiftl (c - 0xD800) 10 + (d - 0xDC00)) :: scalars s''
            else REPLACEMENT :: scalars s'
        | [] => [REPLACEMENT]
        end
      else if is_low c then REPLACEMENT :: scalars s'
      else c :: scalars s'
  end.

Definition encode_scalar (cp : Z) : bytes :=
  if cp <? 0x80 then [cp]
  else if cp <? 0x800 then
    [0xC0 + Z.shiftr cp 6; 0x80 + Z.land cp 0x3F]
  else if cp <? 0x10000 then
    [0xE0 + Z.shiftr cp 12; 0x80 + Z.land (Z.shiftr cp 6) 0x3F;
     0x80 + Z.land cp 0x3F]
  else
    [0xF0 + Z.shiftr cp 18; 0x80 + Z.land (Z.shiftr cp 12) 0x3F;
     0x80 + Z.land (Z.shiftr cp 6) 0x3F; 0x80 + Z.land cp 0x3F].

End Utf8.

(** [chunk.toString()] on a Node Buffer: the chunk is decoded on its own,
    from the initial state and flushed at its end. *)
Definition Buffer_toString (chunk : bytes) : jsstr :=
  let '(st, out) := Utf8.run Utf8.init chunk in
  Utf8.utf16s (out ++ Utf8.flush st).

(** [new TextEncoder().encode(s)]. *)
Definition TextEncoder_encode (s : jsstr) : bytes :=
  concat (map Utf8.encode_scalar (Utf8.scalars s)).

(** [new TextDecoder()] used with [{ stream: true }]: the decoder state
    lives across calls and a leading byte order mark is dropped once. *)
Record TextDecoder := {
  td_state : Utf8.state;
  td_bom_seen : bool
}.

Definition TextDecoder_new : TextDecoder :=
  {| td_state := Utf8.init; td_bom_seen := false |}.

Definition strip_bom (seen : bool) (cps : list Z) : bool * list Z :=
  match cps with
  | [] => (seen, [])
  | cp :: cps' =>
      if seen then (true, cps)
      else if cp =? 0xFEFF then (true, cps') else (true, cps)
  end.

Definition TextDecoder_decode_stream (d : TextDecoder) (chunk : bytes)
  : TextDecoder * jsstr :=
  let '(st, out) := Utf8.run (td_state d) chunk in
  let '(seen, out') := strip_bom (td_bom_seen d) out in
  ({| td_state := st; td_bom_seen := seen |}, Utf8.utf16s out').

(** ** String operations *)

(** [s.startsWith(p)]. *)
Fixpoint startsWith (p s : jsstr) : bool :=
  match p, s with
  | [], _ => true
  | a :: p', b :: s' => (a =? b) && startsWith p' s'
  | _ :: _, [] => false
  end.

(** [s.split(sep)] for a non-empty separator: the occurrences of [sep] are
    found from left to right without overlap.  [skip] counts the code units
    of a matched separator still to be passed over and [cur] holds, in
    reverse, the segment being read. *)
Fixpoint split_from (sep : jsstr) (skip : nat) (cur s : jsstr) : list jsstr :=
  match s with
  | [] => [rev cur]
  | c :: s' =>
      match skip with
      | S k => split_from sep k cur s'
      | O =>
          if startsWith sep s
          then rev cur :: split_from sep (length sep - 1)%nat [] s'
          else split_from sep O (c :: cur) s'
      end
  end.

Definition split (sep s : jsstr) : list jsstr := split_from sep O [] s.

(** [l.pop()]: the list without its last element, and that element. *)
Definition pop {A} (l : list A) : list A * option A :=
  match rev l with
  | [] => ([], None)
  | x :: r => (rev r, Some x)
  end.

(** [x ?? d] and a default [= d], for an [x] that is undefined or a
    value that is not null. *)
Definition nullish {A} (x : option A) (d : A) : A :=
  match x with Some a => a | None => d end.

(** White space and line terminators, as [trim] removes them. *)
Definition is_white_space (c : Z) : bool :=
  bool_decide (c ∈ [0x9; 0xA; 0xB; 0xC; 0xD; 0x20; 0xA0; 0x1680; 0x2028;
                    0x2029; 0x202F; 0x205F; 0x3000; 0xFEFF])
  || Utf8.in_range 0x2000 0x200A c.

Fixpoint trimStart (s : jsstr) : jsstr :=
  match s with
  | c :: s' => if is_white_space c then trimStart s' else s
  | [] => []
  end.

Definition trimEnd (s : jsstr) : jsstr := rev (trimStart (rev s)).

Definition trim (s : jsstr) : jsstr := trimEnd (trimStart s).

(** [l.find(p)]. *)
Fixpoint find_first {A} (p : A -> bool) (l : list A) : option A :=
  match l with
  | [] => None
  | x :: l' => if p x then Some x else find_first p l'
  end.

(** [s.slice(n)] and [s.slice(0, n)] for a literal [n >= 0]. *)
Definition slice_from (n : nat) (s : jsstr) : jsstr := skipn n s.
Definition slice_to (n : nat) (s : jsstr) : jsstr := firstn n s.

(** [s.replace(/^https?:\/\//, empty)]: the scheme prefix is removed. *)
Definition strip_scheme (s : jsstr) : jsstr :=
  if startsWith (js "http://") s then skipn 7 s
  else if startsWith (js "https://") s then skipn 8 s
  else s.

(** A non-negative integer in a template literal. *)
Definition decimal (n : Z) : jsstr :=
  js (NilEmpty.string_of_uint (N.to_uint (Z.to_N n))).

(** ** JSON values and [JSON.parse] *)

Module Json.

#[local] Set Warnings "-register-all".

(** A number keeps the decimal value written in the text, [m * 10^e]. *)
Inductive value :=
| Null
| Bool (b : bool)
| Num (m e : Z)
| Str (s : jsstr)
| Arr (items : list value)
| Obj (members : list (jsstr * value)).

(** The number is read as 0 by IEEE double rounding: its magnitude is at
    most half the least subnormal, 2^-1075. *)
Definition num_is_zero (m e : Z) : bool :=
  (m =? 0) || ((e <? 0) && (Z.abs m * 2 ^ 1075 <=? 10 ^ (- e))).

(** ToBoolean. *)
Definition truthy (v : value) : bool :=
  match v with
  | Null => false
  | Bool b => b
  | Num m e => negb (num_is_zero m e)
  | Str s => negb (bool_decide (s = []))
  | Arr _ | Obj _ => true
  end.

(** An own member of an object; of two members with one key the later
    one stands. *)
Fixpoint member (k : jsstr) (ms : list (jsstr * value)) : option value :=
  match ms with
  | [] => None
  | (k', v) :: ms' =>
      match member k ms' with
      | Some w => Some w
      | None => if bool_decide (k' = k) then Some v else None
      end
  end.

Definition is_ws (c : Z) : bool :=
  (c =? 0x20) || (c =? 0x9) || (c =? 0xA) || (c =? 0xD).

Fixpoint skip_ws (s : jsstr) : jsstr :=
  match s with
  | c :: s' => if is_ws c then skip_ws s' else s
  | [] => []
  end.

Definition digit (c : Z) : option Z :=
  if Utf8.in_range 48 57 c then Some (c - 48) else None.

Definition hex (c : Z) : option Z :=
  if Utf8.in_range 48 57 c then Some (c - 48)
  else if Utf8.in_range 97 102 c then Some (c - 87)
  else if Utf8.in_range 65 70 c then Some (c - 55)
  else None.

(** A run of digits: its value on top of [acc], its length, the rest. *)
Fixpoint digits (acc n : Z) (s : jsstr) : Z * Z * jsstr :=
  match s with
  | c :: s' =>
      match digit c with
      | Some d => digits (10 * acc + d) (n + 1) s'
      | None => (acc, n, s)
      end
  | [] => (acc, n, [])
  end.

(** The exponent part, if there is one. *)
Definition exponent (s : jsstr) : option (Z * jsstr) :=
  match s with
  | c :: s1 =>
      if (c =? 101) || (c =? 69) then
        let '(neg, s2) :=
          match s1 with
          | 43 :: r => (false, r)
          | 45 :: r => (true, r)
          | _ => (false, s1)
          end in
        let '(x, n, s3) := digits 0 0 s2 in
        if n =? 0 then None else Some (if neg then - x else x, s3)
      else Some (0, s)
  | [] => Some (0, [])
  end.

(** The fraction part, if there is one, on top of the integer part. *)
Definition fraction (int : Z) (s : jsstr) : option (Z * Z * jsstr) :=
  match s with
  | 46 :: s1 =>
      let '(x, n, s2) := digits int 0 s1 in
      if n =? 0 then None else Some (x, n, s2)
  | _ => Some (int, 0, s)
  end.

Definition number (s : jsstr) : option (value * jsstr) :=
  let '(neg, s0) := match s with 45 :: r => (true, r) | _ => (false, s) end in
  match s0 with
  | c :: s1 =>
      match digit c with
      | Some d =>
          let '(int, s2) :=
            if d =? 0 then (0, s1)
            else let '(x, _, r) := digits d 1 s1 in (x, r) in
          match fraction int s2 with
          | Some (x, n, s3) =>
              match exponent s3 with
              | Some (ex, s4) =>
                  Some (Num (if neg then - x else x) (ex - n), s4)
              | None => None
              end
          | None => None
          end
      | None => None
      end
  | [] => None
  end.

(** The characters of a string after its opening quote, up to and with
    the closing one. *)
Fixpoint string_body (s : jsstr) : option (jsstr * jsstr) :=
  match s with
  | [] => None
  | c :: s' =>
      if c =? 34 then Some ([], s')
      else if c =? 92 then
        match s' with
        | e :: s1 =>
            let simple (u : Z) :=
              match string_body s1 with
              | Some (t, r) => Some (u :: t, r)
              | None => None
              end in
            if e =? 34 then simple 34
            else if e =? 92 then simple 92
            else if e =? 47 then simple 47
            else if e =? 98 then simple 8
            else if e =? 102 then simple 12
            else if e =? 110 then simple 10
            else if e =? 114 then simple 13
            else if e =? 116 then simple 9
            else if e =? 117 then
              match s1 with
              | a :: b :: c' :: d :: s2 =>
                  match hex a, hex b, hex c', hex d, string_body s2 with
                  | Some x3, Some x2, Some x1, Some x0, Some (t, r) =>
                      Some ((4096 * x3 + 256 * x2 + 16 * x1 + x0) :: t, r)
                  | _, _, _, _, _ => None
                  end
              | _ => None
              end
            else None
        | [] => None
        end
      else if c <? 0x20 then None
      else
        match string_body s' with
        | Some (t, r) => Some (c :: t, r)
        | None => None
        end
  end.

Fixpoint parse_value (fuel : nat) (s : jsstr) : option (value * jsstr) :=
  match fuel with
  | O => None
  | S fuel' =>
      let s0 := skip_ws s in
      if startsWith (js "null") s0 then Some (Null, skipn 4 s0)
      else if startsWith (js "true") s0 then Some (Bool true, skipn 4 s0)
      else if startsWith (js "false") s0 then Some (Bool false, skipn 5 s0)
      else
        match s0 with
        | [] => None
        | c :: r =>
            if c =? 34 then
              match string_body r with
              | Some (t, r') => Some (Str t, r')
              | None => None
              end
            else if c =? 91 then
              match skip_ws r with
              | 93 :: r' => Some (Arr [], r')
              | _ =>
                  match parse_elements fuel' r with
                  | Some (vs, r') => Some (Arr vs, r')
                  | None => None
                  end
              end
            else if c =? 123 then
              match skip_ws r with
              | 125 :: r' => Some (Obj [], r')
              | _ =>
                  match parse_members fuel' r with
                  | Some (ms, r') => Some (Obj ms, r')
                  | None => None
                  end
              end
            else number s0
        end
  end
with parse_elements (fuel : nat) (s : jsstr) : option (list value * jsstr) :=
  match fuel with
  | O => None
  | S fuel' =>
      match parse_value fuel' s with
      | Some (v, r) =>
          match skip_ws r with
          | 93 :: r' => Some ([v], r')
          | 44 :: r' =>
              match parse_elements fuel' r' with
              | Some (vs, r'') => Some (v :: vs, r'')
              | None => None
              end
          | _ => None
          end
      | None => None
      end
  end
with parse_members (fuel : nat) (s : jsstr)
  : option (list (jsstr * value) * jsstr) :=
  match fuel with
  | O => None
  | S fuel' =>
      match skip_ws s with
      | 34 :: r0 =>
          match string_body r0 with
          | Some (k, r1) =>
              match skip_ws r1 with
              | 58 :: r2 =>
                  match parse_value fuel' r2 with
                  | Some (v, r3) =>
                      match skip_ws r3 with
                      | 125 :: r' => Some ([(k, v)], r')
                      | 44 :: r' =>
                          match parse_members fuel' r' with
                          | Some (ms, r'') => Some ((k, v) :: ms, r'')
                          | None => None
                          end
                      | _ => None
                      end
                  | None => None
                  end
              | _ => None
              end
          | None => None
          end
      | _ => None
      end
  end.

(** [JSON.parse(text)]: [None] stands for the SyntaxError it throws. *)
Definition parse (text : jsstr) : option value :=
  match parse_value (2 * length text + 2) text with
  | Some (v, r) => if bool_decide (skip_ws r = []) then Some v else None
  | None => None
  end.

Definition hex_digit (d : Z) : Z := if d <? 10 then 48 + d else 87 + d.

Definition unicode_escape (c : Z) : jsstr :=
  js "\u" ++ [hex_digit (Z.shiftr c 12); hex_digit (Z.land (Z.shiftr c 8) 15);
             hex_digit (Z.land (Z.shiftr c 4) 15); hex_digit (Z.land c 15)].

(** The characters of a string as [JSON.stringify] writes them between
    the quotes. *)
Fixpoint quote_body (s : jsstr) : jsstr :=
  match s with
  | [] => []
  | c :: s' =>
      if c =? 8 then js "\b" ++ quote_body s'
      else if c =? 9 then js "\t" ++ quote_body s'
      else if c =? 10 then js "\n" ++ quote_body s'
      else if c =? 12 then js "\f" ++ quote_body s'
      else if c =? 13 then js "\r" ++ quote_body s'
      else if c =? 34 then [92; 34] ++ quote_body s'
      else if c =? 92 then js "\\" ++ quote_body s'
      else if c <? 0x20 then unicode_escape c ++ quote_body s'
      else if Utf8.is_high c then
        match s' with
        | d :: s'' =>
            if Utf8.is_low d then c :: d :: quote_body s''
            else unicode_escape c ++ quote_body s'
        | [] => unicode_escape c
        end
      else if Utf8.is_low c then unicode_escape c ++ quote_body s'
      else c :: quote_body s'
  end.

(** [JSON.stringify(s)] for a string [s]. *)
Definition stringify_string (s : jsstr) : jsstr :=
  [34] ++ quote_body s ++ [34].

End Json.

(** An exception object: its [name] and its [message].  The messages of
    the TypeErrors the engine throws are given in V8's wording; no
    statement below depends on the wording. *)
Record exn := { exn_name : jsstr; exn_message : jsstr }.

Definition TypeError (message : jsstr) : exn :=
  {| exn_name := js "TypeError"; exn_message := message |}.

(** [v.k] for a value [v] that is not null, for the keys the source reads
    ([type], [stage], [detail], [data], [message], [url], [maxPages]):
    an own member of an object; no prototype has one of these keys, so
    every other value gives undefined. *)
Definition prop (v : Json.value) (k : jsstr) : option Json.value :=
  match v with
  | Json.Obj ms => Json.member k ms
  | _ => None
  end.

(** [x ?? d] for a parsed value, which may be null. *)
Definition nullish_value (x : option Json.value) (d : Json.value) : Json.value :=
  match x with
  | Some Json.Null | None => d
  | Some v => v
  end.

(** [!x] is false. *)
Definition truthy (x : option Json.value) : bool :=
  match x with
  | Some v => Json.truthy v
  | None => false
  end.

(** The exception [String(v)] throws for a parsed value, if it throws.  An
    object with an own member [toString] cannot be converted: the member is
    no function, and [valueOf] gives back the object.  An array converts
    its items, null apart, from left to right. *)
Fixpoint String_throws (v : Json.value) : option exn :=
  match v with
  | Json.Obj ms =>
      match Json.member (js "toString") ms with
      | Some _ => Some (TypeError (js "Cannot convert object to primitive value"))
      | None => None
      end
  | Json.Arr items =>
      (fix first (l : list Json.value) : option exn :=
         match l with
         | [] => None
         | x :: l' =>
             match String_throws x with
             | Some e => Some e
             | None => first l'
             end
         end) items
  | _ => None
  end.

(** ** The gateway: src/app/api/analyze/route.ts

    The file holds three realisations of the route: one that spawns the
    worker and reads its standard output, and two that call a remote
    service and relay its response body.  The two remote ones differ in
    the address they call and in what they log, not in what they answer;
    [POST_proxy] stands for both. *)

Module Route.

(** The controller of the outbound ReadableStream: the chunks enqueued so
    far and whether [close()] was called. *)
Record Controller := {
  queue : list bytes;
  closed : bool
}.

(** [controller.enqueue(chunk)]; [None] is the TypeError of a closed
    stream. *)
Definition enqueue (c : Controller) (chunk : bytes) : option Controller :=
  if closed c then None
  else Some {| queue := queue c ++ [chunk]; closed := false |}.

(** [controller.close()]. *)
Definition close (c : Controller) : option Controller :=
  if closed c then None
  else Some {| queue := queue c; closed := true |}.

(** What the closure of [start(controller)] holds.  [parse_calls] is a
    ghost trace of the arguments [JSON.parse] was called with;
    [uncaught] tells that a handler ended by an exception nothing
    caught. *)
Record Supervisor := {
  buffer : jsstr;
  controller : Controller;
  parse_calls : list jsstr;
  uncaught : bool
}.

Definition start : Supervisor :=
  {| buffer := []; controller := {| queue := []; closed := false |};
     parse_calls := []; uncaught := false |}.

(** [`data: ${payload}\n\n`]. *)
Definition frame (payload : jsstr) : jsstr :=
  js "data: " ++ payload ++ [LF; LF].

Definition DONE : jsstr := js "data: [DONE]" ++ [LF; LF].

(** [try { JSON.parse(text); controller.enqueue(...) } catch {}]. *)
Definition try_forward (s : Supervisor) (text : jsstr) : Supervisor :=
  let s1 := {| buffer := buffer s; controller := controller s;
               parse_calls := parse_calls s ++ [text];
               uncaught := uncaught s |} in
  match Json.parse text with
  | None => s1
  | Some _ =>
      match enqueue (controller s1) (TextEncoder_encode (frame text)) with
      | Some c => {| buffer := buffer s1; controller := c;
                     parse_calls := parse_calls s1;
                     uncaught := uncaught s1 |}
      | None => s1
      end
  end.

(** The body of [for (const line of lines)]. *)
Definition on_line (s : Supervisor) (line : jsstr) : Supervisor :=
  let trimmed := trim line in
  if bool_decide (trimmed = []) then s else try_forward s trimmed.

(** The text of a chunk, once [chunk.toString()] is taken. *)
Definition on_text (s : Supervisor) (text : jsstr) : Supervisor :=
  let '(lines, last) := pop (split [LF] (buffer s ++ text)) in
  fold_left on_line lines
    {| buffer := nullish last []; controller := controller s;
       parse_calls := parse_calls s; uncaught := uncaught s |}.

(** [child.stdout.on("data", ...)]. *)
Definition on_stdout_data (s : Supervisor) (chunk : bytes) : Supervisor :=
  on_text s (Buffer_toString chunk).

Definition fail (s : Supervisor) : Supervisor :=
  {| buffer := buffer s; controller := controller s;
     parse_calls := parse_calls s; uncaught := true |}.

Definition with_controller (s : Supervisor) (c : Controller) : Supervisor :=
  {| buffer := buffer s; controller := c;
     parse_calls := parse_calls s; uncaught := uncaught s |}.

(** [child.on("close", ...)]. *)
Definition on_close (s : Supervisor) : Supervisor :=
  let s1 :=
    if bool_decide (trim (buffer s) = []) then s
    else try_forward s (trim (buffer s)) in
  match enqueue (controller s1) (TextEncoder_encode DONE) with
  | None => fail s1
  | Some c =>
      match close c with
      | None => fail (with_controller s1 c)
      | Some c' => with_controller s1 c'
      end
  end.

(** [JSON.stringify({ type: "error", message })]. *)
Definition error_event (message : jsstr) : jsstr :=
  js "{" ++ Json.stringify_string (js "type") ++ js ":"
    ++ Json.stringify_string (js "error") ++ js ","
    ++ Json.stringify_string (js "message") ++ js ":"
    ++ Json.stringify_string message ++ js "}".

(** [child.on("error", ...)], with [err.message]. *)
Definition on_error (s : Supervisor) (message : jsstr) : Supervisor :=
  match enqueue (controller s)
          (TextEncoder_encode (frame (error_event message))) with
  | None => fail s
  | Some c =>
      match close c with
      | None => fail (with_controller s c)
      | Some c' => with_controller s c'
      end
  end.

(** What the child process does, as the handlers see it. *)
Inductive ChildEvent :=
| StdoutData (chunk : bytes)
| StderrData (chunk : bytes)
| Close
| SpawnError (message : jsstr).

(** A handler runs unless an earlier one ended by an uncaught
    exception. *)
Definition handle (s : Supervisor) (ev : ChildEvent) : Supervisor :=
  if uncaught s then s
  else match ev with
       | StdoutData chunk => on_stdout_data s chunk
       | StderrData _ => s
       | Close => on_close s
       | SpawnError message => on_error s message
       end.

Definition run (evs : list ChildEvent) : Supervisor :=
  fold_left handle evs start.

(** The bytes a reader of the outbound stream gets. *)
Definition outbound (s : Supervisor) : bytes := concat (queue (controller s)).

(** The environment variables the route reads. *)
Record Env := {
  SEO_SCRIPT_PATH : option jsstr;
  PYTHON_BIN : option jsstr
}.

(** [x || d] for an environment variable. *)
Definition or_default (x : option jsstr) (d : jsstr) : jsstr :=
  match x with
  | Some (c :: r) => c :: r
  | _ => d
  end.

Definition SCRIPT_PATH (env : Env) : jsstr :=
  or_default (SEO_SCRIPT_PATH env)
    (js "/Users/danieledinunzio/Documents/AI SEO/seo_analyzer.py").

(** An argument of [spawn]: a text, a value passed as it is, or
    [String(v)]. *)
Inductive Arg :=
| ArgText (s : jsstr)
| ArgValue (v : Json.value)
| ArgString (v : Json.value).

(** The response of the upstream service to the proxy realisation. *)
Inductive Upstream :=
| Unreachable
| Replied (status : Z) (body : option (list bytes)).

Inductive Response :=
| JsonResponse (status : Z) (body : jsstr)
| SpawnStream (bin : jsstr) (args : list Arg)
| TextStream (body : jsstr)
| RelayStream (body : list bytes).

Definition url_required : Response :=
  JsonResponse 400
    (js "{" ++ Json.stringify_string (js "error") ++ js ":"
       ++ Json.stringify_string (js "url is required") ++ js "}").

(** What [child_process.spawn] throws at once for a command and its
    arguments, if it throws: Node refuses an argument that holds U+0000,
    and the system can refuse the call.  A command that is not found is
    reported later, by the 'error' event of the child. *)
Definition Spawn := jsstr -> list Arg -> option exn.

(** [POST] of the local-spawn realisation, on the parsed request body.
    [start(controller)] runs inside the constructor of the stream, so
    what [String(maxPages)] or [spawn] throws there makes [POST] reject,
    as the TypeError of destructuring null does: [inr] is that
    exception, and no response is given. *)
Definition POST (env : Env) (spawn : Spawn) (body : Json.value)
  : Response + exn :=
  match body with
  | Json.Null =>
      inr (TypeError (js "Cannot destructure property 'url' of '(intermediate value)' as it is null."))
  | _ =>
      let url := prop body (js "url") in
      let maxPages := nullish (prop body (js "maxPages")) (Json.Num 5 0) in
      match url with
      | Some u =>
          if Json.truthy u then
            let pythonBin := or_default (PYTHON_BIN env) (js "/usr/bin/python3") in
            match String_throws maxPages with
            | Some e => inr e
            | None =>
                let args := [ArgText (SCRIPT_PATH env); ArgValue u;
                             ArgString maxPages; ArgText (js "--json")] in
                match spawn pythonBin args with
                | Some e => inr e
                | None => inl (SpawnStream pythonBin args)
                end
            end
          else inl url_required
      | None => inl url_required
      end
  end.

Definition proxy_error (message : jsstr) : Response :=
  TextStream (frame (error_event message) ++ DONE).

(** [POST] of the remote-service realisation; [upstream] is what the
    call of the service gives, consulted only once the body is valid. *)
Definition POST_proxy (body : Json.value) (upstream : Upstream)
  : Response + exn :=
  match body with
  | Json.Null =>
      inr (TypeError (js "Cannot read properties of null (reading 'url')"))
  | _ =>
      if truthy (prop body (js "url")) then
        match upstream with
        | Unreachable => inl (proxy_error (js "Analysis service unavailable"))
        | Replied status body' =>
            match body' with
            | Some chunks =>
                if Utf8.in_range 200 299 status then inl (RelayStream chunks)
                else inl (proxy_error (js "Service error: " ++ decimal status))
            | None => inl (proxy_error (js "Service error: " ++ decimal status))
            end
        end
      else inl url_required
  end.

(** The bytes of a streamed response, where the route fixes them. *)
Definition response_bytes (r : Response) : option bytes :=
  match r with
  | TextStream body => Some (TextEncoder_encode body)
  | RelayStream chunks => Some (concat chunks)
  | _ => None
  end.

End Route.

(** ** The client hook: src/hooks/useAnalysis.ts *)

Module Hook.

(** What a label can be at run time: a value read from JSON (a string,
    when the event is typed as declared), or a member inherited from
    [Object.prototype], which an index into [STAGE_LABELS] can reach. *)
Inductive jsval :=
| Val (v : Json.value)
| ProtoMember (name : jsstr).

Definition text (s : string) : jsval := Val (Json.Str (js s)).

Definition STAGE_LABELS : list (jsstr * jsstr) :=
  [ (js "domain", js "Checking domain strategy");
    (js "robots", js "Fetching robots.txt");
    (js "sitemap", js "Fetching sitemap.xml");
    (js "agent_files", js "Checking AI agent files (llms.txt)");
    (js "page", js "Analyzing page");
    (js "internal_links", js "Analyzing internal link structure");
    (js "complete", js "Finalizing results") ].

Definition Object_prototype : list jsstr :=
  [ js "constructor"; js "__defineGetter__"; js "__defineSetter__";
    js "hasOwnProperty"; js "__lookupGetter__"; js "__lookupSetter__";
    js "isPrototypeOf"; js "propertyIsEnumerable"; js "toString";
    js "valueOf"; js "__proto__"; js "toLocaleString" ].

Fixpoint assoc (k : jsstr) (l : list (jsstr * jsstr)) : option jsstr :=
  match l with
  | [] => None
  | (k', v) :: l' => if bool_decide (k' = k) then Some v else assoc k l'
  end.

Definition not_primitive : exn :=
  TypeError (js "Cannot convert object to primitive value").

(** The strings of the items of an array, joined by commas.  [None] is a
    string that holds the digits of a number, which is no key of
    [STAGE_LABELS] nor of [Object.prototype]. *)
Fixpoint join (pieces : list (option jsstr + exn)) : option jsstr + exn :=
  match pieces with
  | [] => inl (Some [])
  | [p] => p
  | p :: ps =>
      match p, join ps with
      | inr e, _ => inr e
      | _, inr e => inr e
      | inl (Some a), inl (Some b) => inl (Some (a ++ js "," ++ b))
      | _, _ => inl None
      end
  end.

(** The property key a value stands for when it indexes an object. *)
Fixpoint to_key (v : Json.value) : option jsstr + exn :=
  match v with
  | Json.Str s => inl (Some s)
  | Json.Num _ _ => inl None
  | Json.Bool b => inl (Some (if b then js "true" else js "false"))
  | Json.Null => inl (Some (js "null"))
  | Json.Obj ms =>
      match Json.member (js "toString") ms with
      | Some _ => inr not_primitive
      | None => inl (Some (js "[object Object]"))
      end
  | Json.Arr items =>
      join ((fix pieces (l : list Json.value) :=
               match l with
               | [] => []
               | x :: l' =>
                   match x with
                   | Json.Null => inl (Some [])
                   | _ => to_key x
                   end :: pieces l'
               end) items)
  end.

(** [STAGE_LABELS[stage] ?? stage]. *)
Definition label_of (stage : Json.value) : jsval + exn :=
  match to_key stage with
  | inr e => inr e
  | inl None => inl (Val stage)
  | inl (Some k) =>
      match assoc k STAGE_LABELS with
      | Some l => inl (Val (Json.Str l))
      | None =>
          if bool_decide (k ∈ Object_prototype) then inl (ProtoMember k)
          else inl (Val stage)
      end
  end.

(** [x === "literal"]. *)
Definition is_text (x : option Json.value) (s : string) : bool :=
  match x with
  | Some (Json.Str t) => bool_decide (t = js s)
  | _ => false
  end.

Definition stageLabel (stage : Json.value) (detail : option Json.value)
  : jsval + exn :=
  if is_text (Some stage) "page" && truthy detail then
    match detail with
    | Some (Json.Str d) =>
        inl (Val (Json.Str (js "Analyzing: " ++ slice_to 55 (strip_scheme d))))
    | _ => inr (TypeError (js "detail.replace is not a function"))
    end
  else label_of stage.

Inductive Status := Idle | Loading | Complete | Error.

Record ProgressStep := {
  stage : Json.value;
  detail : option Json.value;
  label : jsval
}.

Record AnalysisState := {
  status : Status;
  progressSteps : list ProgressStep;
  currentStage : jsval;
  result : option Json.value;
  error : option Json.value
}.

Definition INITIAL_STATE : AnalysisState :=
  {| status := Idle; progressSteps := []; currentStage := Val (Json.Str []);
     result := None; error := None |}.

(** The state [analyze] sets before it calls [fetch]. *)
Definition STARTING : AnalysisState :=
  {| status := Loading; progressSteps := [];
     currentStage := text "Starting analysis...";
     result := None; error := None |}.

(** Lines 98 to 122: what a parsed event does to the state. *)
Definition apply_event (prev : AnalysisState) (event : Json.value)
  : AnalysisState + exn :=
  match event with
  | Json.Null =>
      inr (TypeError (js "Cannot read properties of null (reading 'type')"))
  | _ =>
      let type := prop event (js "type") in
      if is_text type "progress" then
        let stage := nullish_value (prop event (js "stage")) (Json.Str []) in
        let detail := prop event (js "detail") in
        match stageLabel stage detail with
        | inr e => inr e
        | inl label =>
            inl {| status := status prev;
                   progressSteps :=
                     progressSteps prev ++
                       [{| stage := stage; detail := detail; label := label |}];
                   currentStage := label;
                   result := result prev;
                   error := error prev |}
        end
      else if is_text type "result" && truthy (prop event (js "data")) then
        inl {| status := Complete;
               progressSteps := progressSteps prev;
               currentStage := text "Complete";
               result := prop event (js "data");
               error := error prev |}
      else if is_text type "error" then
        inl {| status := Error;
               progressSteps := progressSteps prev;
               currentStage := currentStage prev;
               result := result prev;
               error := Some (nullish_value (prop event (js "message"))
                                (Json.Str (js "Unknown error"))) |}
      else inl prev
  end.

(** The payload of a part, when it has a data line that is not the
    sentinel. *)
Definition payload (part : jsstr) : option jsstr :=
  match find_first (startsWith (js "data: ")) (split [LF] part) with
  | None => None
  | Some dataLine =>
      let raw := trim (slice_from 6 dataLine) in
      if bool_decide (raw = js "[DONE]") then None else Some raw
  end.

(** The body of [for (const part of parts)]. *)
Definition on_part (prev : AnalysisState) (part : jsstr)
  : AnalysisState + exn :=
  match payload part with
  | None => inl prev
  | Some raw =>
      match Json.parse raw with
      | None => inl prev
      | Some event => apply_event prev event
      end
  end.

(** The loop over the parts of a chunk: the state reached and the
    exception that ended the loop, if one did. *)
Fixpoint on_parts (prev : AnalysisState) (parts : list jsstr)
  : AnalysisState * option exn :=
  match parts with
  | [] => (prev, None)
  | part :: parts' =>
      match on_part prev part with
      | inl st => on_parts st parts'
      | inr e => (prev, Some e)
      end
  end.

Definition AbortError : exn :=
  {| exn_name := js "AbortError";
     exn_message := js "signal is aborted without reason" |}.

(** The [catch] block. *)
Definition on_catch (prev : AnalysisState) (err : exn) : AnalysisState :=
  if bool_decide (exn_name err = js "AbortError") then prev
  else {| status := Error;
          progressSteps := progressSteps prev;
          currentStage := currentStage prev;
          result := result prev;
          error := Some (Json.Str (exn_message err)) |}.

(** Where one call of [analyze] stands: it awaits [fetch], it awaits
    [reader.read()] with its buffer and decoder, or it has returned. *)
Inductive Phase :=
| Fetching (url : jsstr) (maxPages : Z)
| Reading (sseBuffer : jsstr) (decoder : TextDecoder)
| Returned.

(** What the awaited promise settles with. *)
Inductive Settle :=
| Response (status : Z) (has_body : bool)
| Chunk (value : bytes)
| EndOfStream
| Rejected (err : exn).

Definition HTTP_error (status : Z) : exn :=
  {| exn_name := js "Error"; exn_message := js "HTTP " ++ decimal status |}.

(** One turn of the [while] loop on a chunk. *)
Definition on_chunk (sseBuffer : jsstr) (decoder : TextDecoder)
    (prev : AnalysisState) (value : bytes) : Phase * AnalysisState :=
  let '(decoder', text) := TextDecoder_decode_stream decoder value in
  let '(parts, last) := pop (split [LF; LF] (sseBuffer ++ text)) in
  match on_parts prev parts with
  | (st, None) => (Reading (nullish last []) decoder', st)
  | (st, Some e) => (Returned, on_catch st e)
  end.

(** The continuation of a call of [analyze] whose signal is not
    aborted. *)
Definition resume (ph : Phase) (prev : AnalysisState) (s : Settle)
  : Phase * AnalysisState :=
  match ph, s with
  | Fetching _ _, Response status has_body =>
      if Utf8.in_range 200 299 status && has_body
      then (Reading [] TextDecoder_new, prev)
      else (Returned, on_catch prev (HTTP_error status))
  | Fetching _ _, Rejected e => (Returned, on_catch prev e)
  | Reading sseBuffer decoder, Chunk value =>
      on_chunk sseBuffer decoder prev value
  | Reading _ _, EndOfStream => (Returned, prev)
  | Reading _ _, Rejected e => (Returned, on_catch prev e)
  | _, _ => (ph, prev)
  end.

(** The hook: its state, [abortRef.current], the controllers aborted so
    far, and the calls of [analyze], each known by the number of the
    controller it made. *)
Record Hook := {
  state : AnalysisState;
  abortRef : option nat;
  aborted : gset nat;
  calls : gmap nat Phase;
  fresh : nat
}.

Definition mount : Hook :=
  {| state := INITIAL_STATE; abortRef := None; aborted := ∅;
     calls := ∅; fresh := 0 |}.

(** [if (abortRef.current) abortRef.current.abort()]. *)
Definition abort_current (h : Hook) : gset nat :=
  match abortRef h with
  | Some c => {[c]} ∪ aborted h
  | None => aborted h
  end.

Inductive Input :=
| Analyze (url : jsstr) (maxPages : Z)
| Reset
| Settles (call : nat) (s : Settle).

(** Once a signal is aborted, what its call awaits rejects with an
    AbortError. *)
Definition delivered (h : Hook) (call : nat) (s : Settle) : Settle :=
  if bool_decide (call ∈ aborted h) then Rejected AbortError else s.

Definition step (h : Hook) (i : Input) : Hook :=
  match i with
  | Analyze url maxPages =>
      {| state := STARTING;
         abortRef := Some (fresh h);
         aborted := abort_current h;
         calls := <[fresh h := Fetching url maxPages]> (calls h);
         fresh := S (fresh h) |}
  | Reset =>
      {| state := INITIAL_STATE;
         abortRef := abortRef h;
         aborted := abort_current h;
         calls := calls h;
         fresh := fresh h |}
  | Settles call s =>
      match calls h !! call with
      | None => h
      | Some ph =>
          let '(ph', st) := resume ph (state h) (delivered h call s) in
          {| state := st;
             abortRef := abortRef h;
             aborted := aborted h;
             calls := <[call := ph']> (calls h);
             fresh := fresh h |}
      end
  end.

Definition steps (h : Hook) (inputs : list Input) : Hook :=
  fold_left step inputs h.

End Hook.

(** ** Vocabulary of the statements *)

(** No occurrence of the separator starts inside [x], read before [t]. *)
Definition no_match (sep x t : jsstr) : Prop :=
  forall a b, x = a ++ b -> b <> [] -> startsWith sep (b ++ t) = false.

(** The complete segments of a buffer and what is left after them: the
    [parts] and the new buffer of one decode step. *)
Definition frames (sep s : jsstr) : list jsstr := fst (pop (split sep s)).
Definition leftover (sep s : jsstr) : jsstr :=
  nullish (snd (pop (split sep s))) [].

(** Every byte is below 128. *)
Definition ascii_bytes (bs : bytes) : Prop := Forall (fun b => 0 <= b < 128) bs.

(** A supervisor with another buffer. *)
Definition set_buffer (s : Route.Supervisor) (b : jsstr) : Route.Supervisor :=
  {| Route.buffer := b; Route.controller := Route.controller s;
     Route.parse_calls := Route.parse_calls s;
     Route.uncaught := Route.uncaught s |}.

(** A call of [analyze] fed the chunks of its response body in turn. *)
Definition read_chunks (ph : Hook.Phase) (prev : Hook.AnalysisState)
    (chunks : list bytes) : Hook.Phase * Hook.AnalysisState :=
  fold_left (fun acc value => Hook.resume (fst acc) (snd acc) (Hook.Chunk value))
    chunks (ph, prev).

(** A text of the source in which ['] stands for the double quote. *)
Definition jq (s : string) : jsstr :=
  map (fun c => if c =? 39 then 34 else c) (js s).

(** The worker prints one progress record whose stage holds U+00E9, two
    bytes in UTF-8, and the pipe delivers it in two chunks cut between
    those bytes. *)
Definition cut_chunk_1 : bytes := jq "{'type':'progress','stage':'" ++ [0xC3].
Definition cut_chunk_2 : bytes := [0xA9] ++ jq "'}" ++ [LF].

(** In a Loading state no error is recorded. *)
Definition loading_clean (st : Hook.AnalysisState) : Prop :=
  Hook.status st = Hook.Loading -> Hook.error st = None.

(** The event a part delivers, if it delivers one. *)
Definition part_event (part : jsstr) : option Json.value :=
  match Hook.payload part with
  | Some raw => Json.parse raw
  | None => None
  end.

(** The event makes the reducer take the result branch, the error
    branch. *)
Definition is_result (event : Json.value) : bool :=
  Hook.is_text (prop event (js "type")) "result"
  && truthy (prop event (js "data")).

Definition is_error (event : Json.value) : bool :=
  Hook.is_text (prop event (js "type")) "error".

Definition carries (p : Json.value -> bool) (part : jsstr) : bool :=
  match part_event part with
  | Some event => p event
  | None => false
  end.

(** A chunk's parts applied, and the [catch] block if one throws. *)
Definition apply_parts (prev : Hook.AnalysisState) (parts : list jsstr)
  : Hook.AnalysisState :=
  match Hook.on_parts prev parts with
  | (st, None) => st
  | (st, Some e) => Hook.on_catch st e
  end.

(** The numbering of controllers is consistent, and every call but the
    one [abortRef] points at has its signal aborted. *)
Record consistent (h : Hook.Hook) : Prop := {
  aborted_old : forall j, j ∈ Hook.aborted h -> (j < Hook.fresh h)%nat;
  current_old : forall c, Hook.abortRef h = Some c -> (c < Hook.fresh h)%nat;
  stale_aborted : forall j, is_Some (Hook.calls h !! j) ->
                            Hook.abortRef h <> Some j -> j ∈ Hook.aborted h
}.

(** [call] is the one call whose signal is not aborted. *)
Record live (h : Hook.Hook) (call : nat) : Prop := {
  live_current : Hook.abortRef h = Some call;
  live_signal : call ∉ Hook.aborted h;
  live_alone : forall j, is_Some (Hook.calls h !! j) -> j <> call ->
                         j ∈ Hook.aborted h
}.

(** What settles for one call, among the inputs of the hook. *)
Fixpoint own (call : nat) (inputs : list Hook.Input) : list Hook.Settle :=
  match inputs with
  | [] => []
  | Hook.Settles c s :: inputs' =>
      if bool_decide (c = call) then s :: own call inputs' else own call inputs'
  | _ :: inputs' => own call inputs'
  end.

(** No call of [analyze] or [reset] among the inputs. *)
Definition settles_only (inputs : list Hook.Input) : Prop :=
  Forall (fun i => match i with Hook.Settles _ _ => True | _ => False end) inputs.

(** One call of [analyze] run alone on what settles for it. *)
Definition alone (ph : Hook.Phase) (prev : Hook.AnalysisState)
    (ss : list Hook.Settle) : Hook.Phase * Hook.AnalysisState :=
  fold_left (fun acc s => Hook.resume (fst acc) (snd acc) s) ss (ph, prev).

(** The worker only writes to its output and diagnostic channels. *)
Definition output_only (evs : list Route.ChildEvent) : Prop :=
  Forall (fun ev => match ev with
                    | Route.StdoutData _ | Route.StderrData _ => True
                    | _ => False
                    end) evs.

(** The parts a call of [analyze] has cut out of the chunks it read, from
    the buffer and the decoder it had. *)
Definition job_parts (buf : jsstr) (d : TextDecoder) (chunks : list bytes)
  : list jsstr :=
  frames [LF; LF] (buf ++ snd (TextDecoder_decode_stream d (concat chunks))).

(** What a read settles with when it gives no chunk; and such a settle
    that is no failure either: a rejection by an AbortError at most. *)
Definition no_chunk (s : Hook.Settle) : Prop :=
  match s with Hook.Chunk _ => False | _ => True end.

Definition quiet (s : Hook.Settle) : Prop :=
  match s with
  | Hook.Chunk _ => False
  | Hook.Rejected e => exn_name e = js "AbortError"
  | _ => True
  end.

(** ** The form and the progress display: the callers of the hook *)

Module Page.

(** [handleSubmit] of UrlInputForm: the message it shows, or the call of
    [onAnalyze] it makes. *)
Inductive Submitted :=
| ShowError (message : jsstr)
| CallAnalyze (url : jsstr) (maxPages : Z).

Definition handleSubmit (url : jsstr) (maxPages : Z) : Submitted :=
  let trimmed := trim url in
  if bool_decide (trimmed = []) then ShowError (js "Please enter a URL")
  else CallAnalyze trimmed maxPages.

(** The body [analyze] sends, [JSON.stringify({ url, maxPages })], as the
    gateway reads it with [request.json()]. *)
Definition request_body (url : jsstr) (maxPages : Z) : Json.value :=
  Json.Obj [(js "url", Json.Str url); (js "maxPages", Json.Num maxPages 0)].

(** ToBoolean of what a label can be. *)
Definition shown (v : Hook.jsval) : bool :=
  match v with
  | Hook.Val j => Json.truthy j
  | Hook.ProtoMember _ => true
  end.

Definition TOTAL_STAGES : Z := 9.

(** [Math.min(100, Math.round((steps.length / TOTAL_STAGES) * 100))].
    The quotient 100 n / 9 is never half way between two integers (200 n
    is even, 9 (2 k + 1) is odd) and stays at least 1/18 away from it, far
    more than the rounding error of the two double operations on a length
    below 2^32; so [Math.round] gives the nearest integer, which is
    [(200 n + 9) / 18] rounded down. *)
Definition progress (steps : nat) : Z :=
  Z.min 100 ((200 * Z.of_nat steps + 9) / 18).

(** ProgressStream: the value of the bar and whether the line of the
    stage under way is drawn. *)
Definition current_line (steps : list Hook.ProgressStep)
    (currentStage : Hook.jsval) : bool :=
  shown currentStage && (Z.of_nat (length steps) <? TOTAL_STAGES).

End Page.

(** ** The result components *)

Module Results.

Inductive Severity := CRITICAL | WARNING | INFO | PASS.
Inductive Level := LOW | MEDIUM | HIGH.
Inductive Layer := TRADITIONAL | AI | BOTH.

Record Finding := {
  category : jsstr;
  severity : Severity;
  layer : Layer;
  title : jsstr;
  detail : jsstr;
  action : jsstr;
  effort : Level;
  impact : Level
}.

Definition urgent (f : Finding) : bool :=
  match severity f with
  | CRITICAL | WARNING => true
  | _ => false
  end.

(** QuickWins: the cards drawn. *)
Definition QuickWins (findings : list Finding) : list Finding :=
  firstn 8
    (List.filter (fun f => match effort f with LOW => urgent f | _ => false end)
       findings).

Definition IMPACT_ORDER (l : Level) : Z :=
  match l with HIGH => 0 | MEDIUM => 1 | LOW => 2 end.

Definition EFFORT_ORDER (l : Level) : Z :=
  match l with LOW => 0 | MEDIUM => 1 | HIGH => 2 end.

(** The comparator of PriorityMatrix. *)
Definition compare_priority (a b : Finding) : Z :=
  let impactDiff := IMPACT_ORDER (impact a) - IMPACT_ORDER (impact b) in
  if negb (impactDiff =? 0) then impactDiff
  else
    let effortDiff := EFFORT_ORDER (effort a) - EFFORT_ORDER (effort b) in
    if negb (effortDiff =? 0) then effortDiff else 0.

(** [l.sort(compare)]: the sort is stable, so with a comparator that
    orders by a rank its result is the one an insertion sort gives that
    puts an element before the first one it does not come after. *)
Fixpoint insert_by {A} (compare : A -> A -> Z) (x : A) (l : list A) : list A :=
  match l with
  | [] => [x]
  | y :: l' =>
      if compare x y <=? 0 then x :: y :: l' else y :: insert_by compare x l'
  end.

Definition sort_by {A} (compare : A -> A -> Z) (l : list A) : list A :=
  fold_right (insert_by compare) [] l.

(** PriorityMatrix: the rows drawn. *)
Definition PriorityMatrix (findings : list Finding) : list Finding :=
  firstn 20 (sort_by compare_priority (List.filter urgent findings)).

Definition ELLIPSIS : Z := 0x2026.

(** The title of a row of PriorityMatrix. *)
Definition row_title (t : jsstr) : jsstr :=
  if (60 <? length t)%nat then firstn 58 t ++ [ELLIPSIS] else t.

(** [s.replace(pattern, empty)] for a string pattern: its first occurrence
    is removed. *)
Fixpoint remove_first (pattern s : jsstr) : jsstr :=
  if startsWith pattern s then skipn (length pattern) s
  else match s with
       | [] => []
       | c :: s' => c :: remove_first pattern s'
       end.

(** [shortUrl] of PageSnapshotTable. *)
Definition shortUrl (baseUrl url : jsstr) : jsstr :=
  let path := match remove_first baseUrl url with
              | [] => js "/"
              | p => p
              end in
  if (40 <? length path)%nat then firstn 38 path ++ [ELLIPSIS] else path.

End Results.

(** ** The scheduled job: the route that checks for new posts, and the
    route that lists the updates *)

Module Cron.

Record Post := { url : jsstr; lastmod : jsstr }.

Record Update := {
  postUrl : jsstr;
  postTitle : jsstr;
  postDate : jsstr;
  insights : list Json.value;
  detectedAt : jsstr
}.

(** The two keys of the store: [metehan:last_post_url] and the list
    [metehan:updates]. *)
Record Store := {
  last_post_url : option jsstr;
  updates : list Update
}.

(** What the job gets from outside: the posts [fetchSitemap] returns,
    newest first; the title and content [fetchPostContent] returns for a
    url; the text of the first block of the model's reply, if it is a text
    block; the time at which a post is handled.  And the calls of the store
    that reject: [redis.get]; the [redis.lpush] of the update made for the
    post of a given rank in the loop; [redis.ltrim]; [redis.set].  A
    command that rejects may have taken effect in the store or not, which
    its flag tells. *)
Record World := {
  sitemap : list Post + exn;
  page : jsstr -> (jsstr * jsstr) + exn;
  reply : jsstr -> jsstr -> option jsstr + exn;
  clock : jsstr -> jsstr;
  get_fault : option exn;
  lpush_fault : nat -> option (exn * bool);
  ltrim_fault : option (exn * bool);
  set_fault : option (exn * bool)
}.

(** The rest of a text from the first [c] on. *)
Fixpoint from_first (c : Z) (s : jsstr) : jsstr :=
  match s with
  | [] => []
  | x :: s' => if x =? c then s else from_first c s'
  end.

(** [text.match(/\[[\s\S]*\]/)?.[0]]: from the first opening bracket to
    the last closing one after it. *)
Definition bracketed (text : jsstr) : option jsstr :=
  match rev (from_first 93 (rev (from_first 91 text))) with
  | [] => None
  | m => Some m
  end.

(** The [try] block of [extractInsights], on the trimmed text. *)
Definition insights_of (text : jsstr) : list Json.value :=
  match Json.parse (nullish (bracketed text) (js "[]")) with
  | Some (Json.Arr items) => firstn 4 items
  | _ => []
  end.

Definition extractInsights (block : option jsstr) : list Json.value :=
  insights_of (match block with Some t => trim t | None => [] end).

(** [redis.lpush], [redis.ltrim(key, 0, 9)], [redis.set]. *)
Definition lpush (st : Store) (u : Update) : Store :=
  {| last_post_url := last_post_url st; updates := u :: updates st |}.

Definition ltrim (st : Store) : Store :=
  {| last_post_url := last_post_url st; updates := firstn 10 (updates st) |}.

Definition set_last (st : Store) (u : jsstr) : Store :=
  {| last_post_url := Some u; updates := updates st |}.

(** [posts.findIndex((p) => p.url === lastSeenUrl)]; [None] is -1. *)
Fixpoint findIndex (lastSeenUrl : option jsstr) (posts : list Post) : option nat :=
  match posts with
  | [] => None
  | p :: posts' =>
      if bool_decide (Some (url p) = lastSeenUrl) then Some O
      else match findIndex lastSeenUrl posts' with
           | Some i => Some (S i)
           | None => None
           end
  end.

(** The [for] loop, from the post of rank [i] on: the store and the
    updates made, or the store as the exception leaves it. *)
Fixpoint process (w : World) (posts : list Post) (st : Store)
    (processed : list Update) (i : nat)
  : (Store * list Update) + (Store * exn) :=
  match posts with
  | [] => inl (st, processed)
  | post :: posts' =>
      match page w (url post) with
      | inr e => inr (st, e)
      | inl (title, content) =>
          match reply w title content with
          | inr e => inr (st, e)
          | inl block =>
              let update :=
                {| postUrl := url post; postTitle := title;
                   postDate := lastmod post;
                   insights := extractInsights block;
                   detectedAt := clock w (url post) |} in
              match lpush_fault w i with
              | Some (e, took_effect) =>
                  inr (if took_effect then lpush st update else st, e)
              | None =>
                  process w posts' (lpush st update) (processed ++ [update])
                    (S i)
              end
          end
      end
  end.

Inductive Reply :=
| Unauthorized
| NoPostsFound
| NoNewPosts (latest : jsstr)
| Processed (processed : list Update)
| Failed (error : jsstr).

(** [String(e)] for an Error. *)
Definition String_error (e : exn) : jsstr :=
  match exn_name e, exn_message e with
  | n, [] => n
  | [], m => m
  | n, m => n ++ js ": " ++ m
  end.

(** [GET] of the job, with [process.env.CRON_SECRET] and the
    authorization header of the request.  Every call of the store is
    awaited inside the [try] block: one that rejects is answered 500. *)
Definition GET (CRON_SECRET authorization : option jsstr) (w : World)
    (st : Store) : Reply * Store :=
  let refused :=
    match CRON_SECRET with
    | Some (c :: secret) =>
        negb (bool_decide (authorization = Some (js "Bearer " ++ c :: secret)))
    | _ => false
    end in
  if refused then (Unauthorized, st)
  else
    match sitemap w with
    | inr e => (Failed (String_error e), st)
    | inl [] => (NoPostsFound, st)
    | inl (latestPost :: rest) =>
        let posts := latestPost :: rest in
        match get_fault w with
        | Some e => (Failed (String_error e), st)
        | None =>
            let lastSeenUrl := last_post_url st in
            if bool_decide (lastSeenUrl = Some (url latestPost))
            then (NoNewPosts (url latestPost), st)
            else
              let newPosts :=
                match findIndex lastSeenUrl posts with
                | None => [latestPost]
                | Some i => firstn i posts
                end in
              match process w (firstn 3 newPosts) st [] 0 with
              | inr (st', e) => (Failed (String_error e), st')
              | inl (st', processed) =>
                  match ltrim_fault w with
                  | Some (e, took_effect) =>
                      (Failed (String_error e),
                       if took_effect then ltrim st' else st')
                  | None =>
                      match set_fault w with
                      | Some (e, took_effect) =>
                          (Failed (String_error e),
                           if took_effect
                           then set_last (ltrim st') (url latestPost)
                           else ltrim st')
                      | None =>
                          (Processed processed,
                           set_last (ltrim st') (url latestPost))
                      end
                  end
              end
        end
    end.

(** [GET] of the route that lists the updates; [None] is a store that
    cannot be reached. *)
Definition GET_updates (st : option Store) : list Update :=
  match st with
  | Some s => firstn 5 (updates s)
  | None => []
  end.

End Cron.

(** ** Vocabulary of the further statements *)

(** The events applied in turn, up to the first that makes the reducer
    throw. *)
Fixpoint apply_events (prev : Hook.AnalysisState) (events : list Json.value)
  : Hook.AnalysisState * option exn :=
  match events with
  | [] => (prev, None)
  | event :: events' =>
      match Hook.apply_event prev event with
      | inl st => apply_events st events'
      | inr e => (prev, Some e)
      end
  end.

(** The events applied in turn, and the [catch] block if one throws. *)
Definition apply_all (prev : Hook.AnalysisState) (events : list Json.value)
  : Hook.AnalysisState :=
  match apply_events prev events with
  | (st, None) => st
  | (st, Some e) => Hook.on_catch st e
  end.

(** The values the texts parse to, in order; a text that does not parse
    gives none. *)
Definition decoded (texts : list jsstr) : list Json.value :=
  flat_map (fun t => match Json.parse t with Some v => [v] | None => [] end)
    texts.

Definition parses (t : jsstr) : bool :=
  match Json.parse t with Some _ => true | None => false end.

(** The records among the lines of the worker: the trimmed lines that
    parse. *)
Definition records (lines : list jsstr) : list jsstr :=
  List.filter parses (map trim lines).

(** The text the worker prints for its lines. *)
Definition printed (lines : list jsstr) : jsstr :=
  concat (map (fun l => l ++ [LF]) lines).

(** The bytes the worker wrote to its standard output. *)
Definition stdout_of (evs : list Route.ChildEvent) : bytes :=
  flat_map (fun ev => match ev with
                      | Route.StdoutData chunk => chunk
                      | _ => []
                      end) evs.

(** What a chunk of the outbound stream can be: the frame of a trimmed,
    non-empty text that parses as JSON; the sentinel; the frame of an error
    event. *)
Definition forwarded (chunk : bytes) : Prop :=
  exists t, chunk = TextEncoder_encode (Route.frame t)
            /\ trim t = t /\ t <> [] /\ parses t = true.

Definition wire_chunk (chunk : bytes) : Prop :=
  forwarded chunk
  \/ chunk = TextEncoder_encode Route.DONE
  \/ exists message,
       chunk = TextEncoder_encode (Route.frame (Route.error_event message)).

(** Code units, and a text free of line feeds. *)
Definition code_units (s : jsstr) : Prop := Forall (fun c => 0 <= c < 0x10000) s.
Definition one_line (s : jsstr) : Prop := Forall (fun c => c <> LF) s.

(** A state has the fields its status goes with. *)
Definition coherent (st : Hook.AnalysisState) : Prop :=
  match Hook.status st with
  | Hook.Idle => st = Hook.INITIAL_STATE
  | Hook.Loading => Hook.result st = None /\ Hook.error st = None
  | Hook.Complete => truthy (Hook.result st) = true
  | Hook.Error => Hook.error st <> None
  end.

(** [a] is the start of [b]. *)
Definition starts {A} (a b : list A) : Prop := exists c, b = a ++ c.

(** Every call of [analyze] made so far has its signal aborted. *)
Definition all_aborted (h : Hook.Hook) : Prop :=
  forall j, is_Some (Hook.calls h !! j) -> j ∈ Hook.aborted h.

(** The rank PriorityMatrix sorts by. *)
Definition priority_le (a b : Results.Finding) : Prop :=
  Results.compare_priority a b <= 0.

(** * Properties *)

Arguments Json.parse : simpl never.
Arguments TextEncoder_encode : simpl never.
Arguments TextDecoder_decode_stream : simpl never.
Arguments Buffer_toString : simpl never.
Arguments trim : simpl never.
Arguments split : simpl never.
Arguments js : simpl never.
Arguments jq : simpl never.
Arguments decimal : simpl never.

(** ** Splitting and chunking *)

Lemma pop_snoc {A} (l : list A) (x : A) : pop (l ++ [x]) = (l, Some x).
Proof.
  unfold pop. rewrite rev_app_distr. simpl. now rewrite rev_involutive.
Qed.

Lemma pop_singleton {A} (x : A) : pop [x] = ([], Some x).
Proof. reflexivity. Qed.

Lemma pop_cons {A} (a : A) (l : list A) :
  l <> [] -> pop (a :: l) = (a :: fst (pop l), snd (pop l)).
Proof.
  intros Hl. destruct (exists_last Hl) as [l' [x ->]].
  change (a :: l' ++ [x]) with ((a :: l') ++ [x]).
  now rewrite !pop_snoc.
Qed.

Lemma startsWith_app (p t : jsstr) : startsWith p (p ++ t) = true.
Proof.
  induction p as [|a p IH]; simpl; [reflexivity|].
  now rewrite Z.eqb_refl, IH.
Qed.

Lemma startsWith_inv (p s : jsstr) :
  startsWith p s = true -> exists t, s = p ++ t.
Proof.
  revert s. induction p as [|a p IH]; intros s H.
  - now exists s.
  - destruct s as [|b s]; simpl in H; [discriminate|].
    apply andb_true_iff in H as [Hab Hps].
    apply Z.eqb_eq in Hab. subst b.
    destruct (IH _ Hps) as [t ->]. now exists t.
Qed.

Lemma startsWith_short (p s : jsstr) :
  (length s < length p)%nat -> startsWith p s = false.
Proof.
  revert s. induction p as [|a p IH]; intros s H; simpl in H; [lia|].
  destruct s as [|b s]; simpl; [reflexivity|].
  simpl in H. rewrite IH by lia. apply andb_false_r.
Qed.

Lemma startsWith_app_long (p s c : jsstr) :
  (length p <= length s)%nat -> startsWith p (s ++ c) = startsWith p s.
Proof.
  revert s. induction p as [|a p IH]; intros s H; [reflexivity|].
  destruct s as [|b s]; simpl in H; [lia|].
  simpl. rewrite IH by lia. reflexivity.
Qed.

Lemma startsWith_app_r (p s c : jsstr) :
  startsWith p s = true -> startsWith p (s ++ c) = true.
Proof.
  intros H. destruct (startsWith_inv _ _ H) as [t ->].
  rewrite <- app_assoc. apply startsWith_app.
Qed.

Section Split.

Variable sep : jsstr.
Hypothesis sep_nonempty : sep <> [].

Lemma split_from_cons (cur : jsstr) (c : Z) (s : jsstr) :
  split_from sep O cur (c :: s) =
    if startsWith sep (c :: s)
    then rev cur :: split_from sep (length sep - 1)%nat [] s
    else split_from sep O (c :: cur) s.
Proof. reflexivity. Qed.

Lemma split_from_skip (cur p t : jsstr) :
  split_from sep (length p) cur (p ++ t) = split_from sep O cur t.
Proof.
  induction p as [|a p IH]; simpl.
  - now destruct t.
  - exact IH.
Qed.

Lemma split_from_match (cur t : jsstr) :
  split_from sep O cur (sep ++ t) = rev cur :: split_from sep O [] t.
Proof.
  pose proof (startsWith_app sep t) as Hp.
  destruct sep as [|a sep'] eqn:E; [congruence|].
  change ((a :: sep') ++ t) with (a :: (sep' ++ t)) in *.
  rewrite <- E, split_from_cons. rewrite E at 1. rewrite Hp.
  f_equal. replace (length sep - 1)%nat with (length sep')
    by (rewrite E; simpl; lia).
  apply split_from_skip.
Qed.

Lemma split_from_nonempty (k : nat) (cur s : jsstr) :
  split_from sep k cur s <> [].
Proof.
  revert k cur. induction s as [|c s IH]; intros k cur; simpl; [discriminate|].
  destruct k; [|apply IH].
  destruct (startsWith sep (c :: s)); [discriminate | apply IH].
Qed.

Lemma split_from_short (cur s : jsstr) :
  (length s < length sep)%nat -> split_from sep O cur s = [rev cur ++ s].
Proof.
  revert cur. induction s as [|c s IH]; intros cur H.
  - simpl. now rewrite app_nil_r.
  - rewrite split_from_cons, startsWith_short by exact H.
    rewrite IH by (simpl in H; lia). simpl. now rewrite <- app_assoc.
Qed.

Lemma no_match_nil (t : jsstr) : no_match sep [] t.
Proof.
  intros a b H Hb. symmetry in H. apply app_eq_nil in H as [_ ->].
  congruence.
Qed.

Lemma no_match_snoc (x : jsstr) (c : Z) (t : jsstr) :
  no_match sep x (c :: t) -> startsWith sep (c :: t) = false ->
  no_match sep (x ++ [c]) t.
Proof.
  intros Hx Hc a b E Hb.
  destruct (exists_last Hb) as [b' [d ->]].
  rewrite app_assoc in E. apply app_inj_tail in E as [-> ->].
  rewrite <- app_assoc. simpl.
  destruct b' as [|e b']; [exact Hc|].
  apply (Hx a (e :: b')); [reflexivity | discriminate].
Qed.

(** A segment under way that holds no separator can be read again from
    its start. *)
Lemma split_from_again (x t acc : jsstr) :
  no_match sep x t ->
  split_from sep O acc (x ++ t) = split_from sep O (rev x ++ acc) t.
Proof.
  revert acc. induction x as [|c x IH]; intros acc Hx; [reflexivity|].
  change ((c :: x) ++ t) with (c :: (x ++ t)).
  rewrite split_from_cons.
  assert (H0 : startsWith sep ((c :: x) ++ t) = false)
    by (apply (Hx [] (c :: x)); [reflexivity | discriminate]).
  change ((c :: x) ++ t) with (c :: (x ++ t)) in H0. rewrite H0.
  rewrite IH.
  - simpl. now rewrite <- app_assoc.
  - intros a b E Hb. apply (Hx (c :: a) b); [now rewrite E | exact Hb].
Qed.

Lemma split_from_app_nil (x c : jsstr) :
  no_match sep x c ->
  split_from sep O (rev x) ([] ++ c) =
    fst (pop (split_from sep O (rev x) [])) ++
    split sep (nullish (snd (pop (split_from sep O (rev x) []))) [] ++ c).
Proof.
  intros Hx. cbn [split_from]. rewrite rev_involutive, pop_singleton.
  cbn [fst snd nullish app]. unfold split.
  rewrite split_from_again by exact Hx. now rewrite app_nil_r.
Qed.

Lemma split_from_app (n : nat) :
  forall s x c, (length s <= n)%nat -> no_match sep x (s ++ c) ->
    split_from sep O (rev x) (s ++ c) =
      fst (pop (split_from sep O (rev x) s)) ++
      split sep (nullish (snd (pop (split_from sep O (rev x) s))) [] ++ c).
Proof.
  induction n as [|n IH]; intros s x c Hn Hx.
  - destruct s; [|simpl in Hn; lia].
    now apply split_from_app_nil.
  - destruct s as [|d s].
    { now apply split_from_app_nil. }
    destruct (startsWith sep ((d :: s) ++ c)) eqn:Hm.
    + destruct (startsWith sep (d :: s)) eqn:Hs.
      * destruct (startsWith_inv _ _ Hs) as [t Et]. rewrite Et.
        rewrite <- app_assoc, !split_from_match, rev_involutive.
        rewrite pop_cons by apply split_from_nonempty. simpl.
        f_equal.
        assert (Hlen : (length t <= n)%nat).
        { assert (L : length (d :: s) = length (sep ++ t)) by now rewrite Et.
          rewrite length_app in L. simpl in L.
          destruct sep; [congruence | simpl in L; simpl in Hn; lia]. }
        apply (IH t [] c Hlen), no_match_nil.
      * assert (Hlen : (length (d :: s) < length sep)%nat).
        { destruct (Nat.le_gt_cases (length sep) (length (d :: s))) as [L|L];
            [|exact L].
          rewrite startsWith_app_long in Hm by exact L. congruence. }
        rewrite (split_from_short (rev x) (d :: s)) by exact Hlen.
        rewrite rev_involutive, pop_singleton.
        cbn [fst snd nullish app]. unfold split.
        rewrite <- app_assoc, split_from_again by exact Hx.
        now rewrite app_nil_r.
    + assert (Hs : startsWith sep (d :: s) = false).
      { destruct (startsWith sep (d :: s)) eqn:Hs; [|reflexivity].
        apply startsWith_app_r with (c := c) in Hs. congruence. }
      change ((d :: s) ++ c) with (d :: (s ++ c)) in *.
      rewrite !split_from_cons, Hm, Hs.
      change (d :: rev x) with (rev [d] ++ rev x).
      rewrite <- rev_app_distr.
      apply IH; [simpl in Hn; lia|].
      now apply no_match_snoc.
Qed.

Lemma split_frames_leftover (s : jsstr) :
  split sep s = frames sep s ++ [leftover sep s].
Proof.
  unfold frames, leftover.
  destruct (exists_last (split_from_nonempty O [] s)) as [l [x E]].
  unfold split. rewrite E, pop_snoc. reflexivity.
Qed.

Lemma split_app (s c : jsstr) :
  split sep (s ++ c) = frames sep s ++ split sep (leftover sep s ++ c).
Proof.
  unfold split at 1. change (@nil Z) with (rev (@nil Z)) at 1.
  rewrite (split_from_app (length s)) by (auto using no_match_nil).
  reflexivity.
Qed.

Lemma frames_app (s c : jsstr) :
  frames sep (s ++ c) = frames sep s ++ frames sep (leftover sep s ++ c).
Proof.
  unfold frames at 1. rewrite split_app.
  rewrite (split_frames_leftover (leftover sep s ++ c)), app_assoc, pop_snoc.
  reflexivity.
Qed.

Lemma leftover_app (s c : jsstr) :
  leftover sep (s ++ c) = leftover sep (leftover sep s ++ c).
Proof.
  unfold leftover at 1. rewrite split_app.
  rewrite (split_frames_leftover (leftover sep s ++ c)), app_assoc, pop_snoc.
  reflexivity.
Qed.

End Split.

(** ** The worker-output decoder of the gateway *)

Lemma on_line_set_buffer (s : Route.Supervisor) (b line : jsstr) :
  Route.on_line (set_buffer s b) line = set_buffer (Route.on_line s line) b.
Proof.
  unfold Route.on_line, Route.try_forward, set_buffer. simpl.
  destruct (bool_decide (trim line = [])); [reflexivity|].
  destruct (Json.parse (trim line)); [|reflexivity].
  destruct (Route.enqueue _ _); reflexivity.
Qed.

Lemma on_lines_set_buffer (lines : list jsstr) (s : Route.Supervisor) (b : jsstr) :
  fold_left Route.on_line lines (set_buffer s b) =
    set_buffer (fold_left Route.on_line lines s) b.
Proof.
  revert s. induction lines as [|l lines IH]; intros s; simpl; [reflexivity|].
  now rewrite on_line_set_buffer, IH.
Qed.

Lemma on_text_frames (s : Route.Supervisor) (text : jsstr) :
  Route.on_text s text =
    set_buffer (fold_left Route.on_line (frames [LF] (Route.buffer s ++ text)) s)
      (leftover [LF] (Route.buffer s ++ text)).
Proof.
  unfold Route.on_text, frames, leftover.
  destruct (pop (split [LF] (Route.buffer s ++ text))) as [lines last].
  simpl. rewrite <- on_lines_set_buffer. reflexivity.
Qed.

Lemma set_buffer_twice (s : Route.Supervisor) (a b : jsstr) :
  set_buffer (set_buffer s a) b = set_buffer s b.
Proof. reflexivity. Qed.

(** Two chunks of text read in turn are read as their concatenation. *)
Lemma on_text_app (s : Route.Supervisor) (t1 t2 : jsstr) :
  Route.on_text (Route.on_text s t1) t2 = Route.on_text s (t1 ++ t2).
Proof.
  rewrite (on_text_frames s t1).
  rewrite (on_text_frames (set_buffer _ _) t2).
  rewrite (on_text_frames s (t1 ++ t2)).
  cbn [set_buffer Route.buffer].
  rewrite on_lines_set_buffer, set_buffer_twice.
  rewrite app_assoc.
  rewrite (frames_app [LF] ltac:(discriminate) (Route.buffer s ++ t1) t2).
  rewrite (leftover_app [LF] ltac:(discriminate) (Route.buffer s ++ t1) t2).
  now rewrite fold_left_app.
Qed.

Lemma on_texts (ts : list jsstr) (s : Route.Supervisor) (t : jsstr) :
  fold_left Route.on_text ts (Route.on_text s t) =
    Route.on_text s (t ++ concat ts).
Proof.
  revert s t. induction ts as [|t' ts IH]; intros s t; simpl.
  - now rewrite app_nil_r.
  - now rewrite on_text_app, IH, app_assoc.
Qed.

(** The chunks of the worker's output, each through [toString], are read
    as the concatenation of their texts. *)
Lemma on_stdout_chunks (chunk : bytes) (chunks : list bytes) (s : Route.Supervisor) :
  fold_left Route.on_stdout_data (chunk :: chunks) s =
    Route.on_text s (concat (map Buffer_toString (chunk :: chunks))).
Proof.
  simpl. unfold Route.on_stdout_data at 2.
  rewrite <- on_texts. generalize (Route.on_text s (Buffer_toString chunk)).
  induction chunks as [|c cs IH]; intros s'; simpl; [reflexivity|].
  apply IH.
Qed.

(** ** UTF-8 *)

Lemma run_app (st : Utf8.state) (a b : bytes) :
  Utf8.run st (a ++ b) =
    (fst (Utf8.run (fst (Utf8.run st a)) b),
     snd (Utf8.run st a) ++ snd (Utf8.run (fst (Utf8.run st a)) b)).
Proof.
  revert st. induction a as [|x a IH]; intros st; simpl.
  - now destruct (Utf8.run st b).
  - destruct (Utf8.handler st x) as [st1 out1]. rewrite IH.
    destruct (Utf8.run st1 a) as [st2 out2]. simpl.
    destruct (Utf8.run st2 b) as [st3 out3]. simpl.
    now rewrite app_assoc.
Qed.

Lemma utf16s_app (a b : list Z) :
  Utf8.utf16s (a ++ b) = Utf8.utf16s a ++ Utf8.utf16s b.
Proof. unfold Utf8.utf16s. now rewrite map_app, concat_app. Qed.

Lemma strip_bom_true (b : list Z) : strip_bom true b = (true, b).
Proof. now destruct b. Qed.

Lemma strip_bom_app (seen : bool) (a b : list Z) :
  strip_bom seen (a ++ b) =
    (fst (strip_bom (fst (strip_bom seen a)) b),
     snd (strip_bom seen a) ++ snd (strip_bom (fst (strip_bom seen a)) b)).
Proof.
  destruct a as [|x a]; simpl.
  - now destruct (strip_bom seen b).
  - destruct seen; simpl; [now rewrite strip_bom_true|].
    destruct (x =? 0xFEFF); simpl; now rewrite strip_bom_true.
Qed.

Lemma decode_stream_app (d : TextDecoder) (a b : bytes) :
  TextDecoder_decode_stream d (a ++ b) =
    (fst (TextDecoder_decode_stream (fst (TextDecoder_decode_stream d a)) b),
     snd (TextDecoder_decode_stream d a) ++
     snd (TextDecoder_decode_stream (fst (TextDecoder_decode_stream d a)) b)).
Proof.
  unfold TextDecoder_decode_stream. rewrite run_app.
  destruct (Utf8.run (td_state d) a) as [st1 o1]. cbn [fst snd].
  rewrite strip_bom_app.
  destruct (strip_bom (td_bom_seen d) o1) as [s1 o1'].
  cbn [fst snd td_state td_bom_seen].
  destruct (Utf8.run st1 b) as [st2 o2]. cbn [fst snd].
  destruct (strip_bom s1 o2) as [s2 o2']. cbn [fst snd].
  now rewrite utf16s_app.
Qed.

Lemma handler_ascii (b : Z) :
  0 <= b < 128 -> Utf8.handler Utf8.init b = (Utf8.init, [b]).
Proof.
  intros Hb. unfold Utf8.handler, Utf8.lead, Utf8.in_range.
  cbn [Utf8.bytes_needed Utf8.init]. change (0 =? 0) with true. cbv iota.
  destruct (Z.leb_spec 0 b); [|lia].
  destruct (Z.leb_spec b 127); [|lia]. reflexivity.
Qed.

Lemma run_ascii (bs : bytes) :
  ascii_bytes bs -> Utf8.run Utf8.init bs = (Utf8.init, bs).
Proof.
  induction 1 as [|b bs Hb _ IH]; [reflexivity|].
  cbn [Utf8.run]. rewrite handler_ascii by exact Hb. now rewrite IH.
Qed.

Lemma utf16s_ascii (bs : bytes) : ascii_bytes bs -> Utf8.utf16s bs = bs.
Proof.
  induction 1 as [|b bs Hb _ IH]; [reflexivity|].
  unfold Utf8.utf16s in *. cbn [map concat]. rewrite IH. unfold Utf8.utf16.
  destruct (Z.ltb_spec b 65536); [reflexivity | lia].
Qed.

(** On ASCII bytes [toString] is the identity. *)
Lemma Buffer_toString_ascii (bs : bytes) :
  ascii_bytes bs -> Buffer_toString bs = bs.
Proof.
  intros H. unfold Buffer_toString. rewrite run_ascii by exact H.
  simpl. rewrite app_nil_r. now apply utf16s_ascii.
Qed.

Lemma concat_toString_ascii (chunks : list bytes) :
  ascii_bytes (concat chunks) ->
  concat (map Buffer_toString chunks) = Buffer_toString (concat chunks).
Proof.
  intros H. rewrite (Buffer_toString_ascii _ H).
  induction chunks as [|c cs IH]; [reflexivity|].
  simpl in *. apply Forall_app in H as [Hc Hcs].
  now rewrite IH, Buffer_toString_ascii.
Qed.

(** Chunk invariance of the worker-output decoder on ASCII output. *)
Lemma on_stdout_chunks_ascii (chunk : bytes) (chunks : list bytes)
    (s : Route.Supervisor) :
  ascii_bytes (concat (chunk :: chunks)) ->
  fold_left Route.on_stdout_data (chunk :: chunks) s =
    Route.on_stdout_data s (concat (chunk :: chunks)).
Proof.
  intros H. rewrite on_stdout_chunks, concat_toString_ascii by exact H.
  reflexivity.
Qed.

(** ** The transport decoder of the hook *)

Lemma on_parts_app (prev : Hook.AnalysisState) (p1 p2 : list jsstr) :
  Hook.on_parts prev (p1 ++ p2) =
    match Hook.on_parts prev p1 with
    | (st, None) => Hook.on_parts st p2
    | (st, Some e) => (st, Some e)
    end.
Proof.
  revert prev. induction p1 as [|p p1 IH]; intros prev; simpl; [reflexivity|].
  destruct (Hook.on_part prev p); [apply IH | reflexivity].
Qed.

Lemma on_chunk_frames (buf : jsstr) (d : TextDecoder)
    (prev : Hook.AnalysisState) (value : bytes) :
  Hook.on_chunk buf d prev value =
    let text := snd (TextDecoder_decode_stream d value) in
    match Hook.on_parts prev (frames [LF; LF] (buf ++ text)) with
    | (st, None) =>
        (Hook.Reading (leftover [LF; LF] (buf ++ text))
           (fst (TextDecoder_decode_stream d value)), st)
    | (st, Some e) => (Hook.Returned, Hook.on_catch st e)
    end.
Proof.
  unfold Hook.on_chunk, frames, leftover.
  destruct (TextDecoder_decode_stream d value) as [d' text]. simpl.
  destruct (pop (split [LF; LF] (buf ++ text))) as [parts last]. reflexivity.
Qed.

(** Two chunks read in turn are read as their concatenation; a call that
    has returned reads nothing more. *)
Lemma on_chunk_app (buf : jsstr) (d : TextDecoder)
    (prev : Hook.AnalysisState) (v1 v2 : bytes) :
  Hook.on_chunk buf d prev (v1 ++ v2) =
    let '(ph, st) := Hook.on_chunk buf d prev v1 in
    Hook.resume ph st (Hook.Chunk v2).
Proof.
  rewrite (on_chunk_frames buf d prev (v1 ++ v2)), (on_chunk_frames buf d prev v1).
  rewrite decode_stream_app. cbn [fst snd].
  set (r1 := TextDecoder_decode_stream d v1).
  set (r2 := TextDecoder_decode_stream (fst r1) v2).
  cbv zeta. rewrite app_assoc.
  rewrite (frames_app [LF; LF] ltac:(discriminate) (buf ++ snd r1) (snd r2)).
  rewrite (leftover_app [LF; LF] ltac:(discriminate) (buf ++ snd r1) (snd r2)).
  rewrite on_parts_app.
  destruct (Hook.on_parts prev (frames [LF; LF] (buf ++ snd r1))) as [st [e|]].
  - reflexivity.
  - cbn [Hook.resume]. rewrite on_chunk_frames. reflexivity.
Qed.

Lemma read_chunks_returned (prev : Hook.AnalysisState) (chunks : list bytes) :
  read_chunks Hook.Returned prev chunks = (Hook.Returned, prev).
Proof.
  unfold read_chunks. induction chunks as [|c cs IH]; [reflexivity|]. exact IH.
Qed.

(** Chunk invariance of the transport decoder: however the bytes of the
    response body are cut into chunks, the call of [analyze] ends where it
    ends on the whole body read as one chunk. *)
Lemma read_chunks_concat (buf : jsstr) (d : TextDecoder)
    (prev : Hook.AnalysisState) (chunk : bytes) (chunks : list bytes) :
  read_chunks (Hook.Reading buf d) prev (chunk :: chunks) =
    Hook.on_chunk buf d prev (concat (chunk :: chunks)).
Proof.
  revert buf d prev chunk.
  induction chunks as [|c cs IH]; intros buf d prev chunk.
  - simpl. now rewrite app_nil_r.
  - change (concat (chunk :: c :: cs)) with (chunk ++ concat (c :: cs)).
    rewrite on_chunk_app.
    change (read_chunks (Hook.Reading buf d) prev (chunk :: c :: cs))
      with (read_chunks (fst (Hook.on_chunk buf d prev chunk))
              (snd (Hook.on_chunk buf d prev chunk)) (c :: cs)).
    rewrite (on_chunk_frames buf d prev chunk). cbv zeta.
    destruct (Hook.on_parts prev _) as [st [e|]]; cbn [fst snd].
    + now rewrite read_chunks_returned.
    + rewrite IH. reflexivity.
Qed.

(** ** The claims *)

(** C1.  Chunk invariance fails for the worker-output decoder of the
    gateway: each chunk goes through [toString] on its own, so a chunk
    boundary inside a multi-byte character changes the text.  On the two
    chunks [cut_chunk_1], [cut_chunk_2] the gateway forwards a record whose
    stage is U+FFFD U+FFFD, while on their concatenation it forwards the
    record as the worker wrote it.  (The transport decoder of the hook, with
    its streaming TextDecoder, is chunk invariant: [read_chunks_concat];
    so is this decoder on ASCII output: [on_stdout_chunks_ascii].) *)
Theorem C1_worker_chunks_cut_inside_character :
  Route.outbound
    (Route.run [Route.StdoutData cut_chunk_1; Route.StdoutData cut_chunk_2])
  = TextEncoder_encode
      (Route.frame (jq "{'type':'progress','stage':'" ++ [0xFFFD; 0xFFFD] ++ jq "'}"))
  /\ Route.outbound (Route.run [Route.StdoutData (cut_chunk_1 ++ cut_chunk_2)])
     = TextEncoder_encode
         (Route.frame (jq "{'type':'progress','stage':'" ++ [0xE9] ++ jq "'}"))
  /\ Route.outbound
       (Route.run [Route.StdoutData cut_chunk_1; Route.StdoutData cut_chunk_2])
     <> Route.outbound (Route.run [Route.StdoutData (cut_chunk_1 ++ cut_chunk_2)]).
Proof.
  split; [|split].
  - vm_compute. reflexivity.
  - vm_compute. reflexivity.
  - vm_compute. discriminate.
Qed.

(** What the reducer does to the status. *)

Lemma is_text_other (x : option Json.value) (a b : string) :
  Hook.is_text x a = true -> js a <> js b -> Hook.is_text x b = false.
Proof.
  unfold Hook.is_text. destruct x as [[]|]; try discriminate.
  intros H Hab. apply bool_decide_eq_true in H. subst s.
  now apply bool_decide_eq_false.
Qed.

Lemma apply_event_result (prev : Hook.AnalysisState) (event data : Json.value) :
  Hook.is_text (prop event (js "type")) "result" = true ->
  prop event (js "data") = Some data ->
  Json.truthy data = true ->
  Hook.apply_event prev event =
    inl {| Hook.status := Hook.Complete;
           Hook.progressSteps := Hook.progressSteps prev;
           Hook.currentStage := Hook.text "Complete";
           Hook.result := Some data;
           Hook.error := Hook.error prev |}.
Proof.
  intros Hty Hdata Htruthy.
  destruct event; try discriminate Hdata.
  unfold Hook.apply_event.
  rewrite (is_text_other _ "result" "progress" Hty) by discriminate.
  rewrite Hty, Hdata. cbn [truthy]. rewrite Htruthy. reflexivity.
Qed.

(** The branches of [apply_event], one goal each. *)
Ltac reducer_branches :=
  repeat match goal with
         | |- context [if ?b then _ else _] => destruct b eqn:?
         | |- context [match Hook.stageLabel ?a ?b with _ => _ end] =>
             destruct (Hook.stageLabel a b)
         end.

Lemma apply_event_clean (prev st : Hook.AnalysisState) (event : Json.value) :
  Hook.apply_event prev event = inl st -> loading_clean prev -> loading_clean st.
Proof.
  unfold Hook.apply_event, loading_clean.
  destruct event; try discriminate; reducer_branches;
    intros [= <-]; cbn; auto; discriminate.
Qed.

Lemma on_part_clean (prev st : Hook.AnalysisState) (part : jsstr) :
  Hook.on_part prev part = inl st -> loading_clean prev -> loading_clean st.
Proof.
  unfold Hook.on_part.
  destruct (Hook.payload part) as [raw|]; [|now intros [= <-]].
  destruct (Json.parse raw) as [event|]; [|now intros [= <-]].
  apply apply_event_clean.
Qed.

Lemma on_catch_clean (prev : Hook.AnalysisState) (e : exn) :
  loading_clean prev -> loading_clean (Hook.on_catch prev e).
Proof.
  unfold Hook.on_catch, loading_clean.
  destruct (bool_decide _); cbn; [auto | discriminate].
Qed.

Lemma on_parts_clean (parts : list jsstr) (prev : Hook.AnalysisState) :
  loading_clean prev -> loading_clean (fst (Hook.on_parts prev parts)).
Proof.
  revert prev. induction parts as [|p parts IH]; intros prev H; simpl; [exact H|].
  destruct (Hook.on_part prev p) eqn:E; [|exact H].
  apply IH. eapply on_part_clean; eauto.
Qed.

Lemma resume_clean (ph : Hook.Phase) (prev : Hook.AnalysisState) (s : Hook.Settle) :
  loading_clean prev -> loading_clean (snd (Hook.resume ph prev s)).
Proof.
  intros H. destruct ph, s; cbn [Hook.resume snd]; auto using on_catch_clean.
  - destruct (_ && _); cbn [snd]; auto using on_catch_clean.
  - unfold Hook.on_chunk.
    destruct (TextDecoder_decode_stream decoder value) as [d' text].
    destruct (pop _) as [parts last].
    pose proof (on_parts_clean parts prev H) as Hc.
    destruct (Hook.on_parts prev parts) as [st [e|]]; cbn [fst snd] in *;
      auto using on_catch_clean.
Qed.

Lemma step_clean (h : Hook.Hook) (i : Hook.Input) :
  loading_clean (Hook.state h) -> loading_clean (Hook.state (Hook.step h i)).
Proof.
  intros H. destruct i as [url maxPages| |call s]; cbn [Hook.step].
  - intros _. reflexivity.
  - intros _. reflexivity.
  - destruct (Hook.calls h !! call) as [ph|]; [|exact H].
    pose proof (resume_clean ph (Hook.state h) (Hook.delivered h call s) H) as Hc.
    destruct (Hook.resume ph (Hook.state h) (Hook.delivered h call s)).
    exact Hc.
Qed.

(** Whatever the hook went through, a Loading state records no error. *)
Lemma reachable_clean (inputs : list Hook.Input) :
  loading_clean (Hook.state (Hook.steps Hook.mount inputs)).
Proof.
  unfold Hook.steps.
  assert (G : forall h, loading_clean (Hook.state h) ->
                        loading_clean (Hook.state (fold_left Hook.step inputs h))).
  { induction inputs as [|i inputs IH]; intros h H; simpl; [exact H|].
    apply IH, step_clean, H. }
  apply G. intros _. reflexivity.
Qed.

(** C2.  In every state of status Loading the hook can be in, whatever
    calls of [analyze] and [reset] were made and whatever settled for them,
    a Result event (its payload truthy, as every AnalysisResult object is)
    sets [result] to the payload of the event and the status to Complete,
    and [error] is absent afterwards: the reducer carries the field over,
    and no Loading state the hook reaches records an error. *)
Theorem C2_result_event (inputs : list Hook.Input) (event data : Json.value) :
  let prev := Hook.state (Hook.steps Hook.mount inputs) in
  Hook.status prev = Hook.Loading ->
  Hook.is_text (prop event (js "type")) "result" = true ->
  prop event (js "data") = Some data ->
  Json.truthy data = true ->
  Hook.apply_event prev event =
    inl {| Hook.status := Hook.Complete;
           Hook.progressSteps := Hook.progressSteps prev;
           Hook.currentStage := Hook.text "Complete";
           Hook.result := Some data;
           Hook.error := None |}.
Proof.
  intros prev Hst Hty Hdata Htruthy. subst prev.
  rewrite (apply_event_result _ event data Hty Hdata Htruthy).
  now rewrite (reachable_clean inputs Hst).
Qed.

Lemma C2_result_event_witness :
  let inputs := [Hook.Analyze (js "https://x.com") 5;
                 Hook.Settles 0 (Hook.Response 200 true);
                 Hook.Settles 0
                   (Hook.Chunk (jq "data: {'type':'progress','stage':'domain'}"
                                  ++ [LF; LF]))] in
  let event := Json.Obj [(js "type", Json.Str (js "result"));
                         (js "data", Json.Obj [(js "score", Json.Num 80 0)])] in
  let prev := Hook.state (Hook.steps Hook.mount inputs) in
  (Hook.status prev = Hook.Loading
   /\ Hook.is_text (prop event (js "type")) "result" = true
   /\ prop event (js "data") = Some (Json.Obj [(js "score", Json.Num 80 0)])
   /\ Json.truthy (Json.Obj [(js "score", Json.Num 80 0)]) = true)
  /\ Hook.apply_event prev event
     = inl {| Hook.status := Hook.Complete;
              Hook.progressSteps := Hook.progressSteps prev;
              Hook.currentStage := Hook.text "Complete";
              Hook.result := Some (Json.Obj [(js "score", Json.Num 80 0)]);
              Hook.error := None |}.
Proof.
  cbv zeta. split; [repeat split; vm_compute; reflexivity|].
  apply (C2_result_event
           [Hook.Analyze (js "https://x.com") 5;
            Hook.Settles 0 (Hook.Response 200 true);
            Hook.Settles 0
              (Hook.Chunk (jq "data: {'type':'progress','stage':'domain'}"
                             ++ [LF; LF]))]
           (Json.Obj [(js "type", Json.Str (js "result"));
                      (js "data", Json.Obj [(js "score", Json.Num 80 0)])])
           (Json.Obj [(js "score", Json.Num 80 0)]));
    vm_compute; reflexivity.
Defined.

(** ** The gateway *)

Lemma encode_ascii_cons (c : Z) (s : jsstr) :
  0 <= c < 128 -> TextEncoder_encode (c :: s) = c :: TextEncoder_encode s.
Proof.
  intros Hc. unfold TextEncoder_encode. cbn [Utf8.scalars].
  unfold Utf8.is_high, Utf8.is_low, Utf8.in_range.
  destruct (Z.leb_spec 0xD800 c); [lia|].
  destruct (Z.leb_spec 0xDC00 c); [lia|].
  cbn [andb map concat]. unfold Utf8.encode_scalar.
  destruct (Z.ltb_spec c 0x80); [reflexivity | lia].
Qed.

Lemma frame_not_DONE (payload : jsstr) :
  TextEncoder_encode (Route.frame (Route.error_event payload))
  <> TextEncoder_encode Route.DONE.
Proof.
  unfold Route.frame, Route.error_event.
  let t := eval vm_compute in (TextEncoder_encode Route.DONE) in
  change (TextEncoder_encode Route.DONE) with t.
  change (js "data: ") with [100; 97; 116; 97; 58; 32].
  change (js "{") with [123].
  rewrite <- !app_assoc. cbn [app].
  rewrite !encode_ascii_cons by lia.
  congruence.
Qed.

(** C3.  When the worker cannot be spawned the local-spawn gateway
    enqueues the Error frame and closes the stream: the sentinel is not
    written, neither by the error handler nor by the close handler that
    runs after it, whose [enqueue] throws on the closed stream.  The
    remote-service gateway answers an unreachable service with the Error
    frame followed by the sentinel. *)
Theorem C3_spawn_failure_writes_no_sentinel (message : jsstr) :
  let failed := Route.run [Route.SpawnError message] in
  let failed_closed := Route.run [Route.SpawnError message; Route.Close] in
  Route.queue (Route.controller failed)
    = [TextEncoder_encode (Route.frame (Route.error_event message))]
  /\ Route.closed (Route.controller failed) = true
  /\ Route.queue (Route.controller failed_closed)
     = Route.queue (Route.controller failed)
  /\ Route.uncaught failed_closed = true
  /\ ~ In (TextEncoder_encode Route.DONE)
          (Route.queue (Route.controller failed_closed))
  /\ Route.POST_proxy (Json.Obj [(js "url", Json.Str (js "https://x.com"))])
       Route.Unreachable
     = inl (Route.TextStream
              (Route.frame (Route.error_event (js "Analysis service unavailable"))
               ++ Route.DONE)).
Proof.
  cbv zeta. repeat split; try reflexivity.
  change (Route.queue (Route.controller
            (Route.run [Route.SpawnError message; Route.Close])))
    with [TextEncoder_encode (Route.frame (Route.error_event message))].
  intros [H|[]]. now apply frame_not_DONE in H.
Qed.

(** C6, as stated, fails: a url that is empty after trimming but not
    empty is accepted, and the worker is spawned on it. *)
Lemma C6_blank_url_spawns :
  trim (js " ") = []
  /\ Route.POST {| Route.SEO_SCRIPT_PATH := None; Route.PYTHON_BIN := None |}
       (fun _ _ => None)
       (Json.Obj [(js "url", Json.Str (js " "))])
     = inl (Route.SpawnStream (js "/usr/bin/python3")
              [Route.ArgText
                 (js "/Users/danieledinunzio/Documents/AI SEO/seo_analyzer.py");
               Route.ArgValue (Json.Str (js " "));
               Route.ArgString (Json.Num 5 0);
               Route.ArgText (js "--json")]).
Proof. split; vm_compute; reflexivity. Qed.

Lemma trim_nil : trim [] = [].
Proof. reflexivity. Qed.

(** A url that is not empty after trimming is not empty. *)
Lemma trim_nonempty (u : jsstr) : trim u <> [] -> u <> [].
Proof. intros H ->. now apply H. Qed.

(** C6, amended.  A body whose url is missing or falsy (the empty string,
    null, 0, false) gets the 400 response at once, with no stream, and
    [spawn] is not called, whatever it would do.  A body whose url is a
    non-empty string, blank or not, gets a stream from the remote
    realisation; the local-spawn realisation calls [spawn] with the script,
    that very url, [String(maxPages)] and [--json], and answers with the
    stream of that worker, unless [String(maxPages)] or [spawn] throws, in
    which case [POST] rejects with that exception and gives no response. *)
Theorem C6_url_validation (env : Route.Env) (spawn : Route.Spawn)
    (body : Json.value) (upstream : Route.Upstream) :
  body <> Json.Null ->
  (truthy (prop body (js "url")) = false ->
     (forall spawn', Route.POST env spawn' body = inl Route.url_required)
     /\ Route.POST_proxy body upstream = inl Route.url_required)
  /\ (forall u, prop body (js "url") = Some (Json.Str u) -> u <> [] ->
        let maxPages := nullish (prop body (js "maxPages")) (Json.Num 5 0) in
        let pythonBin :=
          Route.or_default (Route.PYTHON_BIN env) (js "/usr/bin/python3") in
        let args := [Route.ArgText (Route.SCRIPT_PATH env);
                     Route.ArgValue (Json.Str u);
                     Route.ArgString maxPages;
                     Route.ArgText (js "--json")] in
        Route.POST env spawn body
        = match String_throws maxPages with
          | Some e => inr e
          | None =>
              match spawn pythonBin args with
              | Some e => inr e
              | None => inl (Route.SpawnStream pythonBin args)
              end
          end
        /\ (exists r, Route.POST_proxy body upstream = inl r
                      /\ Route.response_bytes r <> None)).
Proof.
  intros Hbody. split.
  - intros Hfalsy. unfold Route.POST, Route.POST_proxy.
    destruct body; try congruence; rewrite ?Hfalsy;
      (split; [intros spawn'|reflexivity]);
      try reflexivity.
    unfold truthy in Hfalsy.
    destruct (prop (Json.Obj members) (js "url")) as [u|]; [|reflexivity].
    now rewrite Hfalsy.
  - intros u Hu Hne maxPages pythonBin args.
    assert (Ht : Json.truthy (Json.Str u) = true).
    { cbn. now rewrite bool_decide_eq_false_2. }
    unfold Route.POST, Route.POST_proxy.
    destruct body; try congruence; try discriminate Hu.
    rewrite Hu. cbn [truthy]. rewrite Ht. split; [reflexivity|].
    destruct upstream as [|status [chunks|]];
      [| destruct (Utf8.in_range 200 299 status) |];
      eexists; (split; [reflexivity | discriminate]).
Qed.

Lemma C6_url_validation_witness :
  let env := {| Route.SEO_SCRIPT_PATH := None; Route.PYTHON_BIN := None |} in
  let spawn : Route.Spawn := fun _ _ => None in
  let missing := Json.Obj [(js "maxPages", Json.Num 3 0)] in
  let given := Json.Obj [(js "url", Json.Str (js "https://x.com"))] in
  (missing <> Json.Null /\ truthy (prop missing (js "url")) = false)
  /\ ((forall spawn', Route.POST env spawn' missing = inl Route.url_required)
      /\ Route.POST_proxy missing Route.Unreachable = inl Route.url_required)
  /\ Route.POST env spawn given
     = inl (Route.SpawnStream (js "/usr/bin/python3")
              [Route.ArgText
                 (js "/Users/danieledinunzio/Documents/AI SEO/seo_analyzer.py");
               Route.ArgValue (Json.Str (js "https://x.com"));
               Route.ArgString (Json.Num 5 0);
               Route.ArgText (js "--json")])
  /\ (exists r, Route.POST_proxy given Route.Unreachable = inl r
                /\ Route.response_bytes r <> None).
Proof.
  cbv zeta. split; [split; [discriminate | reflexivity]|].
  split.
  - apply (proj1 (C6_url_validation
                    {| Route.SEO_SCRIPT_PATH := None; Route.PYTHON_BIN := None |}
                    (fun _ _ => None)
                    (Json.Obj [(js "maxPages", Json.Num 3 0)])
                    Route.Unreachable ltac:(discriminate))).
    reflexivity.
  - apply (proj2 (C6_url_validation
                    {| Route.SEO_SCRIPT_PATH := None; Route.PYTHON_BIN := None |}
                    (fun _ _ => None)
                    (Json.Obj [(js "url", Json.Str (js "https://x.com"))])
                    Route.Unreachable ltac:(discriminate))
             (js "https://x.com"));
      [reflexivity | intros H; vm_compute in H; discriminate].
Defined.

Lemma try_forward_open (s : Route.Supervisor) (text : jsstr) :
  Route.closed (Route.controller s) = false ->
  Route.try_forward s text =
    {| Route.buffer := Route.buffer s;
       Route.controller :=
         {| Route.queue :=
              Route.queue (Route.controller s) ++
                match Json.parse text with
                | Some _ => [TextEncoder_encode (Route.frame text)]
                | None => []
                end;
            Route.closed := false |};
       Route.parse_calls := Route.parse_calls s ++ [text];
       Route.uncaught := Route.uncaught s |}.
Proof.
  destruct s as [b [q c] p u]. cbn [Route.controller Route.closed].
  intros ->. unfold Route.try_forward, Route.enqueue.
  cbn [Route.controller Route.closed Route.queue Route.buffer
       Route.parse_calls Route.uncaught].
  destruct (Json.parse text); [reflexivity|]. now rewrite app_nil_r.
Qed.

Lemma on_line_open (s : Route.Supervisor) (line : jsstr) :
  Route.closed (Route.controller s) = false ->
  Route.closed (Route.controller (Route.on_line s line)) = false
  /\ Route.uncaught (Route.on_line s line) = Route.uncaught s.
Proof.
  intros Hopen. unfold Route.on_line.
  destruct (bool_decide (trim line = [])); [auto|].
  rewrite try_forward_open by exact Hopen. auto.
Qed.

Lemma on_lines_open (lines : list jsstr) (s : Route.Supervisor) :
  Route.closed (Route.controller s) = false ->
  Route.closed (Route.controller (fold_left Route.on_line lines s)) = false
  /\ Route.uncaught (fold_left Route.on_line lines s) = Route.uncaught s.
Proof.
  revert s. induction lines as [|l lines IH]; intros s Hopen; simpl; [auto|].
  destruct (on_line_open s l Hopen) as [H1 H2].
  destruct (IH _ H1) as [H3 H4]. split; congruence.
Qed.

(** While the worker only writes output the stream stays open. *)
Lemma run_output_open (evs : list Route.ChildEvent) :
  output_only evs ->
  Route.closed (Route.controller (Route.run evs)) = false
  /\ Route.uncaught (Route.run evs) = false.
Proof.
  unfold Route.run.
  assert (G : forall s, output_only evs ->
                        Route.closed (Route.controller s) = false ->
                        Route.uncaught s = false ->
    Route.closed (Route.controller (fold_left Route.handle evs s)) = false
    /\ Route.uncaught (fold_left Route.handle evs s) = false).
  { induction evs as [|ev evs IH]; intros s Hall Ho Hu; cbn [fold_left]; [auto|].
    apply Forall_cons_iff in Hall as [Hev Hall].
    destruct ev as [c|c| |m]; try contradiction;
      (apply IH; [exact Hall | |]); unfold Route.handle; rewrite Hu; auto;
      unfold Route.on_stdout_data; rewrite on_text_frames; cbn.
    - now apply on_lines_open.
    - destruct (on_lines_open
                  (frames [LF] (Route.buffer s ++ Buffer_toString c)) s Ho).
      congruence. }
  intros Hall. now apply G.
Qed.

(** C7.  When the worker's output ends with a record that lacks its line
    feed, the close handler parses the trimmed leftover once; if it parses,
    its frame is enqueued, and in both cases the sentinel follows and the
    stream is closed. *)
Theorem C7_trailing_fragment (evs : list Route.ChildEvent) :
  let s := Route.run evs in
  let s' := Route.run (evs ++ [Route.Close]) in
  output_only evs ->
  trim (Route.buffer s) <> [] ->
  Route.parse_calls s' = Route.parse_calls s ++ [trim (Route.buffer s)]
  /\ Route.queue (Route.controller s')
     = Route.queue (Route.controller s)
       ++ match Json.parse (trim (Route.buffer s)) with
          | Some _ => [TextEncoder_encode (Route.frame (trim (Route.buffer s)))]
          | None => []
          end
       ++ [TextEncoder_encode Route.DONE]
  /\ Route.closed (Route.controller s') = true
  /\ Route.uncaught s' = false.
Proof.
  cbv zeta. intros Hall Hleft.
  destruct (run_output_open evs Hall) as [Hopen Hu].
  unfold Route.run in *. rewrite fold_left_app.
  set (s := fold_left Route.handle evs Route.start) in *.
  cbn [fold_left]. unfold Route.handle. rewrite Hu.
  unfold Route.on_close.
  rewrite bool_decide_eq_false_2 by exact Hleft.
  rewrite try_forward_open by exact Hopen.
  unfold Route.enqueue, Route.close, Route.with_controller.
  cbn [Route.controller Route.closed Route.queue Route.buffer
       Route.parse_calls Route.uncaught].
  rewrite <- app_assoc. auto.
Qed.

Lemma C7_trailing_fragment_witness :
  let evs := [Route.StdoutData (jq "{'type':'progress','stage':'domain'}" ++ [LF]);
              Route.StderrData (js "Crawling...");
              Route.StdoutData (jq "{'type':'result','data':{'score':80}}")] in
  let s := Route.run evs in
  let s' := Route.run (evs ++ [Route.Close]) in
  (output_only evs /\ trim (Route.buffer s) <> [])
  /\ Route.parse_calls s' = Route.parse_calls s ++ [trim (Route.buffer s)]
  /\ Route.queue (Route.controller s')
     = Route.queue (Route.controller s)
       ++ match Json.parse (trim (Route.buffer s)) with
          | Some _ => [TextEncoder_encode (Route.frame (trim (Route.buffer s)))]
          | None => []
          end
       ++ [TextEncoder_encode Route.DONE]
  /\ Route.closed (Route.controller s') = true
  /\ Route.uncaught s' = false.
Proof.
  cbv zeta.
  assert (Ho : output_only
                 [Route.StdoutData
                    (jq "{'type':'progress','stage':'domain'}" ++ [LF]);
                  Route.StderrData (js "Crawling...");
                  Route.StdoutData (jq "{'type':'result','data':{'score':80}}")])
    by (repeat constructor).
  assert (H : trim (Route.buffer
                (Route.run
                   [Route.StdoutData
                      (jq "{'type':'progress','stage':'domain'}" ++ [LF]);
                    Route.StderrData (js "Crawling...");
                    Route.StdoutData
                      (jq "{'type':'result','data':{'score':80}}")])) <> [])
    by (vm_compute; discriminate).
  split; [split; [exact Ho | exact H]|].
  exact (C7_trailing_fragment _ Ho H).
Defined.

Lemma Forall_trimStart (P : Z -> Prop) (s : jsstr) :
  Forall P s -> Forall P (trimStart s).
Proof.
  induction 1 as [|c s Hc Hs IH]; cbn [trimStart]; [constructor|].
  destruct (is_white_space c); [exact IH | now constructor].
Qed.

Lemma Forall_trim (P : Z -> Prop) (s : jsstr) : Forall P s -> Forall P (trim s).
Proof.
  intros H. unfold trim, trimEnd.
  now apply Forall_rev, Forall_trimStart, Forall_rev, Forall_trimStart.
Qed.

(** On ASCII text [encode] is the identity. *)
Lemma encode_ascii (s : jsstr) : ascii_bytes s -> TextEncoder_encode s = s.
Proof.
  induction 1 as [|c s Hc _ IH]; [reflexivity|].
  now rewrite encode_ascii_cons, IH.
Qed.

(** ** One terminal status? *)

Lemma apply_event_status (prev st : Hook.AnalysisState) (event : Json.value) :
  Hook.apply_event prev event = inl st ->
  Hook.status st = Hook.status prev
  \/ (is_result event = true /\ Hook.status st = Hook.Complete)
  \/ (is_error event = true /\ Hook.status st = Hook.Error).
Proof.
  unfold Hook.apply_event, is_result, is_error.
  destruct event; try discriminate; reducer_branches;
    intros [= <-]; cbn [Hook.status]; auto.
Qed.

Lemma on_part_status (prev st : Hook.AnalysisState) (part : jsstr) :
  Hook.on_part prev part = inl st ->
  Hook.status st = Hook.status prev
  \/ (carries is_result part = true /\ Hook.status st = Hook.Complete)
  \/ (carries is_error part = true /\ Hook.status st = Hook.Error).
Proof.
  unfold Hook.on_part, carries, part_event.
  destruct (Hook.payload part) as [raw|]; [|intros [= <-]; auto].
  destruct (Json.parse raw) as [event|]; [|intros [= <-]; auto].
  apply apply_event_status.
Qed.

Lemma on_catch_status (prev : Hook.AnalysisState) (e : exn) :
  Hook.status (Hook.on_catch prev e) = Hook.status prev
  \/ Hook.status (Hook.on_catch prev e) = Hook.Error.
Proof. unfold Hook.on_catch. destruct (bool_decide _); cbn; auto. Qed.

Lemma complete_kept (parts : list jsstr) (prev : Hook.AnalysisState) :
  Hook.status prev = Hook.Complete ->
  Forall (fun part => carries is_error part = false) parts ->
  Hook.status (fst (Hook.on_parts prev parts)) = Hook.Complete.
Proof.
  revert prev. induction parts as [|p parts IH]; intros prev Hst Hall;
    cbn [Hook.on_parts]; [exact Hst|].
  apply Forall_cons_iff in Hall as [Hp Hall].
  destruct (Hook.on_part prev p) as [st|e] eqn:E; [|exact Hst].
  apply IH; [|exact Hall].
  destruct (on_part_status _ _ _ E) as [H|[[_ H]|[H _]]]; congruence.
Qed.

Lemma error_kept (parts : list jsstr) (prev : Hook.AnalysisState) :
  Hook.status prev = Hook.Error ->
  Forall (fun part => carries is_result part = false) parts ->
  Hook.status (fst (Hook.on_parts prev parts)) = Hook.Error.
Proof.
  revert prev. induction parts as [|p parts IH]; intros prev Hst Hall;
    cbn [Hook.on_parts]; [exact Hst|].
  apply Forall_cons_iff in Hall as [Hp Hall].
  destruct (Hook.on_part prev p) as [st|e] eqn:E; [|exact Hst].
  apply IH; [|exact Hall].
  destruct (on_part_status _ _ _ E) as [H|[[H _]|[_ H]]]; congruence.
Qed.

(** C5, as stated, fails: within one call of [analyze], a Result event
    sets Complete and an Error event in a later chunk then sets Error; in
    the other order, Error gives way to Complete; and a read that rejects
    after the Result sets Error as well. *)
Lemma C5_complete_then_error :
  let result_frame := jq "data: {'type':'result','data':{'score':80}}" ++ [LF; LF] in
  let error_frame := jq "data: {'type':'error','message':'late'}" ++ [LF; LF] in
  let job := [Hook.Analyze (js "https://x.com") 5;
              Hook.Settles 0 (Hook.Response 200 true)] in
  let status_after inputs :=
    Hook.status (Hook.state (Hook.steps Hook.mount (job ++ inputs))) in
  status_after [Hook.Settles 0 (Hook.Chunk result_frame)] = Hook.Complete
  /\ status_after [Hook.Settles 0 (Hook.Chunk result_frame);
                   Hook.Settles 0 (Hook.Chunk error_frame)] = Hook.Error
  /\ status_after [Hook.Settles 0 (Hook.Chunk error_frame)] = Hook.Error
  /\ status_after [Hook.Settles 0 (Hook.Chunk error_frame);
                   Hook.Settles 0 (Hook.Chunk result_frame)] = Hook.Complete
  /\ status_after [Hook.Settles 0 (Hook.Chunk result_frame);
                   Hook.Settles 0
                     (Hook.Rejected {| exn_name := js "TypeError";
                                       exn_message := js "network error" |})]
     = Hook.Error.
Proof. vm_compute. auto. Qed.

(** ** A malformed frame *)

Lemma split_from_free (sep' f rest cur : jsstr) :
  Forall (fun c => c <> LF) f ->
  split_from (LF :: sep') O cur (f ++ (LF :: sep') ++ rest) =
    (rev cur ++ f) :: split (LF :: sep') rest.
Proof.
  revert cur. induction f as [|c f IH]; intros cur Hf.
  - cbn [app]. rewrite app_nil_r.
    change (LF :: sep' ++ rest) with ((LF :: sep') ++ rest).
    now rewrite split_from_match by discriminate.
  - apply Forall_cons_iff in Hf as [Hc Hf].
    change ((c :: f) ++ (LF :: sep') ++ rest)
      with (c :: (f ++ (LF :: sep') ++ rest)).
    rewrite split_from_cons. cbn [startsWith].
    destruct (Z.eqb_spec LF c) as [E|_]; [congruence|]. cbn [andb].
    rewrite IH by exact Hf. cbn [rev]. now rewrite <- app_assoc.
Qed.

(** A text made of segments free of line feeds, each followed by the
    separator, splits into those segments. *)
Lemma split_free (sep' f rest : jsstr) :
  Forall (fun c => c <> LF) f ->
  split (LF :: sep') (f ++ (LF :: sep') ++ rest) = f :: split (LF :: sep') rest.
Proof. intros Hf. unfold split at 1. now rewrite split_from_free. Qed.










(** ** Supersession *)

Lemma consistent_mount : consistent Hook.mount.
Proof.
  split; cbn.
  - intros j Hj. now apply not_elem_of_empty in Hj.
  - discriminate.
  - intros j [ph Hj]. now rewrite lookup_empty in Hj.
Qed.

Lemma abort_current_old (h : Hook.Hook) (j : nat) :
  consistent h -> j ∈ Hook.abort_current h -> (j < Hook.fresh h)%nat.
Proof.
  intros [Ha Hc _] Hj. unfold Hook.abort_current in Hj.
  destruct (Hook.abortRef h) as [c|] eqn:E; [|now apply Ha].
  apply elem_of_union in Hj as [Hj|Hj]; [|now apply Ha].
  apply elem_of_singleton in Hj. subst j. now apply Hc.
Qed.

Lemma abort_current_stale (h : Hook.Hook) (j : nat) :
  consistent h -> is_Some (Hook.calls h !! j) -> j ∈ Hook.abort_current h.
Proof.
  intros [_ _ Hs] Hj. unfold Hook.abort_current.
  destruct (Hook.abortRef h) as [c|] eqn:E.
  - destruct (decide (j = c)) as [->|Hne]; [set_solver|].
    apply elem_of_union_r, Hs; [exact Hj | congruence].
  - apply Hs; [exact Hj | congruence].
Qed.

Lemma settle_calls (h : Hook.Hook) (call : nat) (s : Hook.Settle) (j : nat) :
  is_Some (Hook.calls (Hook.step h (Hook.Settles call s)) !! j) ->
  is_Some (Hook.calls h !! j).
Proof.
  cbn [Hook.step]. destruct (Hook.calls h !! call) as [ph|] eqn:E; [|auto].
  destruct (Hook.resume ph (Hook.state h) (Hook.delivered h call s)) as [ph' st].
  cbn [Hook.calls]. destruct (decide (call = j)) as [<-|Hne].
  - intros _. now rewrite E.
  - now rewrite lookup_insert_ne.
Qed.

Lemma settle_frame (h : Hook.Hook) (call : nat) (s : Hook.Settle) :
  Hook.abortRef (Hook.step h (Hook.Settles call s)) = Hook.abortRef h
  /\ Hook.aborted (Hook.step h (Hook.Settles call s)) = Hook.aborted h
  /\ Hook.fresh (Hook.step h (Hook.Settles call s)) = Hook.fresh h.
Proof.
  cbn [Hook.step]. destruct (Hook.calls h !! call) as [ph|]; [|auto].
  now destruct (Hook.resume ph (Hook.state h) (Hook.delivered h call s)).
Qed.

Lemma consistent_step (h : Hook.Hook) (i : Hook.Input) :
  consistent h -> consistent (Hook.step h i).
Proof.
  intros Hh. destruct i as [url maxPages| |call s].
  - split; cbn [Hook.step Hook.aborted Hook.abortRef Hook.fresh Hook.calls].
    + intros j Hj. apply abort_current_old in Hj; [lia | exact Hh].
    + intros c [= <-]. lia.
    + intros j Hj Hne. apply abort_current_stale; [exact Hh|].
      rewrite lookup_insert_ne in Hj; [exact Hj | congruence].
  - split; cbn [Hook.step Hook.aborted Hook.abortRef Hook.fresh Hook.calls].
    + intros j Hj. now apply abort_current_old.
    + apply Hh.
    + intros j Hj _. now apply abort_current_stale.
  - destruct (settle_frame h call s) as (Er & Ea & Ef).
    split; rewrite ?Er, ?Ea, ?Ef.
    + apply Hh.
    + apply Hh.
    + intros j Hj. apply Hh. now apply settle_calls in Hj.
Qed.

Lemma consistent_steps (inputs : list Hook.Input) (h : Hook.Hook) :
  consistent h -> consistent (Hook.steps h inputs).
Proof.
  unfold Hook.steps. revert h.
  induction inputs as [|i inputs IH]; intros h Hh; simpl; [exact Hh|].
  apply IH, consistent_step, Hh.
Qed.

(** A call of [analyze] leaves its own call as the only live one. *)
Lemma analyze_live (h : Hook.Hook) (url : jsstr) (maxPages : Z) :
  consistent h -> live (Hook.step h (Hook.Analyze url maxPages)) (Hook.fresh h).
Proof.
  intros Hh.
  split; cbn [Hook.step Hook.aborted Hook.abortRef Hook.fresh Hook.calls].
  - reflexivity.
  - intros Hj. apply abort_current_old in Hj; [lia | exact Hh].
  - intros j Hj Hne. apply abort_current_stale; [exact Hh|].
    rewrite lookup_insert_ne in Hj; [exact Hj | congruence].
Qed.

Lemma settle_live (h : Hook.Hook) (live_call call : nat) (s : Hook.Settle) :
  live h live_call -> live (Hook.step h (Hook.Settles call s)) live_call.
Proof.
  intros [Hc Hs Ha]. destruct (settle_frame h call s) as (Er & Ea & Ef).
  split; rewrite ?Er, ?Ea; auto.
  intros j Hj. apply Ha. now apply settle_calls in Hj.
Qed.

Lemma resume_abort (ph : Hook.Phase) (prev : Hook.AnalysisState) :
  snd (Hook.resume ph prev (Hook.Rejected Hook.AbortError)) = prev.
Proof. now destruct ph. Qed.

(** What settles for a call whose signal is aborted does not touch the
    state, nor the live call. *)
Lemma settle_stale (h : Hook.Hook) (live_call call : nat) (s : Hook.Settle) :
  live h live_call -> call <> live_call ->
  Hook.state (Hook.step h (Hook.Settles call s)) = Hook.state h
  /\ Hook.calls (Hook.step h (Hook.Settles call s)) !! live_call
     = Hook.calls h !! live_call.
Proof.
  intros [Hc Hs Ha] Hne. cbn [Hook.step].
  destruct (Hook.calls h !! call) as [ph|] eqn:E; [|auto].
  assert (Hab : call ∈ Hook.aborted h) by (apply Ha; [now rewrite E | exact Hne]).
  unfold Hook.delivered. rewrite bool_decide_eq_true_2 by exact Hab.
  pose proof (resume_abort ph (Hook.state h)) as Hr.
  destruct (Hook.resume ph (Hook.state h) (Hook.Rejected Hook.AbortError))
    as [ph' st].
  cbn [Hook.state Hook.calls snd] in *. split; [exact Hr|].
  now rewrite lookup_insert_ne.
Qed.

Lemma settle_own (h : Hook.Hook) (call : nat) (ph : Hook.Phase) (s : Hook.Settle) :
  live h call -> Hook.calls h !! call = Some ph ->
  Hook.state (Hook.step h (Hook.Settles call s))
    = snd (Hook.resume ph (Hook.state h) s)
  /\ Hook.calls (Hook.step h (Hook.Settles call s)) !! call
     = Some (fst (Hook.resume ph (Hook.state h) s)).
Proof.
  intros [Hc Hs Ha] E. cbn [Hook.step]. rewrite E.
  unfold Hook.delivered. rewrite bool_decide_eq_false_2 by exact Hs.
  destruct (Hook.resume ph (Hook.state h) s) as [ph' st].
  cbn [Hook.state Hook.calls fst snd]. split; [reflexivity|].
  now rewrite lookup_insert_eq.
Qed.

(** With one live call and no further call of [analyze] or [reset], the
    hook does what the live call does alone on what settles for it. *)
Lemma live_alone_run (inputs : list Hook.Input) (h : Hook.Hook)
    (call : nat) (ph : Hook.Phase) :
  settles_only inputs -> live h call -> Hook.calls h !! call = Some ph ->
  Hook.state (Hook.steps h inputs)
    = snd (alone ph (Hook.state h) (own call inputs))
  /\ Hook.calls (Hook.steps h inputs) !! call
     = Some (fst (alone ph (Hook.state h) (own call inputs)))
  /\ live (Hook.steps h inputs) call.
Proof.
  unfold Hook.steps, alone. revert h ph.
  induction inputs as [|i inputs IH]; intros h ph Hall Hl E; [now split|].
  apply Forall_cons_iff in Hall as [Hi Hall].
  destruct i as [| |c s]; try contradiction.
  cbn [fold_left own]. destruct (decide (c = call)) as [->|Hne].
  - rewrite bool_decide_eq_true_2 by reflexivity.
    destruct (settle_own h call ph s Hl E) as [Hst Hph].
    cbn [fold_left fst snd].
    destruct (IH _ _ Hall (settle_live h call call s Hl) Hph) as (H1 & H2 & H3).
    rewrite H1, H2, Hst. split; [|split; [|exact H3]];
      now destruct (Hook.resume ph (Hook.state h) s).
  - rewrite bool_decide_eq_false_2 by exact Hne.
    destruct (settle_stale h call c s Hl Hne) as [Hst Hph].
    rewrite <- Hph in E.
    destruct (IH _ _ Hall (settle_live h call c s Hl) E) as (H1 & H2 & H3).
    rewrite H1, H2, Hst. auto.
Qed.

Lemma settles_only_firstn (n : nat) (inputs : list Hook.Input) :
  settles_only inputs -> settles_only (firstn n inputs).
Proof. apply Forall_take. Qed.

(** C4.  A call of [analyze] aborts the controller of the call in flight
    and makes its own the current one.  From then on, as long as no other
    call of [analyze] or [reset] is made, the controller of a call tells
    whether it is the current job: its signal is aborted exactly when the
    call is not the new one.  What settles for a call that is not the new
    one reaches its loop as an AbortError, which the catch block swallows:
    the state is not touched.  The state after the new call is what the new
    call alone makes of what settles for it, from the state [analyze]
    set. *)
Theorem C4_superseded_call_discarded
    (before after : list Hook.Input) (url : jsstr) (maxPages : Z) :
  settles_only after ->
  let h := Hook.steps Hook.mount before in
  let hB := Hook.step h (Hook.Analyze url maxPages) in
  Hook.state (Hook.steps hB after)
    = snd (alone (Hook.Fetching url maxPages) Hook.STARTING
             (own (Hook.fresh h) after))
  /\ (forall n call s, call <> Hook.fresh h ->
        Hook.state (Hook.step (Hook.steps hB (firstn n after))
                      (Hook.Settles call s))
        = Hook.state (Hook.steps hB (firstn n after)))
  /\ (forall n call,
        Hook.abortRef (Hook.steps hB (firstn n after)) = Some (Hook.fresh h)
        /\ (is_Some (Hook.calls (Hook.steps hB (firstn n after)) !! call) ->
            (call ∈ Hook.aborted (Hook.steps hB (firstn n after))
             <-> call <> Hook.fresh h))).
Proof.
  intros Hall h hB.
  assert (Hh : consistent h) by apply consistent_steps, consistent_mount.
  pose proof (analyze_live h url maxPages Hh) as Hl. fold hB in Hl.
  assert (E : Hook.calls hB !! Hook.fresh h = Some (Hook.Fetching url maxPages)).
  { unfold hB. cbn [Hook.step Hook.calls]. now rewrite lookup_insert_eq. }
  split; [|split].
  - now destruct (live_alone_run after hB _ _ Hall Hl E) as [-> _].
  - intros n call s Hne.
    destruct (live_alone_run (firstn n after) hB _ _
                (settles_only_firstn n after Hall) Hl E) as (_ & _ & Hl').
    now destruct (settle_stale _ _ call s Hl' Hne).
  - intros n call.
    destruct (live_alone_run (firstn n after) hB _ _
                (settles_only_firstn n after Hall) Hl E)
      as (_ & _ & [Hc Hs Ha]).
    split; [exact Hc|]. intros Hcall. split.
    + intros Hab ->. contradiction.
    + intros Hne. now apply Ha.
Qed.

Lemma C4_superseded_call_discarded_witness :
  let before := [Hook.Analyze (js "https://a.example") 5;
                 Hook.Settles 0 (Hook.Response 200 true)] in
  let frame_a := jq "data: {'type':'progress','stage':'domain'}" ++ [LF; LF] in
  let frame_b := jq "data: {'type':'result','data':{'score':80}}" ++ [LF; LF] in
  let after := [Hook.Settles 0 (Hook.Chunk frame_a);
                Hook.Settles 1 (Hook.Response 200 true);
                Hook.Settles 0 (Hook.Chunk frame_a);
                Hook.Settles 1 (Hook.Chunk frame_b);
                Hook.Settles 0 Hook.EndOfStream;
                Hook.Settles 1 Hook.EndOfStream] in
  let h := Hook.steps Hook.mount before in
  let hB := Hook.step h (Hook.Analyze (js "https://b.example") 5) in
  settles_only after
  /\ Hook.state (Hook.steps hB after)
     = snd (alone (Hook.Fetching (js "https://b.example") 5) Hook.STARTING
              (own (Hook.fresh h) after))
  /\ Hook.state (Hook.step (Hook.steps hB (firstn 2 after))
                   (Hook.Settles 0 (Hook.Chunk frame_a)))
     = Hook.state (Hook.steps hB (firstn 2 after))
  /\ (0%nat ∈ Hook.aborted (Hook.steps hB (firstn 2 after))
      <-> 0%nat <> Hook.fresh h).
Proof.
  cbv zeta.
  assert (H : settles_only
                [Hook.Settles 0
                   (Hook.Chunk (jq "data: {'type':'progress','stage':'domain'}"
                                  ++ [LF; LF]));
                 Hook.Settles 1 (Hook.Response 200 true);
                 Hook.Settles 0
                   (Hook.Chunk (jq "data: {'type':'progress','stage':'domain'}"
                                  ++ [LF; LF]));
                 Hook.Settles 1
                   (Hook.Chunk (jq "data: {'type':'result','data':{'score':80}}"
                                  ++ [LF; LF]));
                 Hook.Settles 0 Hook.EndOfStream;
                 Hook.Settles 1 Hook.EndOfStream])
    by (repeat constructor).
  split; [exact H|].
  destruct (C4_superseded_call_discarded
              [Hook.Analyze (js "https://a.example") 5;
               Hook.Settles 0 (Hook.Response 200 true)]
              _ (js "https://b.example") 5 H) as (H1 & H2 & H3).
  split; [exact H1|]. split.
  - apply (H2 2%nat 0%nat). discriminate.
  - apply (proj2 (H3 2%nat 0%nat)). vm_compute. eauto.
Defined.

(** ** A response that is not OK *)

Lemma on_catch_HTTP (prev : Hook.AnalysisState) (status : Z) :
  Hook.on_catch prev (Hook.HTTP_error status) =
    {| Hook.status := Hook.Error;
       Hook.progressSteps := Hook.progressSteps prev;
       Hook.currentStage := Hook.currentStage prev;
       Hook.result := Hook.result prev;
       Hook.error := Some (Json.Str (js "HTTP " ++ decimal status)) |}.
Proof.
  unfold Hook.on_catch, Hook.HTTP_error. cbn [exn_name exn_message].
  rewrite bool_decide_eq_false_2; [reflexivity|].
  intros H. vm_compute in H. discriminate.
Qed.

Lemma settle_aborted (h : Hook.Hook) (call : nat) (s : Hook.Settle) :
  call ∈ Hook.aborted h ->
  Hook.state (Hook.step h (Hook.Settles call s)) = Hook.state h.
Proof.
  intros Hab. cbn [Hook.step].
  destruct (Hook.calls h !! call) as [ph|]; [|reflexivity].
  unfold Hook.delivered. rewrite bool_decide_eq_true_2 by exact Hab.
  pose proof (resume_abort ph (Hook.state h)) as Hr.
  now destruct (Hook.resume ph (Hook.state h) (Hook.Rejected Hook.AbortError)).
Qed.

(** C10.  When the response of the gateway is not OK or has no body, the
    call of [analyze] ends in status Error with the message [HTTP] and the
    status code, no progress step and no result, whatever settled meanwhile
    for earlier calls.  When the request is aborted instead, by [reset] or
    by another call of [analyze], what the call awaits rejects with an
    AbortError and the state is left as it is. *)
Theorem C10_http_failure
    (before between : list Hook.Input) (url : jsstr) (maxPages status : Z)
    (has_body : bool) :
  let h := Hook.steps Hook.mount before in
  let hB := Hook.steps (Hook.step h (Hook.Analyze url maxPages)) between in
  Utf8.in_range 200 299 status && has_body = false ->
  settles_only between ->
  own (Hook.fresh h) between = [] ->
  Hook.state (Hook.step hB (Hook.Settles (Hook.fresh h)
                              (Hook.Response status has_body)))
    = {| Hook.status := Hook.Error;
         Hook.progressSteps := [];
         Hook.currentStage := Hook.text "Starting analysis...";
         Hook.result := None;
         Hook.error := Some (Json.Str (js "HTTP " ++ decimal status)) |}
  /\ (forall s,
        Hook.state (Hook.step (Hook.step hB Hook.Reset)
                      (Hook.Settles (Hook.fresh h) s))
        = Hook.state (Hook.step hB Hook.Reset))
  /\ (forall s url' maxPages',
        Hook.state (Hook.step (Hook.step hB (Hook.Analyze url' maxPages'))
                      (Hook.Settles (Hook.fresh h) s))
        = Hook.state (Hook.step hB (Hook.Analyze url' maxPages')))
  /\ (forall prev, Hook.on_catch prev Hook.AbortError = prev).
Proof.
  intros h hB Hbad Hall Hown.
  assert (Hh : consistent h) by apply consistent_steps, consistent_mount.
  pose proof (analyze_live h url maxPages Hh) as Hl.
  assert (E : Hook.calls (Hook.step h (Hook.Analyze url maxPages)) !! Hook.fresh h
              = Some (Hook.Fetching url maxPages)).
  { cbn [Hook.step Hook.calls]. now rewrite lookup_insert_eq. }
  destruct (live_alone_run between _ _ _ Hall Hl E) as (Hst & Hph & Hl').
  fold hB in Hst, Hph, Hl'. rewrite Hown in Hst, Hph.
  cbn [alone fold_left fst snd Hook.step Hook.state] in Hst, Hph.
  assert (Hcur : Hook.abortRef hB = Some (Hook.fresh h)) by apply Hl'.
  repeat split.
  - destruct (settle_own hB _ _ (Hook.Response status has_body) Hl' Hph) as [-> _].
    cbn [Hook.resume]. rewrite Hbad. cbn [snd].
    now rewrite on_catch_HTTP, Hst.
  - intros s. apply settle_aborted.
    cbn [Hook.step Hook.aborted]. unfold Hook.abort_current. rewrite Hcur.
    set_solver.
  - intros s url' maxPages'. apply settle_aborted.
    cbn [Hook.step Hook.aborted]. unfold Hook.abort_current. rewrite Hcur.
    set_solver.
Qed.

Lemma C10_http_failure_witness :
  let before := [Hook.Analyze (js "https://a.example") 5] in
  let between := [Hook.Settles 0 (Hook.Response 200 true)] in
  let h := Hook.steps Hook.mount before in
  let hB := Hook.steps (Hook.step h (Hook.Analyze (js "https://x.com") 5))
              between in
  (Utf8.in_range 200 299 500 && true = false
   /\ settles_only between /\ own (Hook.fresh h) between = [])
  /\ Hook.state (Hook.step hB (Hook.Settles (Hook.fresh h)
                                 (Hook.Response 500 true)))
     = {| Hook.status := Hook.Error;
          Hook.progressSteps := [];
          Hook.currentStage := Hook.text "Starting analysis...";
          Hook.result := None;
          Hook.error := Some (Json.Str (js "HTTP " ++ decimal 500)) |}
  /\ (forall s,
        Hook.state (Hook.step (Hook.step hB Hook.Reset)
                      (Hook.Settles (Hook.fresh h) s))
        = Hook.state (Hook.step hB Hook.Reset))
  /\ (forall s url' maxPages',
        Hook.state (Hook.step (Hook.step hB (Hook.Analyze url' maxPages'))
                      (Hook.Settles (Hook.fresh h) s))
        = Hook.state (Hook.step hB (Hook.Analyze url' maxPages')))
  /\ (forall prev, Hook.on_catch prev Hook.AbortError = prev).
Proof.
  cbv zeta.
  assert (H : settles_only [Hook.Settles 0 (Hook.Response 200 true)])
    by (repeat constructor).
  split; [repeat split; [exact H]|].
  apply (C10_http_failure [Hook.Analyze (js "https://a.example") 5]
           [Hook.Settles 0 (Hook.Response 200 true)]
           (js "https://x.com") 5 500 true);
    [reflexivity | exact H | reflexivity].
Defined.

(** ** A job and its terminal status *)

Lemma alone_chunks (chunks : list bytes) (ph : Hook.Phase)
    (prev : Hook.AnalysisState) :
  alone ph prev (map Hook.Chunk chunks) = read_chunks ph prev chunks.
Proof.
  unfold alone, read_chunks. generalize (ph, prev).
  induction chunks as [|c cs IH]; intros acc; [reflexivity|].
  cbn [map fold_left]. apply IH.
Qed.

Lemma alone_app (a b : list Hook.Settle) (ph : Hook.Phase)
    (prev : Hook.AnalysisState) :
  alone ph prev (a ++ b)
  = alone (fst (alone ph prev a)) (snd (alone ph prev a)) b.
Proof.
  unfold alone. rewrite fold_left_app.
  now destruct (fold_left _ a (ph, prev)).
Qed.

Lemma alone_cons (s : Hook.Settle) (ss : list Hook.Settle) (ph : Hook.Phase)
    (prev : Hook.AnalysisState) :
  alone ph prev (s :: ss)
  = alone (fst (Hook.resume ph prev s)) (snd (Hook.resume ph prev s)) ss.
Proof.
  unfold alone. cbn [fold_left fst snd].
  now destruct (Hook.resume ph prev s).
Qed.

(** Once a call reads its stream, what settles without a chunk and
    without a failure leaves the state as it is. *)
Lemma alone_quiet (final : list Hook.Settle) (ph : Hook.Phase)
    (prev : Hook.AnalysisState) :
  (forall url maxPages, ph <> Hook.Fetching url maxPages) ->
  Forall quiet final -> snd (alone ph prev final) = prev.
Proof.
  intros Hph H. revert ph Hph.
  induction H as [|s final Hs _ IH]; intros ph Hph; [reflexivity|].
  rewrite alone_cons.
  assert (E : snd (Hook.resume ph prev s) = prev
              /\ forall url maxPages,
                   fst (Hook.resume ph prev s) <> Hook.Fetching url maxPages).
  { destruct ph as [url maxPages| |]; [now destruct (Hph url maxPages)| |];
      destruct s as [status has_body|value| |e]; cbn [Hook.resume fst snd];
      try contradiction; try (split; [reflexivity | discriminate]).
    cbn [quiet] in Hs. unfold Hook.on_catch.
    rewrite bool_decide_eq_true_2 by exact Hs. split; [reflexivity|discriminate]. }
  destruct E as [E1 E2]. rewrite E1. now apply IH.
Qed.

Lemma alone_error (final : list Hook.Settle) (ph : Hook.Phase)
    (prev : Hook.AnalysisState) :
  (forall url maxPages, ph <> Hook.Fetching url maxPages) ->
  Forall no_chunk final -> Hook.status prev = Hook.Error ->
  Hook.status (snd (alone ph prev final)) = Hook.Error.
Proof.
  intros Hph H. revert ph prev Hph.
  induction H as [|s final Hs _ IH]; intros ph prev Hph Hst; [exact Hst|].
  rewrite alone_cons.
  assert (E : Hook.status (snd (Hook.resume ph prev s)) = Hook.Error
              /\ forall url maxPages,
                   fst (Hook.resume ph prev s) <> Hook.Fetching url maxPages).
  { destruct ph as [url maxPages| |]; [now destruct (Hph url maxPages)| |];
      destruct s as [status has_body|value| |e]; cbn [Hook.resume fst snd];
      try contradiction; try (split; [exact Hst | discriminate]).
    split; [|discriminate].
    destruct (on_catch_status prev e); congruence. }
  destruct E as [E1 E2]. now apply IH.
Qed.

(** A call that has returned takes nothing more. *)
Lemma alone_returned (ss : list Hook.Settle) (prev : Hook.AnalysisState) :
  alone Hook.Returned prev ss = (Hook.Returned, prev).
Proof.
  induction ss as [|s ss IH]; [reflexivity|].
  rewrite alone_cons. now destruct s.
Qed.

Lemma resume_not_fetching (ph : Hook.Phase) (prev : Hook.AnalysisState)
    (s : Hook.Settle) :
  (forall url maxPages, ph <> Hook.Fetching url maxPages) ->
  forall url maxPages, fst (Hook.resume ph prev s) <> Hook.Fetching url maxPages.
Proof.
  intros Hph url maxPages.
  destruct ph as [u m|buf d|]; [now destruct (Hph u m)| |];
    destruct s as [status has_body|value| |e]; cbn [Hook.resume fst];
    try discriminate.
  unfold Hook.on_chunk.
  destruct (TextDecoder_decode_stream d value) as [d' text].
  destruct (pop (split [LF; LF] (buf ++ text))) as [parts rest].
  destruct (Hook.on_parts prev parts) as [st [e|]]; discriminate.
Qed.

Lemma alone_not_fetching (ss : list Hook.Settle) (ph : Hook.Phase)
    (prev : Hook.AnalysisState) :
  (forall url maxPages, ph <> Hook.Fetching url maxPages) ->
  forall url maxPages, fst (alone ph prev ss) <> Hook.Fetching url maxPages.
Proof.
  revert ph prev. induction ss as [|s ss IH]; intros ph prev Hph; [exact Hph|].
  rewrite alone_cons. apply IH. now apply resume_not_fetching.
Qed.

(** As long as a call awaits [fetch], it has not touched the state. *)
Lemma alone_fetching (ss : list Hook.Settle) (ph : Hook.Phase)
    (prev : Hook.AnalysisState) (url : jsstr) (maxPages : Z) :
  fst (alone ph prev ss) = Hook.Fetching url maxPages ->
  snd (alone ph prev ss) = prev.
Proof.
  revert ph prev. induction ss as [|s ss IH]; intros ph prev; [reflexivity|].
  rewrite alone_cons. intros H.
  destruct ph as [u m|buf d|].
  - destruct s as [status has_body|value| |e]; cbn [Hook.resume] in *;
      try (now apply IH).
    + destruct (Utf8.in_range 200 299 status && has_body); cbn [fst snd] in *;
        exfalso; revert H; now apply alone_not_fetching.
    + cbn [fst snd] in *. exfalso; revert H; now apply alone_not_fetching.
  - exfalso; revert H. apply alone_not_fetching.
    now apply resume_not_fetching.
  - exfalso; revert H. apply alone_not_fetching.
    now apply resume_not_fetching.
Qed.

(** C5, amended.  The reducer does not latch a terminal status.  What
    holds of a job, as long as it is neither superseded nor reset, whatever
    settles meanwhile for earlier calls.  While it awaits [fetch] its
    status is Loading.  While it reads its stream, its status stays
    Complete as long as no part cut out of the chunks it reads carries an
    Error event, none makes the reducer throw, and no read rejects but by
    an AbortError; and its status stays Error as long as no such part
    carries a Result event.  Once it has returned, the state stays as it
    is. *)
Theorem C5_terminal_status_kept
    (before after later : list Hook.Input) (url : jsstr) (maxPages : Z) :
  let h := Hook.steps Hook.mount before in
  let h1 := Hook.steps (Hook.step h (Hook.Analyze url maxPages)) after in
  settles_only after -> settles_only later ->
  match Hook.calls h1 !! Hook.fresh h with
  | Some (Hook.Fetching _ _) => Hook.status (Hook.state h1) = Hook.Loading
  | Some (Hook.Reading buf d) =>
      forall (chunks : list bytes) (final : list Hook.Settle),
        own (Hook.fresh h) later = map Hook.Chunk chunks ++ final ->
        (Hook.status (Hook.state h1) = Hook.Complete ->
         Forall (fun part => carries is_error part = false)
           (job_parts buf d chunks) ->
         snd (Hook.on_parts (Hook.state h1) (job_parts buf d chunks)) = None ->
         Forall quiet final ->
         Hook.status (Hook.state (Hook.steps h1 later)) = Hook.Complete)
        /\ (Hook.status (Hook.state h1) = Hook.Error ->
            Forall (fun part => carries is_result part = false)
              (job_parts buf d chunks) ->
            Forall no_chunk final ->
            Hook.status (Hook.state (Hook.steps h1 later)) = Hook.Error)
  | Some Hook.Returned => Hook.state (Hook.steps h1 later) = Hook.state h1
  | None => False
  end.
Proof.
  intros h h1 Hafter Hlater.
  assert (Hh : consistent h) by apply consistent_steps, consistent_mount.
  pose proof (analyze_live h url maxPages Hh) as Hl.
  assert (E : Hook.calls (Hook.step h (Hook.Analyze url maxPages)) !! Hook.fresh h
              = Some (Hook.Fetching url maxPages)).
  { cbn [Hook.step Hook.calls]. now rewrite lookup_insert_eq. }
  destruct (live_alone_run after _ _ _ Hafter Hl E) as (Hst1 & Hph1 & Hl1).
  fold h1 in Hst1, Hph1, Hl1.
  destruct (Hook.calls h1 !! Hook.fresh h) as [[u m|buf d|]|] eqn:Hph;
    [| | |discriminate Hph1].
  - injection Hph1 as Hph1. symmetry in Hph1.
    rewrite Hst1.
    exact (f_equal Hook.status (alone_fetching _ _ _ _ _ Hph1)).
  - intros chunks final Hown.
    destruct (live_alone_run later h1 _ _ Hlater Hl1 Hph) as (-> & _ & _).
    rewrite Hown, alone_app, alone_chunks.
    set (prev := Hook.state h1).
    assert (Hread : forall url' maxPages',
              Hook.Reading buf d <> Hook.Fetching url' maxPages') by discriminate.
    assert (Hret : forall url' maxPages',
              Hook.Returned <> Hook.Fetching url' maxPages') by discriminate.
    destruct chunks as [|c cs].
    + cbn [read_chunks fold_left fst snd]. split.
      * intros Hst _ _ Hq. now rewrite alone_quiet.
      * intros Hst _ Hn. now apply alone_error.
    + rewrite read_chunks_concat, on_chunk_frames. cbv zeta.
      fold (job_parts buf d (c :: cs)).
      split.
      * intros Hst Hall Hno Hq.
        pose proof (complete_kept _ prev Hst Hall) as Hk.
        destruct (Hook.on_parts prev (job_parts buf d (c :: cs))) as [st [e|]];
          [discriminate Hno|].
        cbn [fst snd] in *.
        rewrite alone_quiet; [exact Hk | discriminate | exact Hq].
      * intros Hst Hall Hn.
        pose proof (error_kept _ prev Hst Hall) as Hk.
        destruct (Hook.on_parts prev (job_parts buf d (c :: cs))) as [st [e|]];
          cbn [fst snd] in *.
        -- apply alone_error; [exact Hret | exact Hn|].
           destruct (on_catch_status st e); congruence.
        -- apply alone_error; [discriminate | exact Hn | exact Hk].
  - destruct (live_alone_run later h1 _ _ Hlater Hl1 Hph) as (-> & _ & _).
    now rewrite alone_returned.
Qed.

Lemma C5_terminal_status_kept_witness :
  let result_frame := jq "data: {'type':'result','data':{'score':80}}" ++ [LF; LF] in
  let after := [Hook.Settles 0 (Hook.Response 200 true);
                Hook.Settles 0 (Hook.Chunk result_frame)] in
  let chunks := [jq "data: {'type':'progress','stage':'complete'}" ++ [LF; LF];
                 jq "data: [DONE]" ++ [LF; LF]] in
  let later := [Hook.Settles 0 (Hook.Chunk (jq "data: {'type':'progress','stage':'complete'}" ++ [LF; LF]));
                Hook.Settles 0 (Hook.Chunk (jq "data: [DONE]" ++ [LF; LF]));
                Hook.Settles 0 Hook.EndOfStream] in
  let d := {| td_state := Utf8.init; td_bom_seen := true |} in
  let h1 := Hook.steps (Hook.step (Hook.steps Hook.mount [])
                          (Hook.Analyze (js "https://x.com") 5))
              after in
  (settles_only after /\ settles_only later
   /\ Hook.calls h1 !! Hook.fresh (Hook.steps Hook.mount [])
      = Some (Hook.Reading [] d)
   /\ own 0 later = map Hook.Chunk chunks ++ [Hook.EndOfStream]
   /\ Hook.status (Hook.state h1) = Hook.Complete
   /\ Forall (fun part => carries is_error part = false) (job_parts [] d chunks)
   /\ snd (Hook.on_parts (Hook.state h1) (job_parts [] d chunks)) = None
   /\ Forall quiet [Hook.EndOfStream])
  /\ Hook.status (Hook.state (Hook.steps h1 later)) = Hook.Complete.
Proof.
  cbv zeta.
  assert (H1 : settles_only
                 [Hook.Settles 0 (Hook.Response 200 true);
                  Hook.Settles 0
                    (Hook.Chunk (jq "data: {'type':'result','data':{'score':80}}"
                                   ++ [LF; LF]))])
    by (repeat constructor).
  assert (H2 : settles_only
                 [Hook.Settles 0 (Hook.Chunk (jq "data: {'type':'progress','stage':'complete'}" ++ [LF; LF]));
                  Hook.Settles 0 (Hook.Chunk (jq "data: [DONE]" ++ [LF; LF]));
                  Hook.Settles 0 Hook.EndOfStream])
    by (repeat constructor).
  assert (H3 : Hook.calls
                 (Hook.steps
                    (Hook.step (Hook.steps Hook.mount [])
                       (Hook.Analyze (js "https://x.com") 5))
                    [Hook.Settles 0 (Hook.Response 200 true);
                     Hook.Settles 0
                       (Hook.Chunk (jq "data: {'type':'result','data':{'score':80}}"
                                      ++ [LF; LF]))])
               !! Hook.fresh (Hook.steps Hook.mount [])
               = Some (Hook.Reading [] {| td_state := Utf8.init;
                                          td_bom_seen := true |}))
    by (vm_compute; reflexivity).
  assert (H6 : Forall (fun part => carries is_error part = false)
                 (job_parts [] {| td_state := Utf8.init; td_bom_seen := true |}
                    [jq "data: {'type':'progress','stage':'complete'}" ++ [LF; LF];
                     jq "data: [DONE]" ++ [LF; LF]]))
    by (vm_compute; repeat constructor).
  assert (H8 : Forall quiet [Hook.EndOfStream]) by (repeat constructor).
  split.
  - split; [exact H1|]. split; [exact H2|].
    split; [exact H3|]. split; [reflexivity|].
    split; [vm_compute; reflexivity|]. split; [exact H6|].
    split; [vm_compute; reflexivity | exact H8].
  - pose proof (C5_terminal_status_kept [] _ _ (js "https://x.com") 5 H1 H2) as H.
    cbv zeta in H. rewrite H3 in H.
    apply (proj1 (H [jq "data: {'type':'progress','stage':'complete'}" ++ [LF; LF];
                     jq "data: [DONE]" ++ [LF; LF]]
                    [Hook.EndOfStream] eq_refl));
      [vm_compute; reflexivity | exact H6 | vm_compute; reflexivity | exact H8].
Defined.

(** ** What the gateway forwards of a line *)

(** C9, as stated, fails: the gateway forwards the text [toString] decoded
    from the bytes, encoded anew.  A line whose bytes are no UTF-8, here a
    JSON string that holds the byte FF, parses and goes out with EF BF BD
    in its place.  And the reducer does not pass over every value of no
    known type: the line [null] is forwarded, and makes the reducer throw,
    which ends the call in status Error. *)
Lemma C9_bytes_encoded_anew :
  let line := [34; 255; 34] in
  let null_frame := js "data: null" ++ [LF; LF] in
  Json.parse (trim (Buffer_toString line)) = Some (Json.Str [0xFFFD])
  /\ Route.queue (Route.controller (Route.run [Route.StdoutData (line ++ [LF])]))
     = [js "data: " ++ [34; 239; 191; 189; 34] ++ [LF; LF]]
  /\ js "data: " ++ [34; 239; 191; 189; 34] ++ [LF; LF]
     <> js "data: " ++ line ++ [LF; LF]
  /\ Route.queue (Route.controller
                    (Route.run [Route.StdoutData (js "null" ++ [LF])]))
     = [null_frame]
  /\ Hook.state (Hook.steps Hook.mount
                   [Hook.Analyze (js "https://x.com") 5;
                    Hook.Settles 0 (Hook.Response 200 true);
                    Hook.Settles 0 (Hook.Chunk null_frame)])
     = {| Hook.status := Hook.Error;
          Hook.progressSteps := [];
          Hook.currentStage := Hook.text "Starting analysis...";
          Hook.result := None;
          Hook.error :=
            Some (Json.Str
                    (js "Cannot read properties of null (reading 'type')")) |}.
Proof. vm_compute. repeat split; try reflexivity. discriminate. Qed.

(** C9, amended.  A line of ASCII bytes at the start of the buffer, ended
    by its line feed, whose trimmed text parses as JSON, is forwarded with
    the very bytes of the trimmed line between [data: ] and the blank line,
    after one call of [JSON.parse] whose value is dropped.  In general the
    payload is the trimmed text of the line as decoded, encoded anew,
    whatever value it parses to: nothing looks at the value and nothing is
    serialized from it.  In the reducer a value other than null that is of
    no known type leaves the state as it is; null makes the reducer throw,
    and the catch block sets the status Error. *)
Theorem C9_payload_forwarded (s : Route.Supervisor) (line : bytes)
    (v : Json.value) :
  Route.closed (Route.controller s) = false ->
  Route.uncaught s = false ->
  Route.buffer s = [] ->
  ascii_bytes line -> one_line line ->
  Json.parse (trim line) = Some v ->
  Route.handle s (Route.StdoutData (line ++ [LF])) =
    {| Route.buffer := [];
       Route.controller :=
         {| Route.queue :=
              Route.queue (Route.controller s) ++
                [js "data: " ++ trim line ++ [LF; LF]];
            Route.closed := false |};
       Route.parse_calls := Route.parse_calls s ++ [trim line];
       Route.uncaught := false |}
  /\ (forall (s' : Route.Supervisor) (text : jsstr) (v' : Json.value),
        Route.closed (Route.controller s') = false ->
        Json.parse (trim text) = Some v' ->
        Route.on_line s' text =
          {| Route.buffer := Route.buffer s';
             Route.controller :=
               {| Route.queue :=
                    Route.queue (Route.controller s') ++
                      [TextEncoder_encode (js "data: " ++ trim text ++ [LF; LF])];
                  Route.closed := false |};
             Route.parse_calls := Route.parse_calls s' ++ [trim text];
             Route.uncaught := Route.uncaught s' |})
  /\ (forall prev,
        (v <> Json.Null ->
         Hook.is_text (prop v (js "type")) "progress" = false ->
         is_result v = false ->
         is_error v = false ->
         Hook.apply_event prev v = inl prev)
        /\ Hook.apply_event prev Json.Null
           = inr (TypeError
                    (js "Cannot read properties of null (reading 'type')"))
        /\ Hook.status
             (Hook.on_catch prev
                (TypeError
                   (js "Cannot read properties of null (reading 'type')")))
           = Hook.Error).
Proof.
  intros Hopen Hun Hbuf Hascii Hline Hparse.
  assert (Text : forall (s' : Route.Supervisor) (text : jsstr) (v' : Json.value),
            Route.closed (Route.controller s') = false ->
            Json.parse (trim text) = Some v' ->
            Route.on_line s' text =
              {| Route.buffer := Route.buffer s';
                 Route.controller :=
                   {| Route.queue :=
                        Route.queue (Route.controller s') ++
                          [TextEncoder_encode
                             (js "data: " ++ trim text ++ [LF; LF])];
                      Route.closed := false |};
                 Route.parse_calls := Route.parse_calls s' ++ [trim text];
                 Route.uncaught := Route.uncaught s' |}).
  { intros s' text v' Ho Hp. unfold Route.on_line.
    assert (Hne : trim text <> []).
    { intros E. rewrite E in Hp. vm_compute in Hp. discriminate. }
    rewrite bool_decide_eq_false_2 by exact Hne.
    rewrite try_forward_open by exact Ho. rewrite Hp. reflexivity. }
  split; [|split; [exact Text|]].
  - unfold Route.handle. rewrite Hun. unfold Route.on_stdout_data.
    assert (Ha : ascii_bytes (line ++ [LF])).
    { apply Forall_app. split; [exact Hascii|].
      unfold LF. repeat constructor; lia. }
    rewrite (Buffer_toString_ascii _ Ha), on_text_frames, Hbuf.
    cbn [app]. unfold frames, leftover.
    replace (line ++ [LF]) with (line ++ [LF] ++ []) by reflexivity.
    rewrite (split_free [] line []) by exact Hline.
    change (split [LF] []) with [@nil Z].
    change (pop [line; []]) with ([line], Some (@nil Z)).
    cbn [fst snd nullish fold_left].
    rewrite (Text s line v Hopen Hparse).
    unfold set_buffer.
    cbn [Route.controller Route.parse_calls Route.uncaught].
    rewrite Hun, encode_ascii; [reflexivity|].
    apply Forall_app. split.
    + change (js "data: ") with [100; 97; 116; 97; 58; 32].
      repeat constructor; lia.
    + apply Forall_app. split; [now apply Forall_trim|].
      unfold LF. repeat constructor; lia.
  - intros prev. split; [|split].
    + intros Hnull Hp Hr He. unfold Hook.apply_event.
      unfold is_result, is_error in *.
      destruct v; try congruence; rewrite Hp, Hr, He; reflexivity.
    + reflexivity.
    + unfold Hook.on_catch. rewrite bool_decide_eq_false_2; [reflexivity|].
      intros H. vm_compute in H. discriminate.
Qed.

Lemma C9_payload_forwarded_witness :
  (Route.closed (Route.controller Route.start) = false
   /\ Route.uncaught Route.start = false
   /\ Route.buffer Route.start = []
   /\ ascii_bytes (js "  42 ") /\ one_line (js "  42 ")
   /\ Json.parse (trim (js "  42 ")) = Some (Json.Num 42 0))
  /\ Route.handle Route.start (Route.StdoutData (js "  42 " ++ [LF])) =
       {| Route.buffer := [];
          Route.controller :=
            {| Route.queue := [js "data: " ++ trim (js "  42 ") ++ [LF; LF]];
               Route.closed := false |};
          Route.parse_calls := [trim (js "  42 ")];
          Route.uncaught := false |}
  /\ (forall prev, Hook.apply_event prev (Json.Num 42 0) = inl prev).
Proof.
  assert (Ha : ascii_bytes (js "  42 "))
    by (vm_compute; repeat constructor; discriminate).
  assert (Hl : one_line (js "  42 "))
    by (vm_compute; repeat constructor; discriminate).
  split; [repeat split; try assumption; reflexivity|].
  destruct (C9_payload_forwarded Route.start (js "  42 ") (Json.Num 42 0)
              eq_refl eq_refl eq_refl Ha Hl eq_refl) as (A & _ & C).
  split; [exact A|].
  intros prev. apply (proj1 (C prev));
    [discriminate | reflexivity | reflexivity | reflexivity].
Defined.

(** ** The whole bridge on the runs of the specification *)

(** The worker prints two progress records and a result; the gateway
    frames them; the hook, reading the stream in two chunks cut inside a
    frame, ends Complete with two steps in order and the result. *)
Example end_to_end_happy_path :
  let worker :=
    [Route.StdoutData (jq "{'type':'progress','stage':'domain'}" ++ [LF]
                         ++ jq "{'type':'progress','stage':'page',");
     Route.StdoutData (jq "'detail':'https://x.com/a'}" ++ [LF]
                         ++ jq "{'type':'result','data':{'score':80}}" ++ [LF]);
     Route.Close] in
  let wire := Route.outbound (Route.run worker) in
  let h := Hook.steps Hook.mount
             [Hook.Analyze (js "https://x.com") 5;
              Hook.Settles 0 (Hook.Response 200 true);
              Hook.Settles 0 (Hook.Chunk (firstn 40 wire));
              Hook.Settles 0 (Hook.Chunk (skipn 40 wire));
              Hook.Settles 0 Hook.EndOfStream] in
  Hook.status (Hook.state h) = Hook.Complete
  /\ map Hook.label (Hook.progressSteps (Hook.state h))
     = [Hook.text "Checking domain strategy"; Hook.text "Analyzing: x.com/a"]
  /\ Hook.result (Hook.state h) = Some (Json.Obj [(js "score", Json.Num 80 0)])
  /\ Hook.error (Hook.state h) = None.
Proof. vm_compute. auto. Qed.

(** The worker cannot be spawned: the hook reads the one Error frame and
    ends in status Error. *)
Example end_to_end_spawn_failure :
  let wire := Route.outbound
                (Route.run [Route.SpawnError (js "spawn /usr/bin/python3 ENOENT");
                            Route.Close]) in
  let h := Hook.steps Hook.mount
             [Hook.Analyze (js "https://x.com") 5;
              Hook.Settles 0 (Hook.Response 200 true);
              Hook.Settles 0 (Hook.Chunk wire);
              Hook.Settles 0 Hook.EndOfStream] in
  Hook.status (Hook.state h) = Hook.Error
  /\ Hook.error (Hook.state h)
     = Some (Json.Str (js "spawn /usr/bin/python3 ENOENT"))
  /\ Hook.result (Hook.state h) = None.
Proof. vm_compute. auto. Qed.

(** [reset] while loading: the state is the initial one and what still
    settles for the abandoned call does not touch it. *)
Example reset_during_load :
  let h := Hook.steps Hook.mount
             [Hook.Analyze (js "https://x.com") 5;
              Hook.Settles 0 (Hook.Response 200 true);
              Hook.Reset;
              Hook.Settles 0
                (Hook.Chunk (jq "data: {'type':'progress','stage':'domain'}"
                               ++ [LF; LF]))] in
  Hook.state h = Hook.INITIAL_STATE.
Proof. vm_compute. reflexivity. Qed.

(** * Further properties *)

(** ** Trimming *)

Lemma trimStart_suffix (s : jsstr) : exists p, s = p ++ trimStart s.
Proof.
  induction s as [|c s [p IH]]; [now exists []|].
  cbn [trimStart]. destruct (is_white_space c).
  - exists (c :: p). cbn [app]. now rewrite <- IH.
  - now exists [].
Qed.

Lemma trimStart_head (s : jsstr) (c : Z) (r : jsstr) :
  trimStart s = c :: r -> is_white_space c = false.
Proof.
  induction s as [|x s IH]; cbn [trimStart]; [discriminate|].
  destruct (is_white_space x) eqn:E; [exact IH|]. now intros [= <- _].
Qed.

Lemma trimStart_fixed (c : Z) (r : jsstr) :
  is_white_space c = false -> trimStart (c :: r) = c :: r.
Proof. intros H. cbn [trimStart]. now rewrite H. Qed.

(** A text that starts and ends with something other than white space is
    its own trimmed form. *)
Lemma trim_fixed (t : jsstr) (c d : Z) (r r' : jsstr) :
  t = c :: r -> rev t = d :: r' ->
  is_white_space c = false -> is_white_space d = false ->
  trim t = t.
Proof.
  intros Ht Hr Hc Hd. unfold trim, trimEnd.
  rewrite Ht at 1. rewrite trimStart_fixed by exact Hc. rewrite <- Ht.
  rewrite Hr, trimStart_fixed by exact Hd. rewrite <- Hr.
  apply rev_involutive.
Qed.

Lemma trim_shape (s : jsstr) :
  trim s = [] \/
  exists c d r r', trim s = c :: r /\ rev (trim s) = d :: r'
                   /\ is_white_space c = false /\ is_white_space d = false.
Proof.
  unfold trim, trimEnd.
  destruct (trimStart (rev (trimStart s))) as [|d w'] eqn:Ew; [now left|].
  right. pose proof (trimStart_head _ _ _ Ew) as Hd.
  destruct (trimStart_suffix (rev (trimStart s))) as [p Hp].
  rewrite Ew in Hp.
  assert (Hu : trimStart s = rev (d :: w') ++ rev p).
  { rewrite <- rev_app_distr, <- Hp. symmetry. apply rev_involutive. }
  destruct (rev (d :: w')) as [|c r] eqn:Er.
  { apply (f_equal (@length Z)) in Er. rewrite length_rev in Er. discriminate. }
  exists c, d, r, w'. repeat split.
  - rewrite <- Er. apply rev_involutive.
  - cbn [app] in Hu. now apply trimStart_head in Hu.
  - exact Hd.
Qed.

Lemma trim_idempotent (s : jsstr) : trim (trim s) = trim s.
Proof.
  destruct (trim_shape s) as [->|(c & d & r & r' & H1 & H2 & Hc & Hd)];
    [reflexivity|].
  now apply (trim_fixed _ c d r r').
Qed.

(** ** [JSON.stringify] and [JSON.parse] of a string *)

Lemma hex_hex_digit (d : Z) : 0 <= d < 16 -> Json.hex (Json.hex_digit d) = Some d.
Proof.
  intros H. assert (E : In d [0;1;2;3;4;5;6;7;8;9;10;11;12;13;14;15]).
  { cbn. lia. }
  cbn in E. decompose [or] E; subst; try reflexivity; contradiction.
Qed.

Lemma nibbles (c : Z) :
  0 <= c < 0x10000 ->
  4096 * Z.shiftr c 12 + 256 * Z.land (Z.shiftr c 8) 15
  + 16 * Z.land (Z.shiftr c 4) 15 + Z.land c 15 = c
  /\ 0 <= Z.shiftr c 12 < 16.
Proof.
  intros H. rewrite !Z.shiftr_div_pow2 by lia.
  change 15 with (Z.ones 4). rewrite !Z.land_ones by lia.
  change (2 ^ 12) with 4096. change (2 ^ 8) with 256. change (2 ^ 4) with 16.
  Z.div_mod_to_equations. lia.
Qed.

Lemma string_body_plain (c : Z) (r : jsstr) :
  c <> 34 -> c <> 92 -> 0x20 <= c ->
  Json.string_body (c :: r) =
    match Json.string_body r with
    | Some (t, r') => Some (c :: t, r')
    | None => None
    end.
Proof.
  intros H1 H2 H3. cbn [Json.string_body].
  destruct (Z.eqb_spec c 34); [contradiction|].
  destruct (Z.eqb_spec c 92); [contradiction|].
  destruct (Z.ltb_spec c 32); [lia | reflexivity].
Qed.

Lemma string_body_unicode (c : Z) (r : jsstr) :
  0 <= c < 0x10000 ->
  Json.string_body (Json.unicode_escape c ++ r) =
    match Json.string_body r with
    | Some (t, r') => Some (c :: t, r')
    | None => None
    end.
Proof.
  intros Hc. destruct (nibbles c Hc) as [E H3].
  unfold Json.unicode_escape. change (js "\u") with [92; 117].
  cbn [app Json.string_body].
  change (92 =? 34) with false. change (92 =? 92) with true.
  change (117 =? 34) with false. change (117 =? 92) with false.
  change (117 =? 47) with false. change (117 =? 98) with false.
  change (117 =? 102) with false. change (117 =? 110) with false.
  change (117 =? 114) with false. change (117 =? 116) with false.
  change (117 =? 117) with true. cbv iota.
  assert (N : forall x, 0 <= Z.land x 15 < 16).
  { intros x. change 15 with (Z.ones 4). rewrite Z.land_ones by lia.
    apply Z.mod_pos_bound. lia. }
  rewrite !hex_hex_digit by (auto || lia).
  destruct (Json.string_body r) as [[t r']|]; [|reflexivity].
  now rewrite E.
Qed.

(** What [JSON.stringify] writes for a string, [JSON.parse] reads back as
    that string. *)
Lemma string_body_quote (n : nat) :
  forall s rest, (length s <= n)%nat -> code_units s ->
    Json.string_body (Json.quote_body s ++ 34 :: rest) = Some (s, rest).
Proof.
  induction n as [|n IH]; intros s rest Hn Hs.
  - destruct s; [reflexivity | simpl in Hn; lia].
  - destruct s as [|c s]; [reflexivity|].
    apply Forall_cons_iff in Hs as [Hc Hs]. simpl in Hn.
    assert (IHs : forall rest', Json.string_body (Json.quote_body s ++ 34 :: rest')
                                = Some (s, rest'))
      by (intros; apply IH; [lia | exact Hs]).
    cbn [Json.quote_body].
    destruct (Z.eqb_spec c 8) as [->|N8].
    { change (js "\b") with [92; 98]. cbn [app]. cbn [Json.string_body].
      cbn. now rewrite IHs. }
    destruct (Z.eqb_spec c 9) as [->|N9].
    { change (js "\t") with [92; 116]. cbn [app]. cbn [Json.string_body].
      cbn. now rewrite IHs. }
    destruct (Z.eqb_spec c 10) as [->|N10].
    { change (js "\n") with [92; 110]. cbn [app]. cbn [Json.string_body].
      cbn. now rewrite IHs. }
    destruct (Z.eqb_spec c 12) as [->|N12].
    { change (js "\f") with [92; 102]. cbn [app]. cbn [Json.string_body].
      cbn. now rewrite IHs. }
    destruct (Z.eqb_spec c 13) as [->|N13].
    { change (js "\r") with [92; 114]. cbn [app]. cbn [Json.string_body].
      cbn. now rewrite IHs. }
    destruct (Z.eqb_spec c 34) as [->|N34].
    { cbn [app]. cbn [Json.string_body]. cbn. now rewrite IHs. }
    destruct (Z.eqb_spec c 92) as [->|N92].
    { change (js "\\") with [92; 92]. cbn [app]. cbn [Json.string_body].
      cbn. now rewrite IHs. }
    destruct (Z.ltb_spec c 32) as [L|L].
    { rewrite <- app_assoc, string_body_unicode by exact Hc. now rewrite IHs. }
    destruct (Utf8.is_high c) eqn:Hh.
    + destruct s as [|d s'].
      * rewrite string_body_unicode by exact Hc. reflexivity.
      * destruct (Utf8.is_low d) eqn:Hl.
        -- apply Forall_cons_iff in Hs as [Hd Hs'].
           unfold Utf8.is_low, Utf8.in_range in Hl.
           apply andb_true_iff in Hl as [Hl1 Hl2].
           apply Z.leb_le in Hl1. apply Z.leb_le in Hl2.
           cbn [app].
           rewrite string_body_plain by lia.
           rewrite string_body_plain by lia.
           rewrite IH; [reflexivity | simpl in Hn; lia | exact Hs'].
        -- rewrite <- app_assoc, string_body_unicode by exact Hc.
           now rewrite IHs.
    + destruct (Utf8.is_low c) eqn:Hl.
      * rewrite <- app_assoc, string_body_unicode by exact Hc. now rewrite IHs.
      * cbn [app]. rewrite string_body_plain by lia. now rewrite IHs.
Qed.

Lemma parse_value_quote (fuel : nat) (x : jsstr) :
  Json.parse_value (S fuel) (34 :: x) =
    match Json.string_body x with
    | Some (t, r) => Some (Json.Str t, r)
    | None => None
    end.
Proof. reflexivity. Qed.

Lemma parse_value_string (fuel : nat) (s rest : jsstr) :
  code_units s ->
  Json.parse_value (S fuel) (Json.stringify_string s ++ rest)
  = Some (Json.Str s, rest).
Proof.
  intros Hs. unfold Json.stringify_string.
  rewrite <- !app_assoc. cbn [app].
  rewrite parse_value_quote, (string_body_quote (length s)) by auto.
  reflexivity.
Qed.

(** [JSON.parse(JSON.stringify(s))] is [s]. *)
Lemma parse_stringify_string (s : jsstr) :
  code_units s -> Json.parse (Json.stringify_string s) = Some (Json.Str s).
Proof.
  intros Hs. unfold Json.parse.
  replace (Json.stringify_string s) with (Json.stringify_string s ++ [])
    at 2 by apply app_nil_r.
  replace (2 * length (Json.stringify_string s) + 2)%nat
    with (S (2 * length (Json.stringify_string s) + 1)) by lia.
  rewrite parse_value_string by exact Hs. reflexivity.
Qed.

Lemma parse_members_unfold (fuel : nat) (x : jsstr) :
  Json.parse_members (S fuel) (34 :: x) =
    match Json.string_body x with
    | Some (k, r1) =>
        match Json.skip_ws r1 with
        | 58 :: r2 =>
            match Json.parse_value fuel r2 with
            | Some (v, r3) =>
                match Json.skip_ws r3 with
                | 125 :: r' => Some ([(k, v)], r')
                | 44 :: r' =>
                    match Json.parse_members fuel r' with
                    | Some (ms, r'') => Some ((k, v) :: ms, r'')
                    | None => None
                    end
                | _ => None
                end
            | None => None
            end
        | _ => None
        end
    | None => None
    end.
Proof. reflexivity. Qed.

Lemma parse_members_last (fuel : nat) (k value : jsstr) (v : Json.value)
    (r : jsstr) :
  code_units k ->
  Json.parse_value fuel value = Some (v, 125 :: r) ->
  Json.parse_members (S fuel) (Json.stringify_string k ++ 58 :: value)
  = Some ([(k, v)], r).
Proof.
  intros Hk Hv. unfold Json.stringify_string. rewrite <- !app_assoc.
  cbn [app]. rewrite parse_members_unfold.
  rewrite (string_body_quote (length k)) by auto.
  change (Json.skip_ws (58 :: value)) with (58 :: value). cbv iota.
  rewrite Hv. reflexivity.
Qed.

Lemma parse_members_more (fuel : nat) (k value : jsstr) (v : Json.value)
    (r r' : jsstr) (ms : list (jsstr * Json.value)) :
  code_units k ->
  Json.parse_value fuel value = Some (v, 44 :: r) ->
  Json.parse_members fuel r = Some (ms, r') ->
  Json.parse_members (S fuel) (Json.stringify_string k ++ 58 :: value)
  = Some ((k, v) :: ms, r').
Proof.
  intros Hk Hv Hms. unfold Json.stringify_string. rewrite <- !app_assoc.
  cbn [app]. rewrite parse_members_unfold.
  rewrite (string_body_quote (length k)) by auto.
  change (Json.skip_ws (58 :: value)) with (58 :: value). cbv iota.
  rewrite Hv. change (Json.skip_ws (44 :: r)) with (44 :: r). cbv iota.
  rewrite Hms. reflexivity.
Qed.

Lemma parse_value_object (fuel : nat) (x : jsstr) :
  Json.parse_value (S fuel) (123 :: 34 :: x) =
    match Json.parse_members fuel (34 :: x) with
    | Some (ms, r') => Some (Json.Obj ms, r')
    | None => None
    end.
Proof. reflexivity. Qed.

(** The gateway's error event parses to an object with its type and its
    message. *)
Lemma parse_error_event (message : jsstr) :
  code_units message ->
  Json.parse (Route.error_event message)
  = Some (Json.Obj [(js "type", Json.Str (js "error"));
                    (js "message", Json.Str message)]).
Proof.
  intros Hm. unfold Json.parse.
  set (text := Route.error_event message).
  assert (F : exists fuel, (2 * length text + 2 = S (S (S (S fuel))))%nat).
  { exists (2 * length text - 2)%nat.
    assert (1 <= length text)%nat; [|lia].
    unfold text, Route.error_event.
    change (js "{") with [123]. cbn [app length]. lia. }
  destruct F as [fuel ->].
  assert (E : Json.parse_value (S (S (S (S fuel)))) text
              = Some (Json.Obj [(js "type", Json.Str (js "error"));
                                (js "message", Json.Str message)], [])).
  { unfold text, Route.error_event.
    change (js "{") with [123]. change (js ":") with [58].
    change (js ",") with [44]. change (js "}") with [125].
    assert (Ht : code_units (js "type")) by (vm_compute; repeat constructor; discriminate).
    assert (Hg : code_units (js "message")) by (vm_compute; repeat constructor; discriminate).
    assert (He : code_units (js "error")) by (vm_compute; repeat constructor; discriminate).
    cbn [app].
    set (tail := Json.stringify_string (js "message") ++ 58 ::
                   Json.stringify_string message ++ [125]).
    assert (Ptail : Json.parse_members (S (S fuel)) tail
                    = Some ([(js "message", Json.Str message)], [])).
    { unfold tail. apply (parse_members_last _ _ _ _ _ Hg).
      now apply parse_value_string. }
    assert (Pall : Json.parse_members (S (S (S fuel)))
                     (Json.stringify_string (js "type") ++ 58 ::
                        Json.stringify_string (js "error") ++ 44 :: tail)
                   = Some ([(js "type", Json.Str (js "error"));
                            (js "message", Json.Str message)], [])).
    { apply (parse_members_more _ _ _ _ tail _ _ Ht); [|exact Ptail].
      now apply parse_value_string. }
    unfold Json.stringify_string at 1. cbn [app].
    rewrite parse_value_object.
    unfold Json.stringify_string at 1 in Pall. cbn [app] in Pall.
    unfold tail in *. now rewrite Pall. }
  rewrite E. reflexivity.
Qed.

(** ** What every state of the hook satisfies *)

Section Preserved.

Variable P : Hook.AnalysisState -> Prop.
Hypothesis P_event : forall prev st event,
  P prev -> Hook.apply_event prev event = inl st -> P st.
Hypothesis P_catch : forall prev e, P prev -> P (Hook.on_catch prev e).

Lemma on_part_preserved (prev st : Hook.AnalysisState) (part : jsstr) :
  P prev -> Hook.on_part prev part = inl st -> P st.
Proof.
  intros H. unfold Hook.on_part.
  destruct (Hook.payload part) as [raw|]; [|now intros [= <-]].
  destruct (Json.parse raw) as [event|]; [|now intros [= <-]].
  now apply P_event.
Qed.

Lemma on_parts_preserved (parts : list jsstr) (prev : Hook.AnalysisState) :
  P prev -> P (fst (Hook.on_parts prev parts)).
Proof.
  revert prev. induction parts as [|p parts IH]; intros prev H;
    cbn [Hook.on_parts]; [exact H|].
  destruct (Hook.on_part prev p) as [st|e] eqn:E; [|exact H].
  apply IH. now apply (on_part_preserved prev st p).
Qed.

Lemma resume_preserved (ph : Hook.Phase) (prev : Hook.AnalysisState)
    (s : Hook.Settle) :
  P prev -> P (snd (Hook.resume ph prev s)).
Proof.
  intros H. destruct ph, s; cbn [Hook.resume snd]; auto.
  - destruct (_ && _); cbn [snd]; auto.
  - unfold Hook.on_chunk.
    destruct (TextDecoder_decode_stream decoder value) as [d' text].
    destruct (pop _) as [parts last].
    pose proof (on_parts_preserved parts prev H) as Hc.
    destruct (Hook.on_parts prev parts) as [st [e|]]; cbn [fst snd] in *; auto.
Qed.

End Preserved.

Lemma coherent_event (prev st : Hook.AnalysisState) (event : Json.value) :
  coherent prev /\ Hook.status prev <> Hook.Idle ->
  Hook.apply_event prev event = inl st ->
  coherent st /\ Hook.status st <> Hook.Idle.
Proof.
  unfold Hook.apply_event, coherent.
  destruct event; try discriminate; reducer_branches;
    intros [Hc Hn] [= <-]; cbn [Hook.status Hook.result Hook.error] in *;
    try (split; [|discriminate]);
    try (split; [|exact Hn]);
    try discriminate;
    try (match goal with
         | H : _ && _ = true |- _ => apply andb_true_iff in H as [_ H]; exact H
         end);
    try (destruct (Hook.status prev); [congruence | exact Hc | exact Hc | exact Hc]).
Qed.

Lemma coherent_catch (prev : Hook.AnalysisState) (e : exn) :
  coherent prev /\ Hook.status prev <> Hook.Idle ->
  coherent (Hook.on_catch prev e) /\ Hook.status (Hook.on_catch prev e) <> Hook.Idle.
Proof.
  intros H. unfold Hook.on_catch. destruct (bool_decide _); [exact H|].
  unfold coherent. cbn [Hook.status Hook.error]. split; discriminate.
Qed.

Lemma settle_all_aborted (h : Hook.Hook) (call : nat) (s : Hook.Settle) :
  all_aborted h ->
  all_aborted (Hook.step h (Hook.Settles call s))
  /\ Hook.state (Hook.step h (Hook.Settles call s)) = Hook.state h.
Proof.
  intros Ha. split.
  - intros j Hj. destruct (settle_frame h call s) as (_ & -> & _).
    apply Ha. now apply settle_calls in Hj.
  - destruct (Hook.calls h !! call) as [ph|] eqn:E.
    + apply settle_aborted, Ha. now rewrite E.
    + cbn [Hook.step]. now rewrite E.
Qed.

Lemma settles_all_aborted (inputs : list Hook.Input) (h : Hook.Hook) :
  settles_only inputs -> all_aborted h ->
  all_aborted (Hook.steps h inputs)
  /\ Hook.state (Hook.steps h inputs) = Hook.state h.
Proof.
  unfold Hook.steps. revert h.
  induction inputs as [|i inputs IH]; intros h Hall Ha; cbn [fold_left]; [auto|].
  apply Forall_cons_iff in Hall as [Hi Hall].
  destruct i as [| |call s]; try contradiction.
  destruct (settle_all_aborted h call s Ha) as [Ha' Hst].
  destruct (IH _ Hall Ha') as [H1 H2]. split; [exact H1 | congruence].
Qed.

Lemma reset_all_aborted (h : Hook.Hook) :
  consistent h -> all_aborted (Hook.step h Hook.Reset).
Proof.
  intros Hh j Hj. cbn [Hook.step Hook.aborted Hook.calls] in *.
  now apply abort_current_stale.
Qed.

(** The invariant of the hook: its bookkeeping is consistent, its state is
    coherent, and while it is idle no call of [analyze] is live. *)
Lemma invariant_step (h : Hook.Hook) (i : Hook.Input) :
  consistent h /\ coherent (Hook.state h)
  /\ (Hook.status (Hook.state h) = Hook.Idle -> all_aborted h) ->
  consistent (Hook.step h i) /\ coherent (Hook.state (Hook.step h i))
  /\ (Hook.status (Hook.state (Hook.step h i)) = Hook.Idle ->
      all_aborted (Hook.step h i)).
Proof.
  intros (Hh & Hc & Hi). split; [now apply consistent_step|].
  destruct i as [url maxPages| |call s].
  - cbn [Hook.step Hook.state]. split; [now split | discriminate].
  - split; [reflexivity|]. intros _. now apply reset_all_aborted.
  - destruct (Hook.calls h !! call) as [ph|] eqn:E;
      [|cbn [Hook.step]; rewrite E; auto].
    destruct (decide (call ∈ Hook.aborted h)) as [Hab|Hlive].
    + rewrite settle_aborted by exact Hab. split; [exact Hc|].
      intros Hidle j Hj. destruct (settle_frame h call s) as (_ & -> & _).
      apply (Hi Hidle). now apply settle_calls in Hj.
    + assert (Hn : Hook.status (Hook.state h) <> Hook.Idle).
      { intros Hidle. apply Hlive, (Hi Hidle). now rewrite E. }
      pose proof (resume_preserved
                    (fun st => coherent st /\ Hook.status st <> Hook.Idle)
                    coherent_event coherent_catch ph (Hook.state h)
                    (Hook.delivered h call s) (conj Hc Hn)) as [H1 H2].
      cbn [Hook.step]. rewrite E.
      destruct (Hook.resume ph (Hook.state h) (Hook.delivered h call s))
        as [ph' st]. cbn [Hook.state snd] in *. split; [exact H1|].
      intros Hidle. contradiction.
Qed.

Lemma invariant_steps (inputs : list Hook.Input) (h : Hook.Hook) :
  consistent h /\ coherent (Hook.state h)
  /\ (Hook.status (Hook.state h) = Hook.Idle -> all_aborted h) ->
  consistent (Hook.steps h inputs) /\ coherent (Hook.state (Hook.steps h inputs))
  /\ (Hook.status (Hook.state (Hook.steps h inputs)) = Hook.Idle ->
      all_aborted (Hook.steps h inputs)).
Proof.
  unfold Hook.steps. revert h.
  induction inputs as [|i inputs IH]; intros h H; cbn [fold_left]; [exact H|].
  apply IH, invariant_step, H.
Qed.

Lemma invariant_mount :
  consistent Hook.mount /\ coherent (Hook.state Hook.mount)
  /\ (Hook.status (Hook.state Hook.mount) = Hook.Idle -> all_aborted Hook.mount).
Proof.
  split; [apply consistent_mount|]. split; [reflexivity|].
  intros _ j [ph Hj]. cbn in Hj. now rewrite lookup_empty in Hj.
Qed.

Lemma reachable_coherent (inputs : list Hook.Input) :
  coherent (Hook.state (Hook.steps Hook.mount inputs)).
Proof. apply (invariant_steps inputs Hook.mount invariant_mount). Qed.

(** ** The steps of a job *)

Lemma starts_refl {A} (a : list A) : starts a a.
Proof. exists []. now rewrite app_nil_r. Qed.

Lemma starts_event (steps0 : list Hook.ProgressStep)
    (prev st : Hook.AnalysisState) (event : Json.value) :
  starts steps0 (Hook.progressSteps prev) ->
  Hook.apply_event prev event = inl st ->
  starts steps0 (Hook.progressSteps st).
Proof.
  unfold Hook.apply_event.
  destruct event; try discriminate; reducer_branches;
    intros [c Hc] [= <-]; cbn [Hook.progressSteps];
    try (now exists c).
  all: rewrite Hc, <- app_assoc; eexists; reflexivity.
Qed.

Lemma starts_catch (steps0 : list Hook.ProgressStep)
    (prev : Hook.AnalysisState) (e : exn) :
  starts steps0 (Hook.progressSteps prev) ->
  starts steps0 (Hook.progressSteps (Hook.on_catch prev e)).
Proof. unfold Hook.on_catch. now destruct (bool_decide _). Qed.

Lemma starts_length {A} (a b : list A) : starts a b -> (length a <= length b)%nat.
Proof. intros [c ->]. rewrite length_app. lia. Qed.

Lemma progress_mono (n m : nat) :
  (n <= m)%nat -> Page.progress n <= Page.progress m.
Proof.
  intros H. unfold Page.progress.
  apply Z.min_le_compat_l, Z.div_le_mono; lia.
Qed.

Lemma settle_starts (steps0 : list Hook.ProgressStep) (h : Hook.Hook)
    (call : nat) (s : Hook.Settle) :
  starts steps0 (Hook.progressSteps (Hook.state h)) ->
  starts steps0
    (Hook.progressSteps (Hook.state (Hook.step h (Hook.Settles call s)))).
Proof.
  intros H. cbn [Hook.step].
  destruct (Hook.calls h !! call) as [ph|]; [|exact H].
  pose proof (resume_preserved
                (fun st => starts steps0 (Hook.progressSteps st))
                (starts_event steps0) (starts_catch steps0) ph (Hook.state h)
                (Hook.delivered h call s) H) as Hr.
  now destruct (Hook.resume ph (Hook.state h) (Hook.delivered h call s)).
Qed.

Lemma settles_starts (inputs : list Hook.Input) (steps0 : list Hook.ProgressStep)
    (h : Hook.Hook) :
  settles_only inputs ->
  starts steps0 (Hook.progressSteps (Hook.state h)) ->
  starts steps0 (Hook.progressSteps (Hook.state (Hook.steps h inputs))).
Proof.
  unfold Hook.steps. revert h.
  induction inputs as [|i inputs IH]; intros h Hall H; cbn [fold_left]; [exact H|].
  apply Forall_cons_iff in Hall as [Hi Hall].
  destruct i as [| |call s]; try contradiction.
  apply IH; [exact Hall|]. now apply settle_starts.
Qed.

(** ** The hook, whatever it is fed *)

(** X1.  The transport decoder of the hook is chunk invariant for every
    cut of the bytes, also inside a character: two ways of cutting the
    same response body into chunks leave the call of [analyze] in the same
    phase, with the same buffer and decoder, and the hook in the same
    state. *)
Theorem X1_transport_chunk_invariance (buf : jsstr) (d : TextDecoder)
    (prev : Hook.AnalysisState) (chunks chunks' : list bytes) :
  chunks <> [] -> chunks' <> [] -> concat chunks = concat chunks' ->
  read_chunks (Hook.Reading buf d) prev chunks
  = read_chunks (Hook.Reading buf d) prev chunks'.
Proof.
  intros H1 H2 E.
  destruct chunks as [|c cs]; [contradiction|].
  destruct chunks' as [|c' cs']; [contradiction|].
  now rewrite !read_chunks_concat, E.
Qed.

Lemma X1_transport_chunk_invariance_witness :
  let whole := jq "data: {'type':'progress','stage':'" ++ [0xC3; 0xA9]
               ++ jq "'}" ++ [LF; LF] in
  let cut := [jq "data: {'type':'progress','stage':'" ++ [0xC3];
              [0xA9] ++ jq "'}" ++ [LF]; [LF]] in
  ([whole] <> [] /\ cut <> [] /\ concat [whole] = concat cut)
  /\ read_chunks (Hook.Reading [] TextDecoder_new) Hook.STARTING [whole]
     = read_chunks (Hook.Reading [] TextDecoder_new) Hook.STARTING cut.
Proof.
  cbv zeta.
  split; [repeat split; discriminate|].
  apply X1_transport_chunk_invariance; [discriminate | discriminate | reflexivity].
Defined.

(** X2.  Whatever calls of [analyze] and [reset] were made and whatever
    settled for them, the state of the hook is coherent: idle only as the
    initial state, loading with no result and no error, complete with a
    truthy result, in error with an error recorded. *)
Theorem X2_reachable_state_coherent (inputs : list Hook.Input) :
  coherent (Hook.state (Hook.steps Hook.mount inputs)).
Proof. apply reachable_coherent. Qed.

(** X3.  After [reset] the state is the initial one and stays so whatever
    then settles, for any call of [analyze] made before: all their signals
    are aborted. *)
Theorem X3_reset_is_final (before after : list Hook.Input) :
  settles_only after ->
  Hook.state (Hook.steps (Hook.step (Hook.steps Hook.mount before) Hook.Reset)
                after)
  = Hook.INITIAL_STATE.
Proof.
  intros Hall.
  assert (Hh : consistent (Hook.steps Hook.mount before))
    by apply consistent_steps, consistent_mount.
  destruct (settles_all_aborted after _ Hall (reset_all_aborted _ Hh)) as [_ ->].
  reflexivity.
Qed.

Lemma X3_reset_is_final_witness :
  let before := [Hook.Analyze (js "https://a.example") 5;
                 Hook.Settles 0 (Hook.Response 200 true)] in
  let after := [Hook.Settles 0
                  (Hook.Chunk (jq "data: {'type':'progress','stage':'domain'}"
                                 ++ [LF; LF]));
                Hook.Settles 0 Hook.EndOfStream] in
  settles_only after
  /\ Hook.state (Hook.steps (Hook.step (Hook.steps Hook.mount before) Hook.Reset)
                   after)
     = Hook.INITIAL_STATE.
Proof.
  cbv zeta.
  assert (H : settles_only
                [Hook.Settles 0
                   (Hook.Chunk (jq "data: {'type':'progress','stage':'domain'}"
                                  ++ [LF; LF]));
                 Hook.Settles 0 Hook.EndOfStream])
    by (repeat constructor).
  split; [exact H|].
  apply (X3_reset_is_final
           [Hook.Analyze (js "https://a.example") 5;
            Hook.Settles 0 (Hook.Response 200 true)] _ H).
Defined.

(** X4.  As long as neither [analyze] nor [reset] is called, the list of
    progress steps only grows at its end, whatever settles: no step is
    removed or changed, and the value of the progress bar never goes
    back. *)
Theorem X4_progress_only_grows (h : Hook.Hook) (inputs : list Hook.Input) :
  settles_only inputs ->
  starts (Hook.progressSteps (Hook.state h))
    (Hook.progressSteps (Hook.state (Hook.steps h inputs)))
  /\ Page.progress (length (Hook.progressSteps (Hook.state h)))
     <= Page.progress
          (length (Hook.progressSteps (Hook.state (Hook.steps h inputs)))).
Proof.
  intros Hall.
  assert (H : starts (Hook.progressSteps (Hook.state h))
                (Hook.progressSteps (Hook.state (Hook.steps h inputs))))
    by (apply settles_starts; [exact Hall | apply starts_refl]).
  split; [exact H|]. now apply progress_mono, starts_length.
Qed.

Lemma X4_progress_only_grows_witness :
  let h := Hook.steps Hook.mount
             [Hook.Analyze (js "https://a.example") 5;
              Hook.Settles 0 (Hook.Response 200 true);
              Hook.Settles 0
                (Hook.Chunk (jq "data: {'type':'progress','stage':'domain'}"
                               ++ [LF; LF]))] in
  let inputs := [Hook.Settles 0
                   (Hook.Chunk (jq "data: {'type':'progress','stage':'robots'}"
                                  ++ [LF; LF] ++ jq "data: {'type':'error'}"
                                  ++ [LF; LF]))] in
  settles_only inputs
  /\ starts (Hook.progressSteps (Hook.state h))
       (Hook.progressSteps (Hook.state (Hook.steps h inputs)))
  /\ Page.progress (length (Hook.progressSteps (Hook.state h)))
     <= Page.progress
          (length (Hook.progressSteps (Hook.state (Hook.steps h inputs)))).
Proof.
  cbv zeta.
  assert (H : settles_only
                [Hook.Settles 0
                   (Hook.Chunk (jq "data: {'type':'progress','stage':'robots'}"
                                  ++ [LF; LF] ++ jq "data: {'type':'error'}"
                                  ++ [LF; LF]))])
    by (repeat constructor).
  split; [exact H|].
  apply (X4_progress_only_grows _ _ H).
Defined.

(** ** Progress events of the declared type *)

Lemma assoc_Forall (P : jsstr -> Prop) (k v : jsstr) (l : list (jsstr * jsstr)) :
  Forall (fun kv => P (snd kv)) l -> Hook.assoc k l = Some v -> P v.
Proof.
  induction 1 as [|[k' v'] l Hkv _ IH]; cbn [Hook.assoc]; [discriminate|].
  destruct (bool_decide (k' = k)); [now intros [= <-] | exact IH].
Qed.

Lemma STAGE_LABELS_short :
  Forall (fun kv : jsstr * jsstr => (length (snd kv) <= 66)%nat) Hook.STAGE_LABELS.
Proof. unfold Hook.STAGE_LABELS. repeat constructor; vm_compute; lia. Qed.

Lemma label_of_text (s : jsstr) :
  exists label, Hook.label_of (Json.Str s) = inl label
    /\ (s ∉ Hook.Object_prototype ->
        exists t, label = Hook.Val (Json.Str t)
                  /\ (length t <= Nat.max 66 (length s))%nat).
Proof.
  unfold Hook.label_of. cbn [Hook.to_key].
  destruct (Hook.assoc s Hook.STAGE_LABELS) as [l|] eqn:E.
  - eexists. split; [reflexivity|]. intros _. exists l. split; [reflexivity|].
    pose proof (assoc_Forall (fun v => (length v <= 66)%nat) s l _
                  STAGE_LABELS_short E) as Hs.
    cbv beta in Hs. lia.
  - destruct (bool_decide (s ∈ Hook.Object_prototype)) eqn:Ep.
    + eexists. split; [reflexivity|]. intros Hn.
      apply bool_decide_eq_true in Ep. contradiction.
    + eexists. split; [reflexivity|]. intros _. exists s. split; [reflexivity|lia].
Qed.

Lemma stageLabel_typed (s : jsstr) (detail : option jsstr) :
  exists label,
    Hook.stageLabel (Json.Str s) (option_map Json.Str detail) = inl label
    /\ (s ∉ Hook.Object_prototype ->
        exists t, label = Hook.Val (Json.Str t)
                  /\ (length t <= Nat.max 66 (length s))%nat).
Proof.
  unfold Hook.stageLabel.
  destruct (Hook.is_text (Some (Json.Str s)) "page"
            && truthy (option_map Json.Str detail)) eqn:E;
    [|apply label_of_text].
  destruct detail as [d|]; [|now rewrite andb_false_r in E].
  cbn [option_map]. eexists. split; [reflexivity|]. intros _.
  eexists. split; [reflexivity|].
  rewrite length_app. unfold slice_to. rewrite length_firstn.
  change (length (js "Analyzing: ")) with 11%nat. lia.
Qed.

(** X5.  A progress event of the declared type, whose stage and detail
    are strings or absent, never makes the reducer throw: it appends
    exactly one step, which keeps the stage and the detail of the event,
    sets the stage under way to the label of that step, and leaves status,
    result and error as they were.  Unless the stage is the name of a
    member of [Object.prototype], the label is a string, of at most 66 code
    units or the length of the stage. *)
Theorem X5_typed_progress_event (prev : Hook.AnalysisState)
    (event : Json.value) (s : jsstr) (detail : option jsstr) :
  prop event (js "type") = Some (Json.Str (js "progress")) ->
  nullish_value (prop event (js "stage")) (Json.Str []) = Json.Str s ->
  prop event (js "detail") = option_map Json.Str detail ->
  exists label,
    Hook.apply_event prev event =
      inl {| Hook.status := Hook.status prev;
             Hook.progressSteps :=
               Hook.progressSteps prev ++
                 [{| Hook.stage := Json.Str s;
                     Hook.detail := option_map Json.Str detail;
                     Hook.label := label |}];
             Hook.currentStage := label;
             Hook.result := Hook.result prev;
             Hook.error := Hook.error prev |}
    /\ (s ∉ Hook.Object_prototype ->
        exists t, label = Hook.Val (Json.Str t)
                  /\ (length t <= Nat.max 66 (length s))%nat).
Proof.
  intros Hty Hstage Hdetail.
  destruct (stageLabel_typed s detail) as (label & El & Hl).
  exists label. split; [|exact Hl].
  destruct event; try discriminate Hty.
  unfold Hook.apply_event. rewrite Hty, Hstage, Hdetail, El.
  unfold Hook.is_text. now rewrite bool_decide_eq_true_2.
Qed.

Lemma X5_typed_progress_event_witness :
  let event := Json.Obj [(js "type", Json.Str (js "progress"));
                         (js "stage", Json.Str (js "page"));
                         (js "detail", Json.Str (js "https://a.example/blog"))] in
  (prop event (js "type") = Some (Json.Str (js "progress"))
   /\ nullish_value (prop event (js "stage")) (Json.Str []) = Json.Str (js "page")
   /\ prop event (js "detail")
      = option_map Json.Str (Some (js "https://a.example/blog")))
  /\ exists label,
       Hook.apply_event Hook.STARTING event =
         inl {| Hook.status := Hook.status Hook.STARTING;
                Hook.progressSteps :=
                  Hook.progressSteps Hook.STARTING ++
                    [{| Hook.stage := Json.Str (js "page");
                        Hook.detail :=
                          option_map Json.Str (Some (js "https://a.example/blog"));
                        Hook.label := label |}];
                Hook.currentStage := label;
                Hook.result := Hook.result Hook.STARTING;
                Hook.error := Hook.error Hook.STARTING |}
       /\ (js "page" ∉ Hook.Object_prototype ->
           exists t, label = Hook.Val (Json.Str t)
                     /\ (length t <= Nat.max 66 (length (js "page")))%nat).
Proof.
  cbv zeta. split; [repeat split|].
  apply (X5_typed_progress_event Hook.STARTING _ (js "page")
           (Some (js "https://a.example/blog"))); reflexivity.
Defined.

(** ** From the worker to the hook *)

Lemma split_one_from (sep' f cur : jsstr) :
  one_line f -> split_from (LF :: sep') O cur f = [rev cur ++ f].
Proof.
  unfold one_line. revert cur. induction f as [|c f IH]; intros cur Hf.
  - cbn. now rewrite app_nil_r.
  - apply Forall_cons_iff in Hf as [Hc Hf].
    rewrite split_from_cons. cbn [startsWith].
    destruct (Z.eqb_spec LF c) as [E|_]; [congruence|]. cbn [andb].
    rewrite IH by exact Hf. cbn [rev]. now rewrite <- app_assoc.
Qed.

Lemma split_one (sep' f : jsstr) : one_line f -> split (LF :: sep') f = [f].
Proof. intros Hf. unfold split. now rewrite split_one_from. Qed.

Lemma split_segments (sep' : jsstr) (fs : list jsstr) (tail : jsstr) :
  Forall one_line fs ->
  split (LF :: sep') (concat (map (fun f => f ++ LF :: sep') fs) ++ tail)
  = fs ++ split (LF :: sep') tail.
Proof.
  induction 1 as [|f fs Hf _ IH]; [reflexivity|].
  cbn [map concat]. rewrite <- !app_assoc.
  change (LF :: sep' ++ concat (map (fun f0 => f0 ++ LF :: sep') fs) ++ tail)
    with ((LF :: sep') ++ concat (map (fun f0 => f0 ++ LF :: sep') fs) ++ tail).
  rewrite split_free by exact Hf. now rewrite IH.
Qed.

Lemma split_printed (lines : list jsstr) :
  Forall one_line lines -> split [LF] (printed lines) = lines ++ [[]].
Proof.
  intros H. unfold printed.
  rewrite <- (app_nil_r (concat _)). now rewrite (split_segments [] lines []).
Qed.

Lemma one_line_data (t : jsstr) : one_line t -> one_line (js "data: " ++ t).
Proof.
  intros H. apply Forall_app. split; [|exact H].
  unfold js. cbn. repeat (constructor; [discriminate|]). constructor.
Qed.

Lemma frames_concat (ts : list jsstr) :
  concat (map Route.frame ts)
  = concat (map (fun f => f ++ [LF; LF]) (map (app (js "data: ")) ts)).
Proof.
  rewrite map_map. apply (f_equal (@concat Z)), map_ext. intros t.
  unfold Route.frame. now rewrite app_assoc.
Qed.

(** The frames the gateway writes, as the hook cuts them. *)
Lemma split_wire (ts : list jsstr) (done : bool) :
  Forall one_line ts ->
  split [LF; LF] (concat (map Route.frame ts) ++ (if done then Route.DONE else []))
  = (map (app (js "data: ")) ts ++ (if done then [js "data: [DONE]"] else []))
    ++ [[]].
Proof.
  intros H. rewrite frames_concat.
  rewrite (split_segments [LF] (map (app (js "data: ")) ts)).
  - rewrite <- app_assoc. f_equal. now destruct done.
  - apply Forall_map. eapply Forall_impl; [exact H|]. apply one_line_data.
Qed.

Lemma payload_frame (t : jsstr) :
  one_line t -> trim t = t -> t <> js "[DONE]" ->
  Hook.payload (js "data: " ++ t) = Some t.
Proof.
  intros Hl Ht Hd. unfold Hook.payload.
  rewrite split_one by now apply one_line_data.
  cbn [find_first]. rewrite startsWith_app. unfold slice_from.
  change (skipn 6 (js "data: " ++ t)) with t. rewrite Ht.
  now rewrite bool_decide_eq_false_2.
Qed.

Lemma on_parts_frames (ts : list jsstr) (prev : Hook.AnalysisState) :
  Forall (fun t => one_line t /\ trim t = t /\ t <> js "[DONE]") ts ->
  Hook.on_parts prev (map (app (js "data: ")) ts)
  = apply_events prev (decoded ts).
Proof.
  intros H. revert prev. induction H as [|t ts (Hl & Ht & Hd) _ IH]; intros prev;
    [reflexivity|].
  cbn [map Hook.on_parts]. unfold decoded. cbn [flat_map]. fold (decoded ts).
  unfold Hook.on_part. rewrite payload_frame by assumption.
  destruct (Json.parse t) as [event|]; cbn [app apply_events]; [|apply IH].
  destruct (Hook.apply_event prev event); [apply IH | reflexivity].
Qed.

Lemma decode_stream_ascii (bs : bytes) :
  ascii_bytes bs -> snd (TextDecoder_decode_stream TextDecoder_new bs) = bs.
Proof.
  intros H. unfold TextDecoder_decode_stream, TextDecoder_new.
  cbn [td_state td_bom_seen]. rewrite run_ascii by exact H.
  destruct H as [|b bs Hb H]; [reflexivity|].
  cbn [strip_bom]. destruct (Z.eqb_spec b 65279) as [E|_]; [lia|].
  cbn [snd]. apply utf16s_ascii. now constructor.
Qed.

Lemma ascii_frame (t : jsstr) : ascii_bytes t -> ascii_bytes (Route.frame t).
Proof.
  intros H. unfold Route.frame, ascii_bytes. rewrite !Forall_app.
  repeat split; [|exact H|]; vm_compute; repeat constructor; discriminate.
Qed.

Lemma ascii_frames (ts : list jsstr) :
  Forall ascii_bytes ts -> ascii_bytes (concat (map Route.frame ts)).
Proof.
  induction 1 as [|t ts Ht _ IH]; [constructor|].
  cbn [map concat]. apply Forall_app. split; [now apply ascii_frame | exact IH].
Qed.

Lemma ascii_DONE : ascii_bytes Route.DONE.
Proof. vm_compute. repeat constructor; discriminate. Qed.

(** What the hook makes of the frames of the gateway, read as one chunk by
    a call that has read nothing yet. *)
Lemma hook_reads (ts : list jsstr) (done : bool) (prev : Hook.AnalysisState) :
  Forall ascii_bytes ts ->
  Forall (fun t => one_line t /\ trim t = t /\ t <> js "[DONE]") ts ->
  snd (Hook.on_chunk [] TextDecoder_new prev
         (concat (map Route.frame ts) ++ (if done then Route.DONE else [])))
  = apply_all prev (decoded ts).
Proof.
  intros Ha Ht. rewrite on_chunk_frames. cbv zeta.
  rewrite decode_stream_ascii
    by (apply Forall_app; split;
        [now apply ascii_frames | destruct done; [apply ascii_DONE | constructor]]).
  cbn [app]. unfold frames.
  rewrite split_wire
    by (eapply Forall_impl; [exact Ht | now intros t (H & _)]).
  rewrite pop_snoc. cbn [fst].
  rewrite on_parts_app, on_parts_frames by exact Ht.
  unfold apply_all.
  destruct (apply_events prev (decoded ts)) as [st [e|]]; [reflexivity|].
  now destruct done.
Qed.

(** ** What the gateway writes *)

Lemma on_text_open (s : Route.Supervisor) (text : jsstr) :
  Route.closed (Route.controller s) = false ->
  Route.closed (Route.controller (Route.on_text s text)) = false
  /\ Route.uncaught (Route.on_text s text) = Route.uncaught s.
Proof.
  intros Ho. rewrite on_text_frames. cbn [set_buffer Route.controller Route.uncaught].
  now apply on_lines_open.
Qed.

(** The output events of the worker are read as one text, when the bytes
    are ASCII. *)
Lemma handle_output (evs : list Route.ChildEvent) (s : Route.Supervisor)
    (t : jsstr) :
  output_only evs -> ascii_bytes (stdout_of evs) ->
  Route.closed (Route.controller s) = false -> Route.uncaught s = false ->
  fold_left Route.handle evs (Route.on_text s t)
  = Route.on_text s (t ++ stdout_of evs).
Proof.
  intros Hall Ha Ho Hu. revert t.
  induction evs as [|ev evs IH]; intros t; cbn [fold_left stdout_of flat_map].
  - now rewrite app_nil_r.
  - apply Forall_cons_iff in Hall as [Hev Hall].
    destruct (on_text_open s t Ho) as [_ Hu'].
    unfold Route.handle at 2. rewrite Hu', Hu.
    destruct ev as [c|c| |m]; try contradiction.
    + cbn [stdout_of flat_map] in Ha. apply Forall_app in Ha as [Hc Ha].
      unfold Route.on_stdout_data.
      rewrite (Buffer_toString_ascii c Hc), on_text_app, (IH Hall Ha).
      fold (stdout_of evs). now rewrite app_assoc.
    + cbn [stdout_of flat_map app] in Ha. now rewrite (IH Hall Ha).
Qed.

Lemma run_output (evs : list Route.ChildEvent) :
  output_only evs -> ascii_bytes (stdout_of evs) ->
  Route.run evs = Route.on_text Route.start (stdout_of evs).
Proof.
  intros Hall Ha. unfold Route.run.
  change Route.start with (Route.on_text Route.start []) at 1.
  now rewrite handle_output.
Qed.

Lemma parses_nil : parses [] = false.
Proof. reflexivity. Qed.

Lemma records_cons (l : jsstr) (lines : list jsstr) :
  records (l :: lines)
  = (match Json.parse (trim l) with Some _ => [trim l] | None => [] end)
    ++ records lines.
Proof.
  unfold records. cbn [map List.filter]. unfold parses at 1.
  now destruct (Json.parse (trim l)).
Qed.

Lemma on_lines_records (lines : list jsstr) (s : Route.Supervisor) :
  Route.closed (Route.controller s) = false ->
  Route.controller (fold_left Route.on_line lines s)
  = {| Route.queue :=
         Route.queue (Route.controller s)
         ++ map (fun t => TextEncoder_encode (Route.frame t)) (records lines);
       Route.closed := false |}.
Proof.
  revert s. induction lines as [|l lines IH]; intros s Ho.
  - cbn [fold_left records map List.filter]. rewrite app_nil_r.
    destruct (Route.controller s) as [q c]. cbn in Ho. now subst c.
  - cbn [fold_left]. rewrite records_cons. unfold Route.on_line.
    destruct (bool_decide (trim l = [])) eqn:E.
    + apply bool_decide_eq_true in E. rewrite E.
      change (Json.parse []) with (@None Json.value). now apply IH.
    + rewrite try_forward_open by exact Ho.
      rewrite IH by reflexivity. cbn [Route.controller Route.queue].
      destruct (Json.parse (trim l)); cbn [map app];
        now rewrite <- app_assoc.
Qed.

Lemma ascii_printed (lines : list jsstr) :
  Forall ascii_bytes lines -> ascii_bytes (printed lines).
Proof.
  induction 1 as [|l lines Hl _ IH]; [constructor|].
  unfold printed. cbn [map concat]. rewrite <- app_assoc.
  apply Forall_app. split; [exact Hl|]. constructor; [unfold LF; lia | exact IH].
Qed.

(** The worker prints its lines, each ended by a line feed, and exits:
    the gateway writes the frames of the records among them, then the
    sentinel, and closes the stream. *)
Lemma gateway_writes (lines : list jsstr) (evs : list Route.ChildEvent) :
  Forall ascii_bytes lines -> Forall one_line lines ->
  output_only evs -> stdout_of evs = printed lines ->
  Route.controller (Route.run (evs ++ [Route.Close]))
  = {| Route.queue :=
         map (fun t => TextEncoder_encode (Route.frame t)) (records lines)
         ++ [TextEncoder_encode Route.DONE];
       Route.closed := true |}.
Proof.
  intros Ha Hl Hall Hout.
  assert (Hb : ascii_bytes (stdout_of evs))
    by (rewrite Hout; now apply ascii_printed).
  unfold Route.run. rewrite fold_left_app. fold (Route.run evs).
  rewrite (run_output evs Hall Hb), Hout, on_text_frames.
  cbn [Route.start Route.buffer app]. unfold frames, leftover.
  rewrite split_printed, pop_snoc by exact Hl. cbn [fst snd nullish].
  cbn [fold_left]. unfold Route.handle.
  set (s := fold_left Route.on_line lines Route.start).
  assert (Hc : Route.controller s
               = {| Route.queue :=
                      map (fun t => TextEncoder_encode (Route.frame t))
                        (records lines);
                    Route.closed := false |})
    by (unfold s; now rewrite on_lines_records).
  assert (Hu : Route.uncaught s = false)
    by (unfold s; now destruct (on_lines_open lines Route.start eq_refl)).
  cbn [set_buffer Route.uncaught]. rewrite Hu.
  unfold Route.on_close. cbn [Route.buffer].
  change (trim []) with (@nil Z). rewrite bool_decide_eq_true_2 by reflexivity.
  change (Route.controller (set_buffer s [])) with (Route.controller s).
  rewrite Hc. reflexivity.
Qed.

(** ** The error event of the gateway, as the hook reads it *)

Lemma hex_digit_ascii (d : Z) :
  0 <= d < 16 -> 0 <= Json.hex_digit d < 128 /\ Json.hex_digit d <> LF.
Proof.
  intros H. unfold Json.hex_digit, LF. destruct (Z.ltb_spec d 10); lia.
Qed.

Lemma unicode_escape_ascii (c : Z) :
  0 <= c < 0x10000 ->
  Forall (fun x => 0 <= x < 128 /\ x <> LF) (Json.unicode_escape c).
Proof.
  intros Hc. destruct (nibbles c Hc) as [_ H3].
  assert (N : forall x, 0 <= Z.land x 15 < 16).
  { intros x. change 15 with (Z.ones 4). rewrite Z.land_ones by lia.
    apply Z.mod_pos_bound. lia. }
  unfold Json.unicode_escape. change (js "\u") with [92; 117]. cbn [app].
  do 2 (constructor; [unfold LF; lia|]).
  repeat (constructor; [apply hex_digit_ascii; auto|]).
  constructor.
Qed.

Lemma quote_body_ascii (s : jsstr) :
  ascii_bytes s -> Forall (fun x => 0 <= x < 128 /\ x <> LF) (Json.quote_body s).
Proof.
  induction 1 as [|c s Hc Hs IH]; [constructor|].
  assert (P : forall a b, Forall (fun x => 0 <= x < 128 /\ x <> LF)
                            ([a; b] ++ Json.quote_body s) <->
                          (0 <= a < 128 /\ a <> LF) /\ (0 <= b < 128 /\ b <> LF)).
  { intros a b. cbn [app]. rewrite !Forall_cons_iff. tauto. }
  cbn [Json.quote_body].
  destruct (Z.eqb_spec c 8); [apply (P 92 98); unfold LF; lia|].
  destruct (Z.eqb_spec c 9); [apply (P 92 116); unfold LF; lia|].
  destruct (Z.eqb_spec c 10); [apply (P 92 110); unfold LF; lia|].
  destruct (Z.eqb_spec c 12); [apply (P 92 102); unfold LF; lia|].
  destruct (Z.eqb_spec c 13); [apply (P 92 114); unfold LF; lia|].
  destruct (Z.eqb_spec c 34); [apply (P 92 34); unfold LF; lia|].
  destruct (Z.eqb_spec c 92); [apply (P 92 92); unfold LF; lia|].
  destruct (Z.ltb_spec c 32).
  { apply Forall_app. split; [apply unicode_escape_ascii; lia | exact IH]. }
  unfold Utf8.is_high, Utf8.is_low, Utf8.in_range.
  destruct (Z.leb_spec 0xD800 c); [lia|].
  destruct (Z.leb_spec 0xDC00 c); [lia|]. cbn [andb].
  constructor; [unfold LF; lia | exact IH].
Qed.

Lemma stringify_ascii (s : jsstr) :
  ascii_bytes s ->
  Forall (fun x => 0 <= x < 128 /\ x <> LF) (Json.stringify_string s).
Proof.
  intros H. unfold Json.stringify_string. rewrite !Forall_app.
  repeat split; [|now apply quote_body_ascii|];
    (constructor; [unfold LF; lia | constructor]).
Qed.

Lemma ascii_code_units (s : jsstr) : ascii_bytes s -> code_units s.
Proof.
  intros H. eapply Forall_impl; [exact H|]. intros c Hc. cbv beta in Hc. lia.
Qed.

Lemma error_event_wire (message : jsstr) :
  ascii_bytes message ->
  ascii_bytes (Route.error_event message)
  /\ one_line (Route.error_event message)
  /\ trim (Route.error_event message) = Route.error_event message
  /\ Route.error_event message <> js "[DONE]".
Proof.
  intros H.
  assert (A : Forall (fun x => 0 <= x < 128 /\ x <> LF)
                (Route.error_event message)).
  { unfold Route.error_event. rewrite !Forall_app.
    repeat split; try (apply stringify_ascii; try exact H);
      vm_compute; repeat constructor; discriminate. }
  split; [eapply Forall_impl; [exact A|]; now intros c [Hc _]|].
  split; [eapply Forall_impl; [exact A|]; now intros c [_ Hc]|].
  split.
  - apply (trim_fixed _ 123 125
             (Json.stringify_string (js "type") ++ js ":"
                ++ Json.stringify_string (js "error") ++ js ","
                ++ Json.stringify_string (js "message") ++ js ":"
                ++ Json.stringify_string message ++ js "}")
             (rev (js "{" ++ Json.stringify_string (js "type") ++ js ":"
                     ++ Json.stringify_string (js "error") ++ js ","
                     ++ Json.stringify_string (js "message") ++ js ":"
                     ++ Json.stringify_string message)));
      [reflexivity | | reflexivity | reflexivity].
    unfold Route.error_event. change (js "}") with [125].
    rewrite !app_assoc. now rewrite rev_app_distr.
  - unfold Route.error_event. change (js "{") with [123].
    change (js "[DONE]") with [91; 68; 79; 78; 69; 93]. discriminate.
Qed.

Lemma apply_error_event (prev : Hook.AnalysisState) (event : Json.value)
    (message : jsstr) :
  prop event (js "type") = Some (Json.Str (js "error")) ->
  prop event (js "message") = Some (Json.Str message) ->
  Hook.apply_event prev event =
    inl {| Hook.status := Hook.Error;
           Hook.progressSteps := Hook.progressSteps prev;
           Hook.currentStage := Hook.currentStage prev;
           Hook.result := Hook.result prev;
           Hook.error := Some (Json.Str message) |}.
Proof.
  intros Hty Hm. destruct event; try discriminate Hty.
  unfold Hook.apply_event. rewrite Hty, Hm. reflexivity.
Qed.

Lemma hook_reads_error (message : jsstr) (done : bool)
    (prev : Hook.AnalysisState) :
  ascii_bytes message ->
  snd (Hook.on_chunk [] TextDecoder_new prev
         (Route.frame (Route.error_event message)
          ++ (if done then Route.DONE else [])))
  = {| Hook.status := Hook.Error;
       Hook.progressSteps := Hook.progressSteps prev;
       Hook.currentStage := Hook.currentStage prev;
       Hook.result := Hook.result prev;
       Hook.error := Some (Json.Str message) |}.
Proof.
  intros H. destruct (error_event_wire message H) as (Ha & Hl & Ht & Hd).
  pose proof (hook_reads [Route.error_event message] done prev) as R.
  cbn [map concat] in R. rewrite app_nil_r in R.
  rewrite R by (constructor; [auto | constructor]).
  unfold apply_all, decoded. cbn [flat_map].
  rewrite parse_error_event by now apply ascii_code_units.
  cbn [app apply_events].
  now rewrite (apply_error_event prev _ message).
Qed.

(** ** The outbound stream, chunk by chunk *)

Lemma enqueue_queue (c c' : Route.Controller) (chunk : bytes) :
  Route.enqueue c chunk = Some c' ->
  Route.queue c' = Route.queue c ++ [chunk] /\ Route.closed c = false.
Proof.
  unfold Route.enqueue. destruct (Route.closed c); [discriminate|].
  now intros [= <-].
Qed.

Lemma close_queue (c c' : Route.Controller) :
  Route.close c = Some c' -> Route.queue c' = Route.queue c.
Proof.
  unfold Route.close. destruct (Route.closed c); [discriminate|].
  now intros [= <-].
Qed.

Lemma try_forward_wire (s : Route.Supervisor) (text : jsstr) :
  trim text = text -> text <> [] ->
  Forall wire_chunk (Route.queue (Route.controller s)) ->
  Forall wire_chunk (Route.queue (Route.controller (Route.try_forward s text))).
Proof.
  intros Ht Hn Hq. unfold Route.try_forward.
  destruct (Json.parse text) as [v|] eqn:Ep; [|exact Hq].
  cbn [Route.controller].
  destruct (Route.enqueue _ _) as [c|] eqn:E; [|exact Hq].
  apply enqueue_queue in E as [E _]. cbn [Route.controller] in *. rewrite E.
  apply Forall_app. split; [exact Hq|]. constructor; [|constructor].
  left. exists text. unfold parses. rewrite Ep. auto.
Qed.

Lemma on_line_wire (s : Route.Supervisor) (line : jsstr) :
  Forall wire_chunk (Route.queue (Route.controller s)) ->
  Forall wire_chunk (Route.queue (Route.controller (Route.on_line s line))).
Proof.
  intros Hq. unfold Route.on_line.
  destruct (bool_decide (trim line = [])) eqn:E; [exact Hq|].
  apply bool_decide_eq_false in E.
  apply try_forward_wire; [apply trim_idempotent | exact E | exact Hq].
Qed.

Lemma on_lines_wire (lines : list jsstr) (s : Route.Supervisor) :
  Forall wire_chunk (Route.queue (Route.controller s)) ->
  Forall wire_chunk
    (Route.queue (Route.controller (fold_left Route.on_line lines s))).
Proof.
  revert s. induction lines as [|l lines IH]; intros s Hq; cbn [fold_left];
    [exact Hq|].
  now apply IH, on_line_wire.
Qed.

Lemma finish_wire (s : Route.Supervisor) (chunk : bytes) :
  wire_chunk chunk ->
  Forall wire_chunk (Route.queue (Route.controller s)) ->
  Forall wire_chunk
    (Route.queue
       (Route.controller
          match Route.enqueue (Route.controller s) chunk with
          | None => Route.fail s
          | Some c =>
              match Route.close c with
              | None => Route.fail (Route.with_controller s c)
              | Some c' => Route.with_controller s c'
              end
          end)).
Proof.
  intros Hc Hq.
  destruct (Route.enqueue _ _) as [c|] eqn:E; [|exact Hq].
  apply enqueue_queue in E as [E _].
  assert (Hq' : Forall wire_chunk (Route.queue c)).
  { rewrite E. apply Forall_app. split; [exact Hq|]. constructor; [exact Hc | constructor]. }
  destruct (Route.close c) as [c'|] eqn:E'; [|exact Hq'].
  apply close_queue in E'. cbn [Route.with_controller Route.controller].
  now rewrite E'.
Qed.

Lemma handle_wire (s : Route.Supervisor) (ev : Route.ChildEvent) :
  Forall wire_chunk (Route.queue (Route.controller s)) ->
  Forall wire_chunk (Route.queue (Route.controller (Route.handle s ev))).
Proof.
  intros Hq. unfold Route.handle. destruct (Route.uncaught s); [exact Hq|].
  destruct ev as [c|c| |m].
  - unfold Route.on_stdout_data. rewrite on_text_frames.
    cbn [set_buffer Route.controller]. now apply on_lines_wire.
  - exact Hq.
  - unfold Route.on_close. apply finish_wire; [right; now left|].
    destruct (bool_decide (trim (Route.buffer s) = [])) eqn:E; [exact Hq|].
    apply bool_decide_eq_false in E.
    apply try_forward_wire; [apply trim_idempotent | exact E | exact Hq].
  - unfold Route.on_error. apply finish_wire; [|exact Hq].
    right. right. now exists m.
Qed.

(** Once the stream is closed, a handler leaves the controller as it is. *)
Lemma try_forward_closed (s : Route.Supervisor) (text : jsstr) :
  Route.closed (Route.controller s) = true ->
  Route.controller (Route.try_forward s text) = Route.controller s.
Proof.
  intros Hc. unfold Route.try_forward, Route.enqueue. cbn [Route.controller].
  rewrite Hc. now destruct (Json.parse text).
Qed.

Lemma on_lines_closed (lines : list jsstr) (s : Route.Supervisor) :
  Route.closed (Route.controller s) = true ->
  Route.controller (fold_left Route.on_line lines s) = Route.controller s.
Proof.
  revert s. induction lines as [|l lines IH]; intros s Hc; cbn [fold_left];
    [reflexivity|].
  assert (E : Route.controller (Route.on_line s l) = Route.controller s).
  { unfold Route.on_line. destruct (bool_decide _); [reflexivity|].
    now apply try_forward_closed. }
  rewrite IH by (now rewrite E). exact E.
Qed.

Lemma handle_closed (s : Route.Supervisor) (ev : Route.ChildEvent) :
  Route.closed (Route.controller s) = true ->
  Route.controller (Route.handle s ev) = Route.controller s.
Proof.
  intros Hc. unfold Route.handle. destruct (Route.uncaught s); [reflexivity|].
  destruct ev as [c|c| |m].
  - unfold Route.on_stdout_data. rewrite on_text_frames.
    cbn [set_buffer Route.controller]. now apply on_lines_closed.
  - reflexivity.
  - unfold Route.on_close.
    assert (E : Route.controller
                  (if bool_decide (trim (Route.buffer s) = []) then s
                   else Route.try_forward s (trim (Route.buffer s)))
                = Route.controller s)
      by (destruct (bool_decide _); [reflexivity | now apply try_forward_closed]).
    unfold Route.enqueue. rewrite E, Hc. exact E.
  - unfold Route.on_error, Route.enqueue. now rewrite Hc.
Qed.

Lemma handles_closed (evs : list Route.ChildEvent) (s : Route.Supervisor) :
  Route.closed (Route.controller s) = true ->
  Route.controller (fold_left Route.handle evs s) = Route.controller s.
Proof.
  revert s. induction evs as [|ev evs IH]; intros s Hc; cbn [fold_left];
    [reflexivity|].
  pose proof (handle_closed s ev Hc) as E.
  rewrite IH by (now rewrite E). exact E.
Qed.

(** X6.  On ASCII output the worker-output decoder of the gateway is chunk
    invariant: two runs in which the worker wrote the same bytes to its
    standard output, cut into data events in any way and with anything on
    its diagnostic channel in between, leave the gateway with the same
    buffer, the same chunks enqueued and the same calls of [JSON.parse]. *)
Theorem X6_worker_output_chunk_invariance (evs evs' : list Route.ChildEvent) :
  output_only evs -> output_only evs' ->
  ascii_bytes (stdout_of evs) -> stdout_of evs = stdout_of evs' ->
  Route.run evs = Route.run evs'.
Proof.
  intros H1 H2 Ha E.
  rewrite (run_output evs H1 Ha).
  rewrite (run_output evs' H2) by (now rewrite <- E).
  now rewrite E.
Qed.

Lemma X6_worker_output_chunk_invariance_witness :
  let evs := [Route.StdoutData (jq "{'type':'prog");
              Route.StderrData (js "crawling");
              Route.StdoutData (jq "ress','stage':'domain'}" ++ [LF])] in
  let evs' := [Route.StdoutData (jq "{'type':'progress','stage':'domain'}"
                                   ++ [LF])] in
  (output_only evs /\ output_only evs'
   /\ ascii_bytes (stdout_of evs) /\ stdout_of evs = stdout_of evs')
  /\ Route.run evs = Route.run evs'.
Proof.
  cbv zeta.
  assert (H1 : output_only [Route.StdoutData (jq "{'type':'prog");
                            Route.StderrData (js "crawling");
                            Route.StdoutData (jq "ress','stage':'domain'}"
                                                ++ [LF])])
    by (repeat constructor).
  assert (H2 : output_only [Route.StdoutData
                              (jq "{'type':'progress','stage':'domain'}"
                                 ++ [LF])])
    by (repeat constructor).
  assert (H3 : ascii_bytes
                 (stdout_of [Route.StdoutData (jq "{'type':'prog");
                             Route.StderrData (js "crawling");
                             Route.StdoutData (jq "ress','stage':'domain'}"
                                                 ++ [LF])]))
    by (vm_compute; repeat constructor; discriminate).
  split; [repeat split; assumption|].
  apply (X6_worker_output_chunk_invariance _ _ H1 H2 H3). reflexivity.
Defined.

(** X7.  Whatever the child process does, every chunk the gateway enqueues
    on the outbound stream is the frame of a trimmed, non-empty text that
    [JSON.parse] accepts, or the sentinel, or the frame of an error event:
    no raw line of the worker and no text that fails to parse reaches the
    client. *)
Theorem X7_only_frames_enqueued (evs : list Route.ChildEvent) :
  Forall wire_chunk (Route.queue (Route.controller (Route.run evs))).
Proof.
  unfold Route.run.
  assert (G : forall s, Forall wire_chunk (Route.queue (Route.controller s)) ->
              Forall wire_chunk
                (Route.queue (Route.controller (fold_left Route.handle evs s)))).
  { induction evs as [|ev evs IH]; intros s Hq; cbn [fold_left]; [exact Hq|].
    now apply IH, handle_wire. }
  apply G. constructor.
Qed.

(** X8.  Once the outbound stream is closed, by the close handler or by
    the error handler, no later event of the child adds a chunk or reopens
    it: the controller stays as it was. *)
Theorem X8_nothing_after_close (evs evs' : list Route.ChildEvent) :
  Route.closed (Route.controller (Route.run evs)) = true ->
  Route.controller (Route.run (evs ++ evs')) = Route.controller (Route.run evs).
Proof.
  intros Hc. unfold Route.run. rewrite fold_left_app.
  now apply handles_closed.
Qed.

Lemma X8_nothing_after_close_witness :
  let evs := [Route.StdoutData (jq "{'type':'progress'}" ++ [LF]); Route.Close] in
  let evs' := [Route.StdoutData (jq "{'type':'result'}" ++ [LF]);
               Route.SpawnError (js "late"); Route.Close] in
  Route.closed (Route.controller (Route.run evs)) = true
  /\ Route.controller (Route.run (evs ++ evs'))
     = Route.controller (Route.run evs).
Proof.
  cbv zeta.
  assert (H : Route.closed
                (Route.controller
                   (Route.run [Route.StdoutData (jq "{'type':'progress'}" ++ [LF]);
                               Route.Close])) = true)
    by (vm_compute; reflexivity).
  split; [exact H|].
  apply (X8_nothing_after_close _ _ H).
Defined.

(** ** End to end *)

Lemma records_wire (lines : list jsstr) :
  Forall ascii_bytes lines -> Forall one_line lines ->
  Forall ascii_bytes (records lines)
  /\ Forall (fun t => one_line t /\ trim t = t /\ t <> js "[DONE]")
       (records lines).
Proof.
  intros Ha Hl. unfold records.
  assert (G : Forall (fun t => parses t = true ->
                        ascii_bytes t
                        /\ one_line t /\ trim t = t /\ t <> js "[DONE]")
                (map trim lines)).
  { apply Forall_map, Forall_forall. intros l Hin Hp.
    rewrite Forall_forall in Ha, Hl.
    repeat split.
    - now apply Forall_trim, Ha.
    - now apply Forall_trim, Hl.
    - apply trim_idempotent.
    - intros E. rewrite E in Hp. discriminate Hp. }
  induction G as [|t ts Ht _ IH]; [split; constructor|].
  cbn [List.filter]. destruct (parses t) eqn:Ep; [|exact IH].
  destruct IH as [I1 I2]. destruct (Ht eq_refl) as (T1 & T2).
  split; constructor; assumption.
Qed.

Lemma decoded_records (lines : list jsstr) :
  decoded (records lines) = decoded (map trim lines).
Proof.
  unfold records, decoded.
  induction (map trim lines) as [|t ts IH]; [reflexivity|].
  cbn [List.filter flat_map]. unfold parses at 1.
  destruct (Json.parse t) eqn:E; cbn [flat_map app]; [|exact IH].
  now rewrite E, IH.
Qed.

Lemma encode_frames (ts : list jsstr) :
  Forall ascii_bytes ts ->
  concat (map (fun t => TextEncoder_encode (Route.frame t)) ts
          ++ [TextEncoder_encode Route.DONE])
  = concat (map Route.frame ts) ++ Route.DONE.
Proof.
  intros H. rewrite concat_app. cbn [concat]. rewrite app_nil_r.
  rewrite (encode_ascii Route.DONE) by apply ascii_DONE.
  f_equal. induction H as [|t ts Ht _ IH]; [reflexivity|].
  cbn [map concat]. now rewrite IH, encode_ascii by now apply ascii_frame.
Qed.

(** X9.  From the worker to the page.  The worker prints lines of ASCII
    text, each ended by a line feed, to its standard output, delivered in
    any data events with anything on the diagnostic channel in between,
    and exits.  Then the gateway streams the frames of the trimmed lines
    that parse as JSON, in order, followed by the sentinel; and the hook,
    reading that stream cut into chunks in any way, ends in the state its
    reducer gives on the values of those lines applied in order from the
    state it was in, up to the first that makes it throw, which the
    [catch] block then records. *)
Theorem X9_worker_to_hook (lines : list jsstr) (evs : list Route.ChildEvent)
    (chunks : list bytes) (prev : Hook.AnalysisState) :
  Forall ascii_bytes lines -> Forall one_line lines ->
  output_only evs -> stdout_of evs = printed lines ->
  concat chunks = Route.outbound (Route.run (evs ++ [Route.Close])) ->
  Route.outbound (Route.run (evs ++ [Route.Close]))
  = concat (map Route.frame (records lines)) ++ Route.DONE
  /\ snd (read_chunks (Hook.Reading [] TextDecoder_new) prev chunks)
     = apply_all prev (decoded (map trim lines)).
Proof.
  intros Ha Hl Hall Hout Hc.
  destruct (records_wire lines Ha Hl) as [Ra Rw].
  assert (E : Route.outbound (Route.run (evs ++ [Route.Close]))
              = concat (map Route.frame (records lines)) ++ Route.DONE).
  { unfold Route.outbound.
    rewrite (gateway_writes lines evs Ha Hl Hall Hout). cbn [Route.queue].
    now apply encode_frames. }
  split; [exact E|]. rewrite E in Hc.
  destruct chunks as [|c cs].
  - exfalso. cbn [concat] in Hc. symmetry in Hc.
    apply app_eq_nil in Hc as [_ Hd]. discriminate Hd.
  - rewrite read_chunks_concat, Hc.
    rewrite (hook_reads (records lines) true prev Ra Rw).
    now rewrite decoded_records.
Qed.

Lemma X9_worker_to_hook_witness :
  let lines := [jq "{'type':'progress','stage':'domain'}";
                js "Crawling 3 pages";
                jq "  {'type':'result','data':{'score':80}}"] in
  let evs := [Route.StdoutData (jq "{'type':'progress','stage':'domain'}"
                                  ++ [LF] ++ js "Crawling ");
              Route.StderrData (js "warning");
              Route.StdoutData (js "3 pages" ++ [LF]
                                  ++ jq "  {'type':'result','data':{'score':80}}"
                                  ++ [LF])] in
  let out := Route.outbound (Route.run (evs ++ [Route.Close])) in
  let chunks := [firstn 20 out; skipn 20 out] in
  (Forall ascii_bytes lines /\ Forall one_line lines
   /\ output_only evs /\ stdout_of evs = printed lines
   /\ concat chunks = out)
  /\ out = concat (map Route.frame (records lines)) ++ Route.DONE
  /\ snd (read_chunks (Hook.Reading [] TextDecoder_new) Hook.STARTING chunks)
     = apply_all Hook.STARTING (decoded (map trim lines)).
Proof.
  cbv zeta.
  assert (H1 : Forall ascii_bytes
                 [jq "{'type':'progress','stage':'domain'}";
                  js "Crawling 3 pages";
                  jq "  {'type':'result','data':{'score':80}}"])
    by (vm_compute; repeat constructor; discriminate).
  assert (H2 : Forall one_line
                 [jq "{'type':'progress','stage':'domain'}";
                  js "Crawling 3 pages";
                  jq "  {'type':'result','data':{'score':80}}"])
    by (vm_compute; repeat constructor; discriminate).
  assert (H3 : output_only
                 [Route.StdoutData (jq "{'type':'progress','stage':'domain'}"
                                      ++ [LF] ++ js "Crawling ");
                  Route.StderrData (js "warning");
                  Route.StdoutData (js "3 pages" ++ [LF]
                                      ++ jq "  {'type':'result','data':{'score':80}}"
                                      ++ [LF])])
    by (repeat constructor).
  split; [repeat split; try assumption; apply firstn_skipn|].
  apply (X9_worker_to_hook _ _ _ Hook.STARTING H1 H2 H3);
    [reflexivity | apply firstn_skipn].
Defined.

(** X10.  An error event of the gateway reaches the page.  When the
    worker cannot be spawned, or the remote service cannot be used, the
    bytes the gateway answers with, read by the hook in chunks cut in any
    way, put the hook in status Error with the message of the gateway as
    its error, for every ASCII message; the steps, the stage under way and
    the result are left as they were. *)
Theorem X10_error_event_reaches_hook (message : jsstr) (chunks : list bytes)
    (prev : Hook.AnalysisState) :
  ascii_bytes message ->
  Route.outbound (Route.run [Route.SpawnError message]) = concat chunks
  \/ Route.response_bytes (Route.proxy_error message) = Some (concat chunks) ->
  snd (read_chunks (Hook.Reading [] TextDecoder_new) prev chunks)
  = {| Hook.status := Hook.Error;
       Hook.progressSteps := Hook.progressSteps prev;
       Hook.currentStage := Hook.currentStage prev;
       Hook.result := Hook.result prev;
       Hook.error := Some (Json.Str message) |}.
Proof.
  intros Ha Hb.
  destruct (error_event_wire message Ha) as (He & _).
  assert (Hf : ascii_bytes (Route.frame (Route.error_event message)))
    by now apply ascii_frame.
  assert (E : exists done : bool,
            concat chunks = Route.frame (Route.error_event message)
                            ++ (if done then Route.DONE else [])).
  { destruct Hb as [Hb|Hb].
    - exists false. rewrite <- Hb, app_nil_r.
      unfold Route.outbound, Route.run. cbn.
      now rewrite app_nil_r, encode_ascii.
    - exists true. cbn [Route.response_bytes Route.proxy_error] in Hb.
      injection Hb as <-. apply encode_ascii, Forall_app.
      split; [exact Hf | apply ascii_DONE]. }
  destruct E as [done E].
  destruct chunks as [|c cs].
  - exfalso. cbn [concat] in E. symmetry in E.
    apply app_eq_nil in E as [E _]. discriminate E.
  - rewrite read_chunks_concat, E. now apply hook_reads_error.
Qed.

Lemma X10_error_event_reaches_hook_witness :
  let message := js "spawn /usr/bin/python3 ENOENT" in
  let out := Route.outbound (Route.run [Route.SpawnError message]) in
  (ascii_bytes message
   /\ (out = concat [firstn 9 out; skipn 9 out]
       \/ Route.response_bytes (Route.proxy_error message)
          = Some (concat [firstn 9 out; skipn 9 out])))
  /\ snd (read_chunks (Hook.Reading [] TextDecoder_new) Hook.STARTING
            [firstn 9 out; skipn 9 out])
     = {| Hook.status := Hook.Error;
          Hook.progressSteps := Hook.progressSteps Hook.STARTING;
          Hook.currentStage := Hook.currentStage Hook.STARTING;
          Hook.result := Hook.result Hook.STARTING;
          Hook.error := Some (Json.Str message) |}.
Proof.
  cbv zeta.
  assert (H1 : ascii_bytes (js "spawn /usr/bin/python3 ENOENT"))
    by (vm_compute; repeat constructor; discriminate).
  assert (H2 : Route.outbound
                 (Route.run [Route.SpawnError (js "spawn /usr/bin/python3 ENOENT")])
               = concat [firstn 9 (Route.outbound
                                     (Route.run [Route.SpawnError
                                                   (js "spawn /usr/bin/python3 ENOENT")]));
                         skipn 9 (Route.outbound
                                    (Route.run [Route.SpawnError
                                                  (js "spawn /usr/bin/python3 ENOENT")]))])
    by (vm_compute; reflexivity).
  split; [split; [exact H1 | left; exact H2]|].
  apply (X10_error_event_reaches_hook _ _ Hook.STARTING H1). left. exact H2.
Defined.

(** ** The sentinel *)

Lemma encode_head (c b : Z) (s bs : list Z) :
  0 <= b < 128 -> TextEncoder_encode (c :: s) = b :: bs ->
  c = b /\ TextEncoder_encode s = bs.
Proof.
  intros Hb. unfold TextEncoder_encode. cbn [Utf8.scalars].
  assert (R : forall l, concat (map Utf8.encode_scalar (Utf8.REPLACEMENT :: l))
                        = b :: bs -> False).
  { intros l H. cbn [map concat] in H.
    change (Utf8.encode_scalar Utf8.REPLACEMENT) with [239; 191; 189] in H.
    injection H as H0 _. lia. }
  destruct (Utf8.is_high c) eqn:Hh.
  - destruct s as [|d s'']; [intros H; destruct (R [] H)|].
    destruct (Utf8.is_low d) eqn:Hl; [|intros H; destruct (R _ H)].
    unfold Utf8.is_high, Utf8.is_low, Utf8.in_range in Hh, Hl.
    apply andb_true_iff in Hh as [Hh _]. apply Z.leb_le in Hh.
    apply andb_true_iff in Hl as [Hl _]. apply Z.leb_le in Hl.
    pose proof (proj2 (Z.shiftl_nonneg (c - 55296) 10) ltac:(lia)) as H10.
    set (cp := 65536 + Z.shiftl (c - 55296) 10 + (d - 56320)) in *.
    pose proof (proj2 (Z.shiftr_nonneg cp 18) ltac:(lia)) as H18.
    cbn [map concat]. unfold Utf8.encode_scalar.
    destruct (Z.ltb_spec cp 128); [lia|].
    destruct (Z.ltb_spec cp 2048); [lia|].
    destruct (Z.ltb_spec cp 65536); [lia|].
    cbn [app]. intros E. injection E as E0 _. lia.
  - destruct (Utf8.is_low c) eqn:Hl; [intros H; destruct (R _ H)|].
    cbn [map concat]. unfold Utf8.encode_scalar.
    destruct (Z.ltb_spec c 128).
    { cbn [app]. intros E. injection E as E1 E2. auto. }
    pose proof (proj2 (Z.shiftr_nonneg c 6) ltac:(lia)) as H6.
    pose proof (proj2 (Z.shiftr_nonneg c 12) ltac:(lia)) as H12.
    pose proof (proj2 (Z.shiftr_nonneg c 18) ltac:(lia)) as H18.
    destruct (Z.ltb_spec c 2048); [|destruct (Z.ltb_spec c 65536)];
      cbn [app]; intros E; injection E as E0 _; lia.
Qed.

Lemma parse_sentinel (t : jsstr) : Json.parse (91 :: 68 :: t) = None.
Proof.
  unfold Json.parse.
  replace (2 * length (91%Z :: 68%Z :: t) + 2)%nat
    with (S (S (S (2 * length t + 3)))) by (cbn [length]; lia).
  reflexivity.
Qed.

Lemma forwarded_not_DONE (chunk : bytes) :
  forwarded chunk -> chunk <> TextEncoder_encode Route.DONE.
Proof.
  intros (t & -> & _ & Hn & Hp) E. unfold Route.frame in E.
  let d := eval vm_compute in (TextEncoder_encode Route.DONE) in
  change (TextEncoder_encode Route.DONE) with d in E.
  change (js "data: ") with [100; 97; 116; 97; 58; 32] in E.
  cbn [app] in E. rewrite !encode_ascii_cons in E by lia.
  injection E as E0. rename E0 into E.
  destruct t as [|c t]; [contradiction|].
  cbn [app] in E. apply encode_head in E as [-> E]; [|lia].
  destruct t as [|c t].
  - cbn [app] in E. apply encode_head in E as [E _]; [discriminate E | lia].
  - cbn [app] in E. apply encode_head in E as [-> _]; [|lia].
    unfold parses in Hp. now rewrite parse_sentinel in Hp.
Qed.

Lemma wire_not_DONE (chunk : bytes) :
  wire_chunk chunk -> chunk <> TextEncoder_encode Route.DONE ->
  forwarded chunk
  \/ exists message,
       chunk = TextEncoder_encode (Route.frame (Route.error_event message)).
Proof. intros [H|[H|H]] Hn; [now left | contradiction | now right]. Qed.

(** While the stream is open no sentinel was written; once it is closed,
    none was written before its last chunk. *)
Lemma try_forward_sentinel (s : Route.Supervisor) (text : jsstr) :
  trim text = text -> text <> [] ->
  Route.closed (Route.controller s) = false ->
  TextEncoder_encode Route.DONE ∉ Route.queue (Route.controller s) ->
  TextEncoder_encode Route.DONE
    ∉ Route.queue (Route.controller (Route.try_forward s text)).
Proof.
  intros Ht Hn Ho Hq. rewrite try_forward_open by exact Ho.
  cbn [Route.controller Route.queue].
  destruct (Json.parse text) as [v|] eqn:Ep; [|now rewrite app_nil_r].
  rewrite elem_of_app, list_elem_of_singleton. intros [H|H]; [contradiction|].
  symmetry in H. revert H. apply forwarded_not_DONE.
  exists text. unfold parses. rewrite Ep. auto.
Qed.

Lemma on_lines_sentinel (lines : list jsstr) (s : Route.Supervisor) :
  Route.closed (Route.controller s) = false ->
  TextEncoder_encode Route.DONE ∉ Route.queue (Route.controller s) ->
  TextEncoder_encode Route.DONE
    ∉ Route.queue (Route.controller (fold_left Route.on_line lines s)).
Proof.
  revert s. induction lines as [|l lines IH]; intros s Ho Hq; cbn [fold_left];
    [exact Hq|].
  destruct (on_line_open s l Ho) as [Ho' _].
  apply IH; [exact Ho'|]. unfold Route.on_line.
  destruct (bool_decide (trim l = [])) eqn:E; [exact Hq|].
  apply bool_decide_eq_false in E.
  now apply try_forward_sentinel; [apply trim_idempotent| | |].
Qed.

Lemma handle_sentinel (s : Route.Supervisor) (ev : Route.ChildEvent) :
  (if Route.closed (Route.controller s)
   then exists pre last, Route.queue (Route.controller s) = pre ++ [last]
                         /\ TextEncoder_encode Route.DONE ∉ pre
   else TextEncoder_encode Route.DONE ∉ Route.queue (Route.controller s)) ->
  if Route.closed (Route.controller (Route.handle s ev))
  then exists pre last,
         Route.queue (Route.controller (Route.handle s ev)) = pre ++ [last]
         /\ TextEncoder_encode Route.DONE ∉ pre
  else TextEncoder_encode Route.DONE
         ∉ Route.queue (Route.controller (Route.handle s ev)).
Proof.
  destruct (Route.closed (Route.controller s)) eqn:Ho.
  { intros H. rewrite (handle_closed s ev Ho), Ho. exact H. }
  intros Hq. unfold Route.handle. destruct (Route.uncaught s);
    [now rewrite Ho|].
  destruct ev as [c|c| |m].
  - unfold Route.on_stdout_data. rewrite on_text_frames.
    cbn [set_buffer Route.controller].
    destruct (on_lines_open
                (frames [LF] (Route.buffer s ++ Buffer_toString c)) s Ho)
      as [-> _].
    now apply on_lines_sentinel.
  - now rewrite Ho.
  - unfold Route.on_close.
    set (s1 := if bool_decide (trim (Route.buffer s) = []) then s
               else Route.try_forward s (trim (Route.buffer s))).
    assert (H1 : Route.closed (Route.controller s1) = false
                 /\ TextEncoder_encode Route.DONE
                      ∉ Route.queue (Route.controller s1)).
    { unfold s1. destruct (bool_decide _) eqn:E; [auto|].
      apply bool_decide_eq_false in E. split.
      - rewrite try_forward_open by exact Ho. reflexivity.
      - now apply try_forward_sentinel; [apply trim_idempotent| | |]. }
    destruct H1 as [Ho1 Hq1]. unfold Route.enqueue, Route.close.
    rewrite Ho1. cbn [Route.closed Route.with_controller Route.controller
                      Route.queue].
    eauto.
  - unfold Route.on_error, Route.enqueue, Route.close. rewrite Ho.
    cbn [Route.closed Route.with_controller Route.controller Route.queue].
    eauto.
Qed.

(** X11.  The sentinel ends the stream: in every run of the gateway, a
    chunk that is the sentinel is the last chunk enqueued and the stream is
    closed; so it is written at most once and nothing follows it. *)
Theorem X11_sentinel_is_last (evs : list Route.ChildEvent)
    (pre post : list bytes) :
  Route.queue (Route.controller (Route.run evs))
  = pre ++ TextEncoder_encode Route.DONE :: post ->
  post = []
  /\ (TextEncoder_encode Route.DONE ∉ pre)
  /\ Route.closed (Route.controller (Route.run evs)) = true.
Proof.
  assert (G : forall s,
    (if Route.closed (Route.controller s)
     then exists pre last, Route.queue (Route.controller s) = pre ++ [last]
                           /\ TextEncoder_encode Route.DONE ∉ pre
     else TextEncoder_encode Route.DONE ∉ Route.queue (Route.controller s)) ->
    if Route.closed (Route.controller (fold_left Route.handle evs s))
    then exists pre last,
           Route.queue (Route.controller (fold_left Route.handle evs s))
           = pre ++ [last]
           /\ TextEncoder_encode Route.DONE ∉ pre
    else TextEncoder_encode Route.DONE
           ∉ Route.queue (Route.controller (fold_left Route.handle evs s))).
  { induction evs as [|ev evs IH]; intros s H; cbn [fold_left]; [exact H|].
    now apply IH, handle_sentinel. }
  specialize (G Route.start). unfold Route.run.
  destruct (Route.closed (Route.controller (fold_left Route.handle evs Route.start))).
  - destruct G as (pre' & last & E & Hn); [cbn; apply not_elem_of_nil|].
    rewrite E. intros H.
    destruct post as [|x post _] using rev_ind.
    + apply app_inj_tail in H as [-> _]. auto.
    + exfalso. apply Hn.
      rewrite app_comm_cons, app_assoc in H.
      apply app_inj_tail in H as [-> _].
      rewrite elem_of_app, elem_of_cons. auto.
  - intros H. exfalso. apply G; [cbn; apply not_elem_of_nil|].
    rewrite H, elem_of_app, elem_of_cons. auto.
Qed.

Lemma X11_sentinel_is_last_witness :
  let evs := [Route.StdoutData (jq "{'type':'progress'}" ++ [LF]); Route.Close;
              Route.Close] in
  let pre := [TextEncoder_encode (Route.frame (jq "{'type':'progress'}"))] in
  Route.queue (Route.controller (Route.run evs))
  = pre ++ TextEncoder_encode Route.DONE :: []
  /\ ([] = @nil bytes
      /\ (TextEncoder_encode Route.DONE ∉ pre)
      /\ Route.closed (Route.controller (Route.run evs)) = true).
Proof.
  cbv zeta.
  assert (H : Route.queue
                (Route.controller
                   (Route.run [Route.StdoutData (jq "{'type':'progress'}" ++ [LF]);
                               Route.Close; Route.Close]))
              = [TextEncoder_encode (Route.frame (jq "{'type':'progress'}"))]
                ++ TextEncoder_encode Route.DONE :: [])
    by (vm_compute; reflexivity).
  split; [exact H|].
  apply (X11_sentinel_is_last _ _ _ H).
Defined.

(** ** The progress display and the form *)

(** X13.  The progress bar of ProgressStream: its value lies between 0 and
    100, it is 100 exactly from nine steps on, and the line of the stage
    under way is drawn only while the bar is below 100. *)
Theorem X13_progress_bar (steps : list Hook.ProgressStep)
    (currentStage : Hook.jsval) :
  0 <= Page.progress (length steps) <= 100
  /\ (Page.progress (length steps) = 100
      <-> Page.TOTAL_STAGES <= Z.of_nat (length steps))
  /\ (Page.current_line steps currentStage = true ->
      Page.progress (length steps) < 100).
Proof.
  unfold Page.progress, Page.current_line, Page.TOTAL_STAGES.
  set (n := Z.of_nat (length steps)).
  assert (Hn : 0 <= n) by apply Nat2Z.is_nonneg.
  assert (Hq : 0 <= (200 * n + 9) / 18) by (apply Z.div_pos; lia).
  assert (E : 100 <= (200 * n + 9) / 18 <-> 9 <= n).
  { split; intros H.
    - destruct (Z.le_gt_cases 9 n) as [|L]; [assumption|].
      assert ((200 * n + 9) / 18 <= (200 * 8 + 9) / 18)
        by (apply Z.div_le_mono; lia).
      change ((200 * 8 + 9) / 18) with 89 in *. lia.
    - change 100 with ((200 * 9 + 9) / 18). apply Z.div_le_mono; lia. }
  split; [lia|]. split; [split; lia|].
  intros H. apply andb_true_iff in H as [_ H]. apply Z.ltb_lt in H. lia.
Qed.

Lemma remove_first_unfold (pattern s : jsstr) :
  Results.remove_first pattern s =
    if startsWith pattern s then skipn (length pattern) s
    else match s with
         | [] => []
         | c :: s' => c :: Results.remove_first pattern s'
         end.
Proof. destruct s; reflexivity. Qed.

(** X14.  The form calls [analyze] only with a url that is trimmed and not
    empty, and otherwise shows its message and calls nothing.  Such a
    request is never answered [url is required]: the spawning gateway calls
    [spawn] with that very url and answers with the stream of the worker,
    unless [spawn] itself throws, as it can for a url that holds U+0000,
    which trimming keeps; and the proxying gateway passes it on. *)
Theorem X14_form_submits_trimmed_url (url : jsstr) (maxPages : Z) :
  match Page.handleSubmit url maxPages with
  | Page.ShowError _ => trim url = []
  | Page.CallAnalyze u m =>
      u = trim url /\ u <> [] /\ trim u = u /\ m = maxPages
      /\ (forall env spawn,
            let pythonBin :=
              Route.or_default (Route.PYTHON_BIN env) (js "/usr/bin/python3") in
            let args := [Route.ArgText (Route.SCRIPT_PATH env);
                         Route.ArgValue (Json.Str u);
                         Route.ArgString (Json.Num m 0);
                         Route.ArgText (js "--json")] in
            Route.POST env spawn (Page.request_body u m)
            = match spawn pythonBin args with
              | Some e => inr e
              | None => inl (Route.SpawnStream pythonBin args)
              end)
      /\ (forall upstream,
            Route.POST_proxy (Page.request_body u m) upstream
            <> inl Route.url_required
            /\ Route.POST_proxy (Page.request_body u m) upstream
               <> inr (TypeError
                         (js "Cannot read properties of null (reading 'url')")))
  end.
Proof.
  unfold Page.handleSubmit.
  destruct (bool_decide (trim url = [])) eqn:E.
  - now apply bool_decide_eq_true in E.
  - apply bool_decide_eq_false in E.
    assert (Hu : prop (Page.request_body (trim url) maxPages) (js "url")
                 = Some (Json.Str (trim url))) by reflexivity.
    assert (Hm : prop (Page.request_body (trim url) maxPages) (js "maxPages")
                 = Some (Json.Num maxPages 0)) by reflexivity.
    assert (Ht : Json.truthy (Json.Str (trim url)) = true)
      by (cbn [Json.truthy]; now rewrite bool_decide_eq_false_2).
    repeat split; auto using trim_idempotent.
    + unfold Route.POST.
      change (match Page.request_body (trim url) maxPages with
              | Json.Null => _
              | _ => ?b
              end) with b.
      rewrite Hu, Hm, Ht. reflexivity.
    + unfold Route.POST_proxy.
      change (match Page.request_body (trim url) maxPages with
              | Json.Null => _
              | _ => ?b
              end) with b.
      rewrite Hu. cbn [truthy]. rewrite Ht.
      destruct upstream as [|status [chunks|]]; [discriminate| |discriminate].
      destruct (Utf8.in_range 200 299 status); discriminate.
    + unfold Route.POST_proxy.
      change (match Page.request_body (trim url) maxPages with
              | Json.Null => _
              | _ => ?b
              end) with b.
      rewrite Hu. cbn [truthy]. rewrite Ht.
      destruct upstream as [|status [chunks|]]; [discriminate| |discriminate].
      destruct (Utf8.in_range 200 299 status); discriminate.
Qed.

(** ** The result components *)

Lemma sublist_filter_bool {A} (p : A -> bool) (l : list A) :
  sublist (List.filter p l) l.
Proof.
  induction l as [|x l IH]; cbn [List.filter]; [constructor|].
  destruct (p x); [now apply sublist_skip | now apply sublist_cons].
Qed.

(** X15.  QuickWins draws at most eight cards; each is a finding of low
    effort and of severity CRITICAL or WARNING; they come in the order of
    the findings; and when fewer than eight are drawn, no such finding is
    left out. *)
Theorem X15_quick_wins (findings : list Results.Finding) :
  let wins := Results.QuickWins findings in
  (length wins <= 8)%nat
  /\ Forall (fun f => Results.effort f = Results.LOW
                      /\ Results.urgent f = true) wins
  /\ sublist wins findings
  /\ ((length wins < 8)%nat ->
      forall f, f ∈ findings -> Results.effort f = Results.LOW ->
                Results.urgent f = true -> f ∈ wins).
Proof.
  intros wins. unfold wins, Results.QuickWins.
  set (p := fun f => match Results.effort f with
                     | Results.LOW => Results.urgent f
                     | _ => false
                     end).
  split; [rewrite length_firstn; lia|].
  split.
  - apply Forall_take, Forall_forall. intros f Hf.
    apply list_elem_of_In, filter_In in Hf as [_ Hf]. unfold p in Hf.
    destruct (Results.effort f); try discriminate. auto.
  - split.
    + etransitivity; [apply sublist_take | apply sublist_filter_bool].
    + intros Hlen f Hf He Hu. rewrite length_firstn in Hlen.
      rewrite firstn_all2 by lia.
      apply list_elem_of_In, filter_In. split; [now apply list_elem_of_In|].
      unfold p. now rewrite He.
Qed.

Lemma priority_rank (a b : Results.Finding) :
  priority_le a b <->
  3 * Results.IMPACT_ORDER (Results.impact a)
  + Results.EFFORT_ORDER (Results.effort a)
  <= 3 * Results.IMPACT_ORDER (Results.impact b)
     + Results.EFFORT_ORDER (Results.effort b).
Proof.
  unfold priority_le, Results.compare_priority.
  destruct (Results.impact a), (Results.effort a),
           (Results.impact b), (Results.effort b); cbv -[Z.le iff]; lia.
Qed.

Lemma insert_by_perm (x : Results.Finding) (l : list Results.Finding) :
  Permutation (Results.insert_by Results.compare_priority x l) (x :: l).
Proof.
  induction l as [|y l IH]; cbn [Results.insert_by]; [reflexivity|].
  destruct (Results.compare_priority x y <=? 0); [reflexivity|].
  rewrite IH. apply perm_swap.
Qed.

Lemma insert_by_sorted (x : Results.Finding) (l : list Results.Finding) :
  StronglySorted priority_le l ->
  StronglySorted priority_le (Results.insert_by Results.compare_priority x l).
Proof.
  induction 1 as [|y l Hs IH Hy]; cbn [Results.insert_by].
  - repeat constructor.
  - destruct (Z.leb_spec (Results.compare_priority x y) 0) as [L|L].
    + constructor; [now constructor|].
      constructor; [exact L|].
      eapply Forall_impl; [exact Hy|]. intros z Hz. cbv beta in Hz.
      apply priority_rank. apply priority_rank in Hz.
      apply (proj1 (priority_rank x y)) in L. lia.
    + constructor; [exact IH|].
      rewrite insert_by_perm. constructor; [|exact Hy].
      apply priority_rank.
      assert (N : ~ priority_le x y) by (unfold priority_le; lia).
      rewrite priority_rank in N. lia.
Qed.

Lemma sort_by_sorted (l : list Results.Finding) :
  Permutation (Results.sort_by Results.compare_priority l) l
  /\ StronglySorted priority_le (Results.sort_by Results.compare_priority l).
Proof.
  unfold Results.sort_by.
  induction l as [|x l [IH1 IH2]]; cbn [fold_right]; [split; constructor|].
  split; [rewrite insert_by_perm; now constructor | now apply insert_by_sorted].
Qed.

Lemma insert_by_stable (k : Z) (x : Results.Finding) (l : list Results.Finding) :
  List.filter
    (fun f => 3 * Results.IMPACT_ORDER (Results.impact f)
              + Results.EFFORT_ORDER (Results.effort f) =? k)
    (Results.insert_by Results.compare_priority x l)
  = List.filter
      (fun f => 3 * Results.IMPACT_ORDER (Results.impact f)
                + Results.EFFORT_ORDER (Results.effort f) =? k)
      (x :: l).
Proof.
  induction l as [|y l IH]; cbn [Results.insert_by]; [reflexivity|].
  destruct (Z.leb_spec (Results.compare_priority x y) 0) as [L|L];
    [reflexivity|].
  assert (N : ~ priority_le x y) by (unfold priority_le; lia).
  rewrite priority_rank in N.
  cbn [List.filter] in *. rewrite IH.
  destruct (Z.eqb_spec (3 * Results.IMPACT_ORDER (Results.impact x)
                        + Results.EFFORT_ORDER (Results.effort x)) k);
    destruct (Z.eqb_spec (3 * Results.IMPACT_ORDER (Results.impact y)
                          + Results.EFFORT_ORDER (Results.effort y)) k);
    try reflexivity; lia.
Qed.

Lemma sort_by_stable (k : Z) (l : list Results.Finding) :
  List.filter
    (fun f => 3 * Results.IMPACT_ORDER (Results.impact f)
              + Results.EFFORT_ORDER (Results.effort f) =? k)
    (Results.sort_by Results.compare_priority l)
  = List.filter
      (fun f => 3 * Results.IMPACT_ORDER (Results.impact f)
                + Results.EFFORT_ORDER (Results.effort f) =? k) l.
Proof.
  unfold Results.sort_by.
  induction l as [|x l IH]; cbn [fold_right]; [reflexivity|].
  rewrite insert_by_stable. cbn [List.filter]. now rewrite IH.
Qed.

(** X16.  PriorityMatrix draws the first twenty rows of the findings of
    severity CRITICAL or WARNING put in order of impact, highest first,
    and then of effort, lowest first: with the rows it leaves out, the rows
    drawn are a rearrangement of those findings in which no row ranks above
    an earlier one, and findings of one rank keep the order they had; at
    most twenty are drawn, and rows are left out only when twenty are
    drawn. *)
Theorem X16_priority_matrix (findings : list Results.Finding) :
  let rows := Results.PriorityMatrix findings in
  exists hidden,
    Permutation (rows ++ hidden) (List.filter Results.urgent findings)
    /\ StronglySorted priority_le (rows ++ hidden)
    /\ (length rows <= 20)%nat
    /\ (hidden <> [] -> length rows = 20%nat)
    /\ (forall k,
          List.filter
            (fun f => 3 * Results.IMPACT_ORDER (Results.impact f)
                      + Results.EFFORT_ORDER (Results.effort f) =? k)
            (rows ++ hidden)
          = List.filter
              (fun f => 3 * Results.IMPACT_ORDER (Results.impact f)
                        + Results.EFFORT_ORDER (Results.effort f) =? k)
              (List.filter Results.urgent findings)).
Proof.
  intros rows. unfold rows, Results.PriorityMatrix.
  set (sorted := Results.sort_by Results.compare_priority
                   (List.filter Results.urgent findings)).
  destruct (sort_by_sorted (List.filter Results.urgent findings)) as [Hp Hs].
  fold sorted in Hp, Hs.
  exists (skipn 20 sorted). rewrite firstn_skipn.
  split; [exact Hp|]. split; [exact Hs|].
  rewrite length_firstn. split; [lia|]. split.
  - intros Hh. destruct (Nat.le_gt_cases 20 (length sorted)) as [|L]; [lia|].
    exfalso. apply Hh. apply skipn_all2. lia.
  - intros k. apply sort_by_stable.
Qed.

(** X17.  [shortUrl] of PageSnapshotTable gives a text of one to forty
    code units; the url of the site itself is shown as a slash, and a url
    that is the base url followed by a path of at most forty code units is
    shown as that path. *)
Theorem X17_short_url (baseUrl url : jsstr) :
  (1 <= length (Results.shortUrl baseUrl url) <= 40)%nat
  /\ Results.shortUrl baseUrl baseUrl = js "/"
  /\ (forall path, path <> [] -> (length path <= 40)%nat ->
        Results.shortUrl baseUrl (baseUrl ++ path) = path).
Proof.
  assert (R : forall path, Results.remove_first baseUrl (baseUrl ++ path) = path).
  { intros path. rewrite remove_first_unfold, startsWith_app.
    now rewrite skipn_app, skipn_all, Nat.sub_diag. }
  split; [|split].
  - unfold Results.shortUrl.
    set (path := match Results.remove_first baseUrl url with
                 | [] => js "/"
                 | c :: p => c :: p
                 end).
    assert (Hp : (1 <= length path)%nat).
    { unfold path. destruct (Results.remove_first baseUrl url);
        [vm_compute; lia | cbn [length]; lia]. }
    destruct (Nat.ltb_spec 40 (length path)) as [L|L]; [|lia].
    rewrite length_app, length_firstn. cbn [length]. lia.
  - pose proof (R []) as R0. rewrite app_nil_r in R0.
    unfold Results.shortUrl. rewrite R0. reflexivity.
  - intros path Hn Hl. unfold Results.shortUrl. rewrite R.
    destruct path as [|c p]; [contradiction|].
    destruct (Nat.ltb_spec 40 (length (c :: p))); [lia | reflexivity].
Qed.

(** ** The scheduled job *)

Lemma from_first_skip (c : Z) (pre rest : jsstr) :
  Forall (fun x => x <> c) pre ->
  Cron.from_first c (pre ++ c :: rest) = c :: rest.
Proof.
  induction 1 as [|x pre Hx _ IH]; cbn [app Cron.from_first].
  - now rewrite Z.eqb_refl.
  - destruct (Z.eqb_spec x c); [contradiction | exact IH].
Qed.

Lemma bracketed_found (pre mid post : jsstr) :
  Forall (fun x => x <> 91) pre -> Forall (fun x => x <> 93) post ->
  Cron.bracketed (pre ++ 91 :: mid ++ 93 :: post) = Some (91 :: mid ++ [93]).
Proof.
  intros Hpre Hpost. unfold Cron.bracketed.
  rewrite from_first_skip by exact Hpre.
  replace (rev (91 :: mid ++ 93 :: post))
    with (rev post ++ 93 :: rev (91 :: mid))
    by (cbn [rev]; rewrite rev_app_distr; cbn [rev];
        now rewrite <- !app_assoc).
  rewrite from_first_skip by (now apply Forall_rev).
  replace (rev (93 :: rev (91 :: mid))) with (91 :: mid ++ [93])
    by (cbn [rev]; now rewrite rev_app_distr, rev_involutive).
  reflexivity.
Qed.

(** X18.  [extractInsights] keeps at most four items, and reads the reply
    of the model from its first opening bracket to its last closing one:
    prose before the array and after it changes nothing. *)
Theorem X18_insights_ignore_prose (pre mid post : jsstr) :
  Forall (fun x => x <> 91) pre -> Forall (fun x => x <> 93) post ->
  Cron.insights_of (pre ++ 91 :: mid ++ 93 :: post)
  = Cron.insights_of (91 :: mid ++ [93])
  /\ (length (Cron.insights_of (pre ++ 91%Z :: mid ++ 93%Z :: post)) <= 4)%nat.
Proof.
  intros Hpre Hpost. unfold Cron.insights_of.
  rewrite (bracketed_found pre mid post Hpre Hpost).
  pose proof (bracketed_found [] mid [] ltac:(constructor) ltac:(constructor))
    as E. cbn [app] in E. rewrite E. cbn [nullish].
  split; [reflexivity|].
  destruct (Json.parse (91 :: mid ++ [93])) as [[| | | |items|]|];
    try (cbn [length]; lia).
  rewrite length_firstn. lia.
Qed.

Lemma X18_insights_ignore_prose_witness :
  let pre := js "Here are the insights: " in
  let mid := jq "'a','b','c','d','e'" in
  let post := js " Hope this helps." in
  (Forall (fun x => x <> 91) pre /\ Forall (fun x => x <> 93) post)
  /\ Cron.insights_of (pre ++ 91 :: mid ++ 93 :: post)
     = Cron.insights_of (91 :: mid ++ [93])
  /\ (length (Cron.insights_of (pre ++ 91%Z :: mid ++ 93%Z :: post)) <= 4)%nat.
Proof.
  cbv zeta.
  assert (H1 : Forall (fun x => x <> 91) (js "Here are the insights: "))
    by (vm_compute; repeat constructor; discriminate).
  assert (H2 : Forall (fun x => x <> 93) (js " Hope this helps."))
    by (vm_compute; repeat constructor; discriminate).
  split; [split; assumption|].
  apply (X18_insights_ignore_prose _ _ _ H1 H2).
Defined.

(** What the loop over the new posts does to the store. *)
Lemma process_spec (w : Cron.World) (posts : list Cron.Post) :
  forall (st : Cron.Store) (acc : list Cron.Update) (i : nat),
    match Cron.process w posts st acc i with
    | inl (st', processed) =>
        exists news,
          processed = acc ++ news
          /\ Cron.updates st' = rev news ++ Cron.updates st
          /\ Cron.last_post_url st' = Cron.last_post_url st
          /\ map Cron.postUrl news = map Cron.url posts
    | inr (st', e) =>
        exists pushed,
          Cron.updates st' = pushed ++ Cron.updates st
          /\ (length pushed <= length posts)%nat
          /\ Cron.last_post_url st' = Cron.last_post_url st
    end.
Proof.
  induction posts as [|post posts IH]; intros st acc i; cbn [Cron.process].
  - exists []. now rewrite app_nil_r.
  - destruct (Cron.page w (Cron.url post)) as [[title content]|e].
    2:{ exists []. cbn [length]. split; [reflexivity|]. split; [lia | reflexivity]. }
    destruct (Cron.reply w title content) as [block|e].
    2:{ exists []. cbn [length]. split; [reflexivity|]. split; [lia | reflexivity]. }
    set (update := {| Cron.postUrl := Cron.url post; Cron.postTitle := title;
                      Cron.postDate := Cron.lastmod post;
                      Cron.insights := Cron.extractInsights block;
                      Cron.detectedAt := Cron.clock w (Cron.url post) |}).
    destruct (Cron.lpush_fault w i) as [[e [|]]|].
    { exists [update]. cbn [length Cron.lpush Cron.updates Cron.last_post_url app].
      split; [reflexivity|]. split; [lia | reflexivity]. }
    { exists []. cbn [length]. split; [reflexivity|]. split; [lia | reflexivity]. }
    specialize (IH (Cron.lpush st update) (acc ++ [update]) (S i)).
    destruct (Cron.process w posts (Cron.lpush st update) (acc ++ [update]) (S i))
      as [[st' processed]|[st' e]].
    + destruct IH as (news & E1 & E2 & E3 & E4).
      exists (update :: news). cbn [Cron.lpush Cron.updates Cron.last_post_url] in *.
      split; [now rewrite E1, <- app_assoc|].
      split; [cbn [rev]; now rewrite E2, <- app_assoc|].
      split; [exact E3|]. cbn [map]. now rewrite E4.
    + destruct IH as (pushed & E1 & E2 & E3).
      exists (pushed ++ [update]).
      cbn [Cron.lpush Cron.updates Cron.last_post_url] in *.
      split; [now rewrite E1, <- app_assoc|].
      split; [rewrite length_app; cbn [length]; lia | exact E3].
Qed.

Lemma findIndex_positive (lastSeenUrl : option jsstr) (latest : Cron.Post)
    (rest : list Cron.Post) (i : nat) :
  lastSeenUrl <> Some (Cron.url latest) ->
  Cron.findIndex lastSeenUrl (latest :: rest) = Some i -> (1 <= i)%nat.
Proof.
  intros Hn. cbn [Cron.findIndex].
  destruct (bool_decide (Some (Cron.url latest) = lastSeenUrl)) eqn:E.
  - apply bool_decide_eq_true in E. congruence.
  - destruct (Cron.findIndex lastSeenUrl rest); [|discriminate].
    intros [= <-]. lia.
Qed.

(** The posts the job takes up: the newest ones, one to three of them. *)
Lemma new_posts (st : Cron.Store) (latest : Cron.Post) (rest : list Cron.Post) :
  Cron.last_post_url st <> Some (Cron.url latest) ->
  exists k, (1 <= k <= 3)%nat
    /\ firstn 3 (match Cron.findIndex (Cron.last_post_url st) (latest :: rest) with
                 | None => [latest]
                 | Some i => firstn i (latest :: rest)
                 end)
       = firstn k (latest :: rest)
    /\ (k <= length (latest :: rest))%nat.
Proof.
  intros Hn.
  destruct (Cron.findIndex (Cron.last_post_url st) (latest :: rest)) as [i|] eqn:E.
  - pose proof (findIndex_positive _ _ _ _ Hn E) as Hi.
    exists (Nat.min 3 (Nat.min i (length (latest :: rest)))).
    split; [cbn [length]; lia|]. split; [|lia].
    rewrite firstn_firstn.
    destruct (Nat.le_gt_cases (Nat.min 3 i) (length (latest :: rest))) as [L|L].
    + f_equal. lia.
    + rewrite !firstn_all2; [reflexivity | lia | lia].
  - exists 1%nat. split; [lia|]. split; [reflexivity | cbn [length]; lia].
Qed.

Lemma GET_processed (CRON_SECRET authorization : option jsstr) (w : Cron.World)
    (st : Cron.Store) (processed : list Cron.Update) :
  fst (Cron.GET CRON_SECRET authorization w st) = Cron.Processed processed ->
  match CRON_SECRET with
  | Some (c :: secret) =>
      negb (bool_decide (authorization = Some (js "Bearer " ++ c :: secret)))
  | _ => false
  end = false
  /\ exists latest rest,
       Cron.sitemap w = inl (latest :: rest)
       /\ (1 <= length processed <= 3)%nat
       /\ map Cron.postUrl processed
          = map Cron.url (firstn (length processed) (latest :: rest))
       /\ Cron.updates (snd (Cron.GET CRON_SECRET authorization w st))
          = firstn 10 (rev processed ++ Cron.updates st)
       /\ Cron.last_post_url (snd (Cron.GET CRON_SECRET authorization w st))
          = Some (Cron.url latest).
Proof.
  unfold Cron.GET.
  destruct (match CRON_SECRET with
            | Some (c :: secret) =>
                negb (bool_decide
                        (authorization = Some (js "Bearer " ++ c :: secret)))
            | _ => false
            end); [discriminate|].
  destruct (Cron.sitemap w) as [[|latest rest]|e]; try discriminate.
  cbv zeta. destruct (Cron.get_fault w) as [e|]; [discriminate|].
  destruct (bool_decide (Cron.last_post_url st = Some (Cron.url latest))) eqn:E;
    [discriminate|].
  apply bool_decide_eq_false in E.
  destruct (new_posts st latest rest E) as (k & Hk & -> & Hlen).
  pose proof (process_spec w (firstn k (latest :: rest)) st [] 0) as P.
  destruct (Cron.process w (firstn k (latest :: rest)) st [] 0)
    as [[st1 processed1]|[st1 e]]; cbn [fst snd]; [|discriminate].
  destruct (Cron.ltrim_fault w) as [[e b]|]; [discriminate|].
  destruct (Cron.set_fault w) as [[e b]|]; [discriminate|].
  cbn [fst snd]. intros [= <-]. split; [reflexivity|].
  destruct P as (news & -> & E2 & E3 & E4). cbn [app] in *.
  assert (Hn : length news = k).
  { rewrite <- (length_map Cron.postUrl), E4, length_map, length_firstn. lia. }
  exists latest, rest. rewrite Hn.
  cbn [Cron.set_last Cron.ltrim Cron.updates Cron.last_post_url].
  rewrite E2. auto.
Qed.

(** X19.  When a secret is configured, a request without the matching
    bearer token is answered Unauthorized and the store is left as it was.
    Whatever the request, the job leaves the store as it was unless it
    takes up posts.  When it fails on the way, the old updates are still
    there behind at most three new ones (the list cut to ten if the trim
    took effect), and the mark of the last post seen is where it was,
    unless the call that sets it took effect and rejected. *)
Theorem X19_cron_store_kept (CRON_SECRET authorization : option jsstr)
    (w : Cron.World) (st : Cron.Store) :
  (forall c secret,
     CRON_SECRET = Some (c :: secret) ->
     authorization <> Some (js "Bearer " ++ c :: secret) ->
     Cron.GET CRON_SECRET authorization w st = (Cron.Unauthorized, st))
  /\ match fst (Cron.GET CRON_SECRET authorization w st) with
     | Cron.Processed _ => True
     | Cron.Failed _ =>
         (exists pushed,
            (length pushed <= 3)%nat
            /\ (Cron.updates (snd (Cron.GET CRON_SECRET authorization w st))
                = pushed ++ Cron.updates st
                \/ Cron.updates (snd (Cron.GET CRON_SECRET authorization w st))
                   = firstn 10 (pushed ++ Cron.updates st)))
         /\ (Cron.last_post_url (snd (Cron.GET CRON_SECRET authorization w st))
             = Cron.last_post_url st
             \/ exists e, Cron.set_fault w = Some (e, true))
     | _ => snd (Cron.GET CRON_SECRET authorization w st) = st
     end.
Proof.
  split.
  - intros c secret -> Hn. unfold Cron.GET.
    now rewrite bool_decide_eq_false_2.
  - assert (Same : (exists pushed : list Cron.Update,
                      (length pushed <= 3)%nat
                      /\ (Cron.updates st = pushed ++ Cron.updates st
                          \/ Cron.updates st
                             = firstn 10 (pushed ++ Cron.updates st)))
                   /\ (Cron.last_post_url st = Cron.last_post_url st
                       \/ exists e, Cron.set_fault w = Some (e, true))).
    { split; [|now left]. exists []. cbn [length app]. split; [lia | now left]. }
    unfold Cron.GET.
    destruct (match CRON_SECRET with
              | Some (c :: secret) =>
                  negb (bool_decide
                          (authorization = Some (js "Bearer " ++ c :: secret)))
              | _ => false
              end); [reflexivity|].
    destruct (Cron.sitemap w) as [[|latest rest]|e]; cbn [fst snd];
      [reflexivity| |exact Same].
    cbv zeta. destruct (Cron.get_fault w) as [e|]; [exact Same|].
    destruct (bool_decide (Cron.last_post_url st = Some (Cron.url latest))) eqn:E;
      [reflexivity|].
    apply bool_decide_eq_false in E.
    destruct (new_posts st latest rest E) as (k & Hk & -> & Hlen).
    pose proof (process_spec w (firstn k (latest :: rest)) st [] 0) as P.
    destruct (Cron.process w (firstn k (latest :: rest)) st [] 0)
      as [[st1 processed1]|[st1 e]]; cbn [fst snd].
    + destruct P as (news & _ & E2 & E3 & E4).
      assert (Hn : (length (rev news) <= 3)%nat).
      { rewrite length_rev, <- (length_map Cron.postUrl), E4, length_map,
          length_firstn. lia. }
      destruct (Cron.ltrim_fault w) as [[e [|]]|]; cbn [fst snd].
      * split; [|left; exact E3]. exists (rev news). split; [exact Hn|].
        right. cbn [Cron.ltrim Cron.updates]. now rewrite E2.
      * split; [|left; exact E3]. exists (rev news). split; [exact Hn|].
        left. exact E2.
      * destruct (Cron.set_fault w) as [[e [|]]|] eqn:Es; cbn [fst snd];
          [| |exact I].
        -- split; [|right; now exists e]. exists (rev news). split; [exact Hn|].
           right. cbn [Cron.set_last Cron.ltrim Cron.updates]. now rewrite E2.
        -- split; [|left; exact E3]. exists (rev news). split; [exact Hn|].
           right. cbn [Cron.ltrim Cron.updates]. now rewrite E2.
    + destruct P as (pushed & E1 & E2 & E3). split; [|left; exact E3].
      exists pushed. rewrite length_firstn in E2. split; [lia | now left].
Qed.

(** X20.  When the job answers that it processed posts, these are the one
    to three newest posts of the sitemap, newest first; the list of updates
    is the updates made, last made first, in front of the old list, cut to
    ten; the newest post of the sitemap is marked as seen; and the route
    that lists the updates then answers with the first five of that
    list. *)
Theorem X20_cron_processed (CRON_SECRET authorization : option jsstr)
    (w : Cron.World) (st : Cron.Store) (processed : list Cron.Update) :
  fst (Cron.GET CRON_SECRET authorization w st) = Cron.Processed processed ->
  exists latest rest,
    Cron.sitemap w = inl (latest :: rest)
    /\ (1 <= length processed <= 3)%nat
    /\ map Cron.postUrl processed
       = map Cron.url (firstn (length processed) (latest :: rest))
    /\ Cron.updates (snd (Cron.GET CRON_SECRET authorization w st))
       = firstn 10 (rev processed ++ Cron.updates st)
    /\ Cron.last_post_url (snd (Cron.GET CRON_SECRET authorization w st))
       = Some (Cron.url latest)
    /\ Cron.GET_updates (Some (snd (Cron.GET CRON_SECRET authorization w st)))
       = firstn 5 (rev processed ++ Cron.updates st).
Proof.
  intros H.
  destruct (GET_processed _ _ _ _ _ H)
    as (_ & latest & rest & E1 & E2 & E3 & E4 & E5).
  exists latest, rest. repeat (split; [assumption|]).
  cbn [Cron.GET_updates]. rewrite E4, firstn_firstn. reflexivity.
Qed.

Lemma X20_cron_processed_witness :
  let w := {| Cron.sitemap :=
                inl [ {| Cron.url := js "https://metehan.ai/blog/c/";
                         Cron.lastmod := js "2026-03-03" |};
                      {| Cron.url := js "https://metehan.ai/blog/b/";
                         Cron.lastmod := js "2026-02-02" |};
                      {| Cron.url := js "https://metehan.ai/blog/a/";
                         Cron.lastmod := js "2026-01-01" |} ];
              Cron.page := fun u => inl (js "A post", js "Text of the post");
              Cron.reply := fun _ _ =>
                inl (Some (js "Sure: " ++ jq "['one','two','three','four','five']"));
              Cron.clock := fun _ => js "2026-03-04T06:00:00.000Z";
              Cron.get_fault := None;
              Cron.lpush_fault := fun _ => None;
              Cron.ltrim_fault := None;
              Cron.set_fault := None |} in
  let st := {| Cron.last_post_url := Some (js "https://metehan.ai/blog/a/");
               Cron.updates := [] |} in
  let processed := match fst (Cron.GET None None w st) with
                   | Cron.Processed p => p
                   | _ => []
                   end in
  fst (Cron.GET None None w st) = Cron.Processed processed
  /\ exists latest rest,
       Cron.sitemap w = inl (latest :: rest)
       /\ (1 <= length processed <= 3)%nat
       /\ map Cron.postUrl processed
          = map Cron.url (firstn (length processed) (latest :: rest))
       /\ Cron.updates (snd (Cron.GET None None w st))
          = firstn 10 (rev processed ++ Cron.updates st)
       /\ Cron.last_post_url (snd (Cron.GET None None w st))
          = Some (Cron.url latest)
       /\ Cron.GET_updates (Some (snd (Cron.GET None None w st)))
          = firstn 5 (rev processed ++ Cron.updates st).
Proof.
  cbv zeta.
  split; [vm_compute; reflexivity|].
  apply X20_cron_processed. vm_compute; reflexivity.
Defined.

(** X21.  A second run of the job on the same sitemap, after a run that
    processed posts, finds no new post and leaves the store as it is; if
    the store does not answer its question for the last post seen, the run
    fails, and leaves the store as it is as well. *)
Theorem X21_cron_second_run (CRON_SECRET authorization : option jsstr)
    (w w' : Cron.World) (st : Cron.Store) (processed : list Cron.Update) :
  fst (Cron.GET CRON_SECRET authorization w st) = Cron.Processed processed ->
  Cron.sitemap w' = Cron.sitemap w ->
  exists latest,
    Cron.GET CRON_SECRET authorization w'
      (snd (Cron.GET CRON_SECRET authorization w st))
    = (match Cron.get_fault w' with
       | None => Cron.NoNewPosts latest
       | Some e => Cron.Failed (Cron.String_error e)
       end,
       snd (Cron.GET CRON_SECRET authorization w st)).
Proof.
  intros H Hs.
  destruct (GET_processed _ _ _ _ _ H)
    as (Hr & latest & rest & E1 & _ & _ & _ & E5).
  exists (Cron.url latest).
  set (st' := snd (Cron.GET CRON_SECRET authorization w st)) in *.
  unfold Cron.GET at 1. rewrite Hr, Hs, E1. cbv zeta.
  destruct (Cron.get_fault w'); [reflexivity|].
  now rewrite E5, bool_decide_eq_true_2.
Qed.

Lemma X21_cron_second_run_witness :
  let w := {| Cron.sitemap :=
                inl [ {| Cron.url := js "https://metehan.ai/blog/b/";
                         Cron.lastmod := js "2026-02-02" |};
                      {| Cron.url := js "https://metehan.ai/blog/a/";
                         Cron.lastmod := js "2026-01-01" |} ];
              Cron.page := fun u => inl (js "A post", js "Text of the post");
              Cron.reply := fun _ _ => inl (Some (jq "['one','two']"));
              Cron.clock := fun _ => js "2026-03-04T06:00:00.000Z";
              Cron.get_fault := None;
              Cron.lpush_fault := fun _ => None;
              Cron.ltrim_fault := None;
              Cron.set_fault := None |} in
  let st := {| Cron.last_post_url := None; Cron.updates := [] |} in
  let processed := match fst (Cron.GET None None w st) with
                   | Cron.Processed p => p
                   | _ => []
                   end in
  (fst (Cron.GET None None w st) = Cron.Processed processed
   /\ Cron.sitemap w = Cron.sitemap w)
  /\ exists latest,
       Cron.GET None None w (snd (Cron.GET None None w st))
       = (Cron.NoNewPosts latest, snd (Cron.GET None None w st)).
Proof.
  cbv zeta.
  split; [split; [vm_compute; reflexivity | reflexivity]|].
  eapply X21_cron_second_run; [vm_compute; reflexivity | reflexivity].
Defined.
